(** * patchboard: record store, lease manager and consistency validator

    A shallow embedding of [.patchboard/tooling/patchboard.py].

    Modelling conventions.
    - Python [str] values are [string]s of ASCII characters.
    - Decoded YAML / JSON documents are [value]s; mappings have string keys and
      keep their insertion order, as Python dictionaries do.
    - A raised Python exception is the [Raise] case of [result].
    - The task directories are listings of folder entries; a [task.md] file is
      represented by what [parse_frontmatter (read_text f)] evaluates to.  The
      text level of that function is treated under "Task files as text".
    - Instants are integers (microseconds since the epoch); the range limits
      of [datetime] and the interpreter's recursion limit are not modelled. *)

From Stdlib Require Import List String Ascii ZArith Bool Lia Arith.
From Stdlib Require Import DecimalString.
Import ListNotations.
Open Scope string_scope.

(** ** Exceptions *)

Inductive exn : Type :=
| ValueError (msg : string)
| TypeError (msg : string)
| OSError (msg : string)
| ValidationError (msg : string)
| YAMLError (msg : string)
| RecursionError
| AttributeError (msg : string)
| OverflowError (msg : string).

Inductive result (A : Type) : Type :=
| Ok (a : A)
| Raise (e : exn).
Arguments Ok {A} a.
Arguments Raise {A} e.

Definition bind {A B : Type} (r : result A) (k : A -> result B) : result B :=
  match r with
  | Ok a => k a
  | Raise e => Raise e
  end.

Notation "x <- r ;; k" := (bind r (fun x => k))
  (at level 61, r at next level, right associativity).
Notation "' p <- r ;; k" := (bind r (fun x => let p := x in k))
  (at level 61, p pattern, r at next level, right associativity).

(** ** Strings *)

(** [str.isspace] on ASCII: tab, LF, VT, FF, CR, the separators 28-31, space. *)
Definition isspace (c : ascii) : bool :=
  let n := nat_of_ascii c in
  ((9 <=? n)%nat && (n <=? 13)%nat) || ((28 <=? n)%nat && (n <=? 32)%nat).

Fixpoint lstrip (s : string) : string :=
  match s with
  | EmptyString => EmptyString
  | String c s' => if isspace c then lstrip s' else s
  end.

Fixpoint all_space (s : string) : bool :=
  match s with
  | EmptyString => true
  | String c s' => isspace c && all_space s'
  end.

Fixpoint rstrip (s : string) : string :=
  match s with
  | EmptyString => EmptyString
  | String c s' => if all_space s then EmptyString else String c (rstrip s')
  end.

Definition strip (s : string) : string := rstrip (lstrip s).

Definition startswith (s p : string) : bool := String.prefix p s.

Fixpoint join (sep : string) (l : list string) : string :=
  match l with
  | [] => ""
  | [x] => x
  | x :: rest => x ++ sep ++ join sep rest
  end.

(** ** Decoded documents *)

#[warnings="-register-all"] Inductive value : Type :=
| VNone
| VBool (b : bool)
| VInt (z : Z)
| VStr (s : string)
| VList (l : list value)
| VDict (d : list (string * value)).

(** Truth value of an object, as [or] and [if] test it. *)
Definition truthy (v : value) : bool :=
  match v with
  | VNone => false
  | VBool b => b
  | VInt z => negb (z =? 0)%Z
  | VStr s => negb (s =? "")
  | VList l => match l with [] => false | _ => true end
  | VDict d => match d with [] => false | _ => true end
  end.

(** [a or b] *)
Definition py_or (a b : value) : value := if truthy a then a else b.

Definition dquote : ascii := ascii_of_nat 34.

Definition hex_digit (n : nat) : ascii :=
  ascii_of_nat (if (n <? 10)%nat then 48 + n else 87 + n).

(** [repr] of a string: single quotes unless the text has a single quote and
    no double quote; backslash, the quote and control characters escaped. *)
Fixpoint has_char (c : ascii) (s : string) : bool :=
  match s with
  | EmptyString => false
  | String a s' => Ascii.eqb a c || has_char c s'
  end.

Fixpoint repr_chars (q : ascii) (s : string) : string :=
  match s with
  | EmptyString => EmptyString
  | String c s' =>
      let n := nat_of_ascii c in
      let rest := repr_chars q s' in
      if Ascii.eqb c q || Ascii.eqb c "\"%char then String "\"%char (String c rest)
      else if (n =? 9)%nat then "\t" ++ rest
      else if (n =? 10)%nat then "\n" ++ rest
      else if (n =? 13)%nat then "\r" ++ rest
      else if (n <? 32)%nat || (n =? 127)%nat then
        "\x" ++ String (hex_digit (n / 16)) (String (hex_digit (n mod 16)) rest)
      else String c rest
  end.

Definition repr_str (s : string) : string :=
  let q := if has_char "'"%char s && negb (has_char dquote s)
           then dquote else "'"%char in
  String q (repr_chars q s ++ String q EmptyString).

Definition str_of_Z (z : Z) : string := NilZero.string_of_int (Z.to_int z).

Fixpoint py_repr (v : value) : string :=
  match v with
  | VNone => "None"
  | VBool true => "True"
  | VBool false => "False"
  | VInt z => str_of_Z z
  | VStr s => repr_str s
  | VList l => "[" ++ join ", " (map py_repr l) ++ "]"
  | VDict d =>
      "{" ++ join ", " (map (fun kv => let '(k, x) := kv in
                                       repr_str k ++ ": " ++ py_repr x) d) ++ "}"
  end.

(** [str(v)] *)
Definition py_str (v : value) : string :=
  match v with
  | VStr s => s
  | _ => py_repr v
  end.

(** [list(v)]: the elements of a list, the characters of a string, the keys of
    a mapping; anything else is not iterable. *)
Fixpoint chars (s : string) : list value :=
  match s with
  | EmptyString => []
  | String c s' => VStr (String c EmptyString) :: chars s'
  end.

Definition py_list (v : value) : result (list value) :=
  match v with
  | VList l => Ok l
  | VStr s => Ok (chars s)
  | VDict d => Ok (map (fun kv => VStr (fst kv)) d)
  | _ => Raise (TypeError "object is not iterable")
  end.

(** ** Dictionaries with string keys, in insertion order *)

Definition dict (V : Type) : Type := list (string * V).

Fixpoint lookup {V : Type} (k : string) (d : dict V) : option V :=
  match d with
  | [] => None
  | (k', v) :: rest => if k' =? k then Some v else lookup k rest
  end.

Definition contains {V : Type} (k : string) (d : dict V) : bool :=
  match lookup k d with Some _ => true | None => false end.

(** [d[k] = v]: an existing key keeps its place. *)
Fixpoint dict_set {V : Type} (k : string) (v : V) (d : dict V) : dict V :=
  match d with
  | [] => [(k, v)]
  | (k', v') :: rest =>
      if k' =? k then (k, v) :: rest else (k', v') :: dict_set k v rest
  end.

(** [d.update(other)] *)
Definition dict_update {V : Type} (d other : dict V) : dict V :=
  fold_left (fun acc kv => dict_set (fst kv) (snd kv) acc) other d.

(** [del d[k]] *)
Fixpoint dict_del {V : Type} (k : string) (d : dict V) : dict V :=
  match d with
  | [] => []
  | (k', v') :: rest =>
      if k' =? k then dict_del k rest else (k', v') :: dict_del k rest
  end.

Definition keys {V : Type} (d : dict V) : list string := map fst d.

(** [d.get(k, default)] on a decoded mapping *)
Definition get (d : dict value) (k : string) (default : value) : value :=
  match lookup k d with Some v => v | None => default end.

(** [sorted(l, key=key)]: a stable insertion sort on string keys. *)
Fixpoint insert_by {A : Type} (key : A -> string) (x : A) (l : list A) : list A :=
  match l with
  | [] => [x]
  | y :: rest =>
      if String.leb (key x) (key y) then x :: l else y :: insert_by key x rest
  end.

Fixpoint sort_by {A : Type} (key : A -> string) (l : list A) : list A :=
  match l with
  | [] => []
  | x :: rest => insert_by key x (sort_by key rest)
  end.

(** [sorted(d.items(), key=lambda kv: kv[0])] *)
Definition sorted_items {V : Type} (d : dict V) : list (string * V) :=
  sort_by fst d.

(** A key of a mapping is hashed before it is compared: lists and mappings
    are unhashable, and no other non-string object equals a string key. *)
Definition hashable (v : value) : bool :=
  match v with
  | VList _ | VDict _ => false
  | _ => true
  end.

(** [v in d] *)
Definition py_in {V : Type} (v : value) (d : dict V) : result bool :=
  match v with
  | VStr s => Ok (contains s d)
  | VList _ | VDict _ => Raise (TypeError "unhashable type")
  | _ => Ok false
  end.

(** [d.get(v)] *)
Definition py_get {V : Type} (d : dict V) (v : value) : result (option V) :=
  match v with
  | VStr s => Ok (lookup s d)
  | VList _ | VDict _ => Raise (TypeError "unhashable type")
  | _ => Ok None
  end.

(** [for x in l: body], threading the loop's state and stopping at a raise. *)
Fixpoint for_each {A S : Type} (l : list A) (body : A -> S -> result S) (s : S)
  : result S :=
  match l with
  | [] => Ok s
  | x :: rest => s' <- body x s;; for_each rest body s'
  end.

(** ** Tasks *)

Definition ALLOWED_STATUSES : list string :=
  ["todo"; "ready"; "in_progress"; "blocked"; "review"; "done"].

Definition str_in (s : string) (l : list string) : bool :=
  existsb (String.eqb s) l.

(** [path] is the name of the folder that holds the task's [task.md]. *)
Record Task : Type := mkTask {
  id : string;
  path : string;
  frontmatter : dict value;
  body : string
}.

Definition status (t : Task) : string :=
  strip (py_str (get (frontmatter t) "status" (VStr ""))).

Definition title (t : Task) : string :=
  strip (py_str (get (frontmatter t) "title" (VStr ""))).

Definition depends_on (t : Task) : result (list value) :=
  py_list (py_or (get (frontmatter t) "depends_on" VNone) (VList [])).

(** [v in (None, "", "null")] *)
Definition unset (v : value) : bool :=
  match v with
  | VNone => true
  | VStr s => (s =? "") || (s =? "null")
  | _ => false
  end.

Definition owner (t : Task) : option string :=
  let v := get (frontmatter t) "owner" VNone in
  if unset v then None else Some (py_str v).

Definition task_type (t : Task) : string :=
  strip (py_str (get (frontmatter t) "type" (VStr "task"))).

Definition parent_epic (t : Task) : option string :=
  let v := get (frontmatter t) "parent_epic" VNone in
  if unset v then None else Some (py_str v).

Definition children (t : Task) : result (list value) :=
  py_list (py_or (get (frontmatter t) "children" VNone) (VList [])).

Definition with_updates (t : Task) (updates : dict value) : Task :=
  mkTask (id t) (path t) (dict_update (frontmatter t) updates) (body t).

(** ** The repository on disk *)

(** An entry of a tasks directory.  [task_md] is [None] when the folder has no
    [task.md], and otherwise what [parse_frontmatter] makes of its text. *)
Record entry : Type := mkEntry {
  name : string;
  is_dir : bool;
  task_md : option (result (dict value * string))
}.

(** A loaded JSON-Schema validator: [validate] raises on a bad instance. *)
Definition validator : Type := value -> result unit.

Record repo : Type := mkRepo {
  tasks_base : option (list entry);     (* .patchboard/tasks, but for .archived *)
  archived_base : option (list entry);  (* .patchboard/tasks/.archived *)
  lock_files : dict (dict value);       (* state/locks/<id>.lock.json *)
  board_file : option (result value);   (* load_yaml of kanban.yaml, if present *)
  board_schema : result validator;      (* load_schema "board.schema.json" *)
  task_schema : result validator        (* load_schema "task.schema.json" *)
}.

(** [str(fm.get("id") or task_folder.name).strip()] *)
Definition entry_id (fm : dict value) (folder_name : string) : string :=
  strip (py_str (py_or (get fm "id" VNone) (VStr folder_name))).

(** The body shared by the two discovery loops; [reserved] tells whether
    folders named [_...] or [....] are skipped. *)
Definition discover_entry (reserved : bool) (e : entry) (tasks : dict Task)
  : result (dict Task) :=
  if negb (is_dir e) then Ok tasks
  else if reserved && (startswith (name e) "_" || startswith (name e) ".")
  then Ok tasks
  else match task_md e with
       | None => Ok tasks
       | Some raw =>
           '(fm, body) <- raw;;
           let tid := entry_id fm (name e) in
           Ok (dict_set tid (mkTask tid (name e) fm body) tasks)
       end.

Definition discover_tasks (st : repo) : result (dict Task) :=
  match tasks_base st with
  | None => Ok []
  | Some base => for_each (sort_by name base) (discover_entry true) []
  end.

Definition discover_archived_tasks (st : repo) : result (dict Task) :=
  match archived_base st with
  | None => Ok []
  | Some base => for_each (sort_by name base) (discover_entry false) []
  end.

Definition discover_all_tasks (st : repo) : result (dict Task) :=
  tasks <- discover_tasks st;;
  archived <- discover_archived_tasks st;;
  Ok (dict_update tasks archived).

(** ** Consistency validator *)

(** One constructor per message of [validate]; the comment gives the text. *)
Inductive diag : Type :=
| MissingBoard                     (* Missing board config: <path> *)
| InvalidBoard (e : exn)           (* Invalid board config <path>: <e> *)
| FolderMismatch (tid folder : string)
    (* <tid>: folder name '<folder>' does not match frontmatter id '<tid>' *)
| InvalidFrontmatter (tid : string) (e : exn)
    (* <tid>: invalid frontmatter: <e> *)
| InvalidStatus (tid st : string)  (* <tid>: invalid status '<st>' *)
| MissingDep (tid : string) (dep : value)
    (* <tid>: depends_on references missing task '<dep>' *)
| DepNotDone (tid st : string) (dep : value) (dep_st : string)
    (* <tid>: status '<st>' requires deps done, but '<dep>' is '<dep_st>' *)
| MissingParent (tid parent : string)
    (* <tid>: parent_epic references missing task '<parent>' *)
| ParentNotEpic (tid parent ty : string)
    (* <tid>: parent_epic '<parent>' has type '<ty>', expected 'epic' *)
| MissingChild (tid : string) (child : value)
    (* <tid>: children references missing task '<child>' *)
| ChildParentMismatch (tid : string) (child : value) (actual : option string)
    (* <tid>: child '<child>' has parent_epic='<actual>', expected '<tid>' *)
| NotInChildren (tid other : string)
    (* <tid>: task '<other>' has parent_epic='<tid>' but is not in children list *)
| EpicCycle (tid : string) (cycle : list string).
    (* <tid>: circular epic reference detected: <a> -> <b> -> ... *)

(** The two lists [errors] and [warnings] that [validate] appends to. *)
Record report : Type := mkReport {
  errors : list diag;
  warnings : list diag
}.

Definition error (d : diag) (r : report) : report :=
  mkReport (errors r ++ [d])%list (warnings r).

Definition warning (d : diag) (r : report) : report :=
  mkReport (errors r) (warnings r ++ [d])%list.

(** Board config *)
Definition check_board (st : repo) (r : report) : report :=
  match board_file st with
  | None => error MissingBoard r
  | Some loaded =>
      match (board <- loaded;; v <- board_schema st;; v board) with
      | Ok _ => r
      | Raise e => error (InvalidBoard e) r
      end
  end.

(** Validate tasks: folder name, schema, status, dependencies exist. *)
Definition check_task (task_validator : validator) (all_tasks : dict Task)
    (kv : string * Task) (r : report) : result report :=
  let '(tid, task) := kv in
  let folder := path task in
  let r := if negb (folder =? tid) then warning (FolderMismatch tid folder) r
           else r in
  let r := match task_validator (VDict (frontmatter task)) with
           | Ok _ => r
           | Raise e => error (InvalidFrontmatter tid e) r
           end in
  let st := status task in
  let r := if negb (str_in st ALLOWED_STATUSES) then error (InvalidStatus tid st) r
           else r in
  deps <- depends_on task;;
  for_each deps
    (fun dep r =>
       known <- py_in dep all_tasks;;
       Ok (if negb known then error (MissingDep tid dep) r else r))
    r.

(** Dependency rule: deps must be done before ready / in_progress. *)
Definition check_dep (tasks all_tasks : dict Task) (tid : string) (task : Task)
    (dep : value) (r : report) : result report :=
  found <- py_get all_tasks dep;;
  match found with
  | None => Ok r
  | Some dep_task =>
      active <- py_in dep tasks;;
      Ok (if active && negb (status dep_task =? "done")
          then error (DepNotDone tid (status task) dep (status dep_task)) r
          else r)
  end.

Definition check_ready (tasks all_tasks : dict Task)
    (kv : string * Task) (r : report) : result report :=
  let '(tid, task) := kv in
  if str_in (status task) ["ready"; "in_progress"] then
    deps <- depends_on task;;
    for_each deps (check_dep tasks all_tasks tid task) r
  else Ok r.

(** Epic relationship validation: references exist. *)
Definition check_epic_refs (tasks all_tasks : dict Task)
    (kv : string * Task) (r : report) : result report :=
  let '(tid, task) := kv in
  let r :=
    match parent_epic task with
    | None => r
    | Some p =>
        if p =? "" then r
        else if negb (contains p all_tasks) then error (MissingParent tid p) r
        else match lookup p tasks with
             | Some parent =>
                 if negb (task_type parent =? "epic")
                 then warning (ParentNotEpic tid p (task_type parent)) r
                 else r
             | None => r
             end
    end in
  kids <- children task;;
  for_each kids
    (fun child_id r =>
       known <- py_in child_id all_tasks;;
       Ok (if negb known then error (MissingChild tid child_id) r else r))
    r.

(** [x in l] for a string [x] and a list of decoded objects. *)
Definition str_in_values (s : string) (l : list value) : bool :=
  existsb (fun v => match v with VStr s' => s' =? s | _ => false end) l.

Definition option_str_eqb (o : option string) (s : string) : bool :=
  match o with Some s' => s' =? s | None => false end.

(** Bidirectional consistency (children <-> parent_epic). *)
Definition check_child_back (tasks : dict Task) (tid : string)
    (child_id : value) (r : report) : result report :=
  known <- py_in child_id tasks;;
  if known then
    found <- py_get tasks child_id;;
    match found with
    | Some child =>
        Ok (if negb (option_str_eqb (parent_epic child) tid)
            then warning (ChildParentMismatch tid child_id (parent_epic child)) r
            else r)
    | None => Ok r
    end
  else Ok r.

Definition check_listed (tid : string) (task : Task)
    (kv : string * Task) (r : report) : result report :=
  let '(other_id, other_task) := kv in
  if option_str_eqb (parent_epic other_task) tid then
    kids <- children task;;
    Ok (if negb (str_in_values other_id kids)
        then warning (NotInChildren tid other_id) r else r)
  else Ok r.

Definition check_bidirectional (tasks : dict Task)
    (kv : string * Task) (r : report) : result report :=
  let '(tid, task) := kv in
  if task_type task =? "epic" then
    kids <- children task;;
    r <- for_each kids (check_child_back tasks tid) r;;
    for_each tasks (check_listed tid task) r
  else Ok r.

(** [path.index(x)] *)
Fixpoint index (x : string) (l : list string) : result nat :=
  match l with
  | [] => Raise (ValueError "x is not in list")
  | y :: rest => if y =? x then Ok 0 else i <- index x rest;; Ok (S i)
  end.

Definition is_epic (tasks : dict Task) (tid : string) : bool :=
  match lookup tid tasks with
  | Some t => task_type t =? "epic"
  | None => false
  end.

(** Detect circular epic references.  [fuel] bounds the depth of the
    recursion; [find_epic_cycle_fuel] shows that the depth [validate] allows
    is never exhausted. *)
Fixpoint find_epic_cycle (fuel : nat) (tasks : dict Task) (start_id : string)
    (visited : list string) (path : list string) : result (option (list string)) :=
  match fuel with
  | O => Raise RecursionError
  | S fuel' =>
      if str_in start_id visited then
        cycle_start <- index start_id path;;
        Ok (Some (skipn cycle_start path ++ [start_id])%list)
      else
        match lookup start_id tasks with
        | None => Ok None
        | Some task =>
            if negb (task_type task =? "epic") then Ok None
            else
              let visited := start_id :: visited in
              let path := (path ++ [start_id])%list in
              kids <- children task;;
              (fix loop (kids : list value) : result (option (list string)) :=
                 match kids with
                 | [] => Ok None
                 | child_id :: rest =>
                     known <- py_in child_id tasks;;
                     match child_id with
                     | VStr c =>
                         if known && is_epic tasks c then
                           cycle <- find_epic_cycle fuel' tasks c visited path;;
                           match cycle with
                           | Some ((_ :: _) as found) => Ok (Some found)
                           | _ => loop rest
                           end
                         else loop rest
                     | _ => loop rest
                     end
                 end) kids
        end
  end.

(** The closing loop of [validate]: the first epic, in id order, from which a
    cycle is found is reported, and the loop stops there. *)
Fixpoint check_cycles (tasks : dict Task) (items : list (string * Task))
    (r : report) : result report :=
  match items with
  | [] => Ok r
  | (tid, task) :: rest =>
      if task_type task =? "epic" then
        cycle <- find_epic_cycle (S (List.length tasks)) tasks tid [] [];;
        match cycle with
        | Some ((_ :: _) as found) => Ok (error (EpicCycle tid found) r)
        | _ => check_cycles tasks rest r
        end
      else check_cycles tasks rest r
  end.

Definition validate_report (st : repo) : result report :=
  let r := mkReport [] [] in
  tasks <- discover_tasks st;;
  all_tasks <- discover_all_tasks st;;
  let r := check_board st r in
  task_validator <- task_schema st;;
  r <- for_each (sorted_items tasks) (check_task task_validator all_tasks) r;;
  r <- for_each (sorted_items tasks) (check_ready tasks all_tasks) r;;
  r <- for_each (sorted_items tasks) (check_epic_refs tasks all_tasks) r;;
  r <- for_each (sorted_items tasks) (check_bidirectional tasks) r;;
  check_cycles tasks (sorted_items tasks) r.

(** [validate] returns the exit code. *)
Definition validate (st : repo) : result Z :=
  r <- validate_report st;;
  Ok (match errors r with [] => 0%Z | _ => 1%Z end).

(** ** Time *)

(** A parsed timestamp carries a UTC offset ([Aware]) or none ([Naive]). *)
Inductive datetime : Type :=
| Aware (t : Z)
| Naive (t : Z).

(** The calendar arithmetic of [datetime] and [dateutil], which the tool only
    calls: [isoparse] reads an ISO-8601 text, [human_dt] writes an instant as
    one, [date_isoformat] is [dt.date().isoformat()]. *)
Class Calendar : Type := {
  isoparse : string -> result datetime;
  human_dt : datetime -> string;
  date_isoformat : Z -> string
}.

(** ** Lease manager *)

Record Lock : Type := mkLock {
  task_id : string;
  data : dict value
}.

Definition claimed_by (l : Lock) : string :=
  strip (py_str (get (data l) "claimed_by" (VStr ""))).

Definition lease_expires_at {cal : Calendar} (l : Lock) : result datetime :=
  match lookup "lease_expires_at" (data l) with
  | Some v => isoparse (py_str v)
  | None => Raise (ValueError "KeyError: lease_expires_at")
  end.

(** [self.lease_expires_at <= now_utc()], with every exception (a missing or
    unreadable expiry, a naive timestamp) read as expired. *)
Definition is_expired {cal : Calendar} (now : Z) (l : Lock) : bool :=
  match lease_expires_at l with
  | Ok (Aware t) => (t <=? now)%Z
  | Ok (Naive _) => true
  | Raise _ => true
  end.

(** A lock file of a [repo] holds a JSON object, so [load_json] returns its
    mapping; a file that does not decode to an object is not among the
    repositories described. *)
Definition load_lock (st : repo) (task_id : string) : option Lock :=
  match lookup task_id (lock_files st) with
  | Some d => Some (mkLock task_id d)
  | None => None
  end.

Definition is_lock_unexpired {cal : Calendar} (now : Z) (l : Lock) : bool :=
  negb (is_expired now l).

(** What an operation prints on the error stream before it returns 1. *)
Inductive message : Type :=
| UnknownTask (tid : string)          (* unknown task '<tid>' *)
| TaskDone (tid : string)             (* task '<tid>' is done; refusing to claim *)
| DependencyUnmet (tid : string) (dep : value) (dep_status : string)
    (* cannot claim '<tid>': dependency '<dep>' is '<dep_status>' (must be done) *)
| LockedByYou (tid : string)
    (* '<tid>' is already locked by you; use renew instead *)
| LockedByOther (tid holder until : string)
    (* '<tid>' is already locked by '<holder>' until <until> *)
| StealDisabled (tid : string)        (* '<tid>' has an expired lock; stealing disabled *)
| NoLock (tid : string)               (* no lock exists for '<tid>' *)
| NotOwner (tid holder actor : string)
    (* lock for '<tid>' is owned by '<holder>', not '<actor>' *)
| LockExpired (tid : string)
    (* lock for '<tid>' is expired; re-claim instead of renew *)
| BadStatus (st : string)             (* invalid status '<st>' *)
| AlreadyArchived (tid : string)      (* task '<tid>' is already archived *)
| ActiveLock (tid holder until : string)
    (* cannot archive '<tid>': task has active lock by '<holder>' until <until> *)
| DestinationExists (tid : string).   (* destination '<path>' already exists *)

(** How an operation ends: it returns 0, returns 1 after a message, or lets
    an exception escape; in each case with the repository as it left it. *)
Inductive outcome : Type :=
| Done (st : repo)
| Failed (m : message) (st : repo)
| Raised (e : exn) (st : repo).

(** Run a fallible step; an exception ends the operation in state [st]. *)
Definition try {A : Type} (st : repo) (r : result A) (k : A -> outcome) : outcome :=
  match r with
  | Ok a => k a
  | Raise e => Raised e st
  end.

Definition nl : string := String (ascii_of_nat 10) EmptyString.

(** The body that a later [parse_frontmatter] finds after
    [write_text p (render_task_markdown fm body)]: see [Text]. *)
Definition stored_body (body : string) : string :=
  if strip body =? "" then "" else strip body ++ nl.

Fixpoint has_entry (folder : string) (base : list entry) : bool :=
  match base with
  | [] => false
  | e :: rest => (name e =? folder) || has_entry folder rest
  end.

(** [write_text (tasks/<folder>/task.md) (render_task_markdown fm body)] *)
Definition write_task (st : repo) (folder : string) (fm : dict value)
    (body : string) : repo :=
  let file := Some (Ok (fm, stored_body body)) in
  let base := match tasks_base st with Some b => b | None => [] end in
  let base' :=
    if has_entry folder base
    then map (fun e => if name e =? folder
                       then mkEntry (name e) (is_dir e) file else e) base
    else (base ++ [mkEntry folder true file])%list in
  mkRepo (Some base') (archived_base st) (lock_files st)
         (board_file st) (board_schema st) (task_schema st).

(** [dump_json (locks/<task_id>.lock.json) data] *)
Definition write_lock (st : repo) (task_id : string) (d : dict value) : repo :=
  mkRepo (tasks_base st) (archived_base st) (dict_set task_id d (lock_files st))
         (board_file st) (board_schema st) (task_schema st).

(** [(locks/<task_id>.lock.json).unlink()] *)
Definition delete_lock (st : repo) (task_id : string) : repo :=
  mkRepo (tasks_base st) (archived_base st) (dict_del task_id (lock_files st))
         (board_file st) (board_schema st) (task_schema st).

(** The dependency loop of [claim]: the first active dependency that is not
    done, if any. *)
Fixpoint first_unmet (tasks : dict Task) (deps : list value)
  : result (option (value * string)) :=
  match deps with
  | [] => Ok None
  | dep :: rest =>
      found <- py_get tasks dep;;
      match found with
      | Some dep_task =>
          if negb (status dep_task =? "done") then Ok (Some (dep, status dep_task))
          else first_unmet tasks rest
      | None => first_unmet tasks rest
      end
  end.

Definition opt_value (o : option string) : value :=
  match o with Some s => VStr s | None => VNone end.

(** ** Date arithmetic *)

(** An instant is a number of seconds since the epoch.  The first and the
    last second that a [datetime] holds: 0001-01-01T00:00:00 and
    9999-12-31T23:59:59. *)
Definition MIN_INSTANT : Z := -62135596800.
Definition MAX_INSTANT : Z := 253402300799.

(** [timedelta(seconds=n)]: the days of a duration are at most 999999999 in
    magnitude. *)
Definition timedelta (seconds : Z) : result Z :=
  if (Z.abs (seconds / 86400) <=? 999999999)%Z then Ok seconds
  else Raise (OverflowError "days; must have magnitude <= 999999999").

(** [dt + delta] on a [datetime] *)
Definition datetime_add (dt delta : Z) : result Z :=
  let t := (dt + delta)%Z in
  if (MIN_INSTANT <=? t)%Z && (t <=? MAX_INSTANT)%Z then Ok t
  else Raise (OverflowError "date value out of range").

(** [now + timedelta(seconds=lease_seconds)] *)
Definition lease_end (now lease_seconds : Z) : result Z :=
  delta <- timedelta lease_seconds;;
  datetime_add now delta.

(** The writes of a claim, once [expires] is computed: the lock file, then
    the task's frontmatter. *)
Definition take_lease {cal : Calendar} (now expires : Z) (branch : option string)
    (st : repo) (task : Task) (task_id actor : string) (lease_seconds : Z)
  : repo :=
  let lock_data :=
    [("task_id", VStr task_id);
     ("claimed_by", VStr actor);
     ("claimed_at", VStr (human_dt (Aware now)));
     ("lease_seconds", VInt lease_seconds);
     ("lease_expires_at", VStr (human_dt (Aware expires)));
     ("branch", opt_value branch);
     ("last_renewed_at", VStr (human_dt (Aware now)))] in
  let st := write_lock st task_id lock_data in
  let updated :=
    with_updates task
      [("status", VStr "in_progress");
       ("owner", VStr actor);
       ("updated_at", VStr (date_isoformat now))] in
  write_task st (path task) (frontmatter updated) (body updated).

Definition claim {cal : Calendar} (now : Z) (branch : option string) (st : repo)
    (task_id actor : string) (lease_seconds : Z) (allow_steal_expired : bool)
  : outcome :=
  try st (discover_tasks st) (fun tasks =>
  match lookup task_id tasks with
  | None => Failed (UnknownTask task_id) st
  | Some task =>
      if status task =? "done" then Failed (TaskDone task_id) st
      else
        (* Dependency rule baseline *)
        try st (depends_on task) (fun deps =>
        try st (first_unmet tasks deps) (fun unmet =>
        match unmet with
        | Some (dep, dep_status) =>
            Failed (DependencyUnmet task_id dep dep_status) st
        | None =>
            match load_lock st task_id with
            | Some existing =>
                if is_lock_unexpired now existing then
                  if claimed_by existing =? actor
                  then Failed (LockedByYou task_id) st
                  else
                    try st (lease_expires_at existing) (fun dt =>
                    Failed (LockedByOther task_id (claimed_by existing)
                                          (human_dt dt)) st)
                else if negb allow_steal_expired
                then Failed (StealDisabled task_id) st
                else
                  try st (lease_end now lease_seconds) (fun expires =>
                  Done (take_lease now expires branch st task task_id actor
                                   lease_seconds))
            | None =>
                try st (lease_end now lease_seconds) (fun expires =>
                Done (take_lease now expires branch st task task_id actor
                                 lease_seconds))
            end
        end))
  end).

Definition renew {cal : Calendar} (now : Z) (st : repo) (task_id actor : string)
    (lease_seconds : Z) : outcome :=
  match load_lock st task_id with
  | None => Failed (NoLock task_id) st
  | Some lock =>
      if negb (claimed_by lock =? actor)
      then Failed (NotOwner task_id (claimed_by lock) actor) st
      else if is_expired now lock then Failed (LockExpired task_id) st
      else
        try st (lease_end now lease_seconds) (fun expires =>
        let d := dict_set "lease_seconds" (VInt lease_seconds) (data lock) in
        let d := dict_set "lease_expires_at" (VStr (human_dt (Aware expires))) d in
        let d := dict_set "last_renewed_at" (VStr (human_dt (Aware now))) d in
        Done (write_lock st task_id d))
  end.

Definition release {cal : Calendar} (now : Z) (st : repo) (task_id actor : string)
    (force : bool) (new_status : option string) : outcome :=
  match load_lock st task_id with
  | None => Failed (NoLock task_id) st
  | Some lock =>
      if negb (claimed_by lock =? actor) && negb force
      then Failed (NotOwner task_id (claimed_by lock) actor) st
      else
        (* Delete lock *)
        let st := delete_lock st task_id in
        (* Optionally update task status *)
        try st (discover_tasks st) (fun tasks =>
        match lookup task_id tasks with
        | Some task =>
            let updates := [("updated_at", VStr (date_isoformat now))] in
            match new_status with
            | Some s =>
                if s =? "" then
                  let updated := with_updates task updates in
                  Done (write_task st (path task) (frontmatter updated) (body updated))
                else if negb (str_in s ALLOWED_STATUSES) then Failed (BadStatus s) st
                else
                  let updated :=
                    with_updates task (dict_set "status" (VStr s) updates) in
                  Done (write_task st (path task) (frontmatter updated) (body updated))
            | None =>
                let updated := with_updates task updates in
                Done (write_task st (path task) (frontmatter updated) (body updated))
            end
        | None => Done st
        end)
  end.

(** ** Archival *)

Definition archive_entry (folder task_id : string) (base : list entry)
  : list entry :=
  map (fun e => mkEntry task_id (is_dir e) (task_md e))
      (filter (fun e => name e =? folder) base).

(** [shutil.move (tasks/<folder>) (tasks/.archived/<task_id>)], for a
    [task_id] that is a file name: the folder becomes the entry [task_id] of
    the archive. *)
Definition move_to_archive (st : repo) (folder task_id : string) : repo :=
  let base := match tasks_base st with Some b => b | None => [] end in
  let arch := match archived_base st with Some a => a | None => [] end in
  mkRepo (Some (filter (fun e => negb (name e =? folder)) base))
         (Some (arch ++ archive_entry folder task_id base)%list)
         (lock_files st) (board_file st) (board_schema st) (task_schema st).

(** [archived_dir.mkdir(parents=True, exist_ok=True)] *)
Definition make_archive_dir (st : repo) : repo :=
  mkRepo (tasks_base st)
         (Some (match archived_base st with Some a => a | None => [] end))
         (lock_files st) (board_file st) (board_schema st) (task_schema st).

(** [(archived_dir / task_id).exists()], for a [task_id] that is a file
    name: an entry of that name is listed in the archive.  (An empty id, [.]
    and [..] name a directory instead, and an id with a slash a path below
    the archive.) *)
Definition archive_exists (st : repo) (task_id : string) : bool :=
  match archived_base st with
  | Some a => has_entry task_id a
  | None => false
  end.

Definition archive_task {cal : Calendar} (now : Z) (st : repo) (task_id : string)
  : outcome :=
  try st (discover_tasks st) (fun tasks =>
  match lookup task_id tasks with
  | None =>
      (* Check if already archived *)
      if archive_exists st task_id then Failed (AlreadyArchived task_id) st
      else Failed (UnknownTask task_id) st
  | Some task =>
      let task_folder := path task in
      let move (st : repo) : outcome :=
        let st := make_archive_dir st in
        if archive_exists st task_id then Failed (DestinationExists task_id) st
        else
          let st := move_to_archive st task_folder task_id in
          (* Remove lock file if it exists (expired locks) *)
          Done (delete_lock st task_id) in
      (* Check if task has an active lock *)
      match load_lock st task_id with
      | Some lock =>
          if negb (is_expired now lock) then
            try st (lease_expires_at lock) (fun dt =>
            Failed (ActiveLock task_id (claimed_by lock) (human_dt dt)) st)
          else move st
      | None => move st
      end
  end).

(** ** Example repositories *)

(** A calendar for the examples: an instant is written as a decimal number
    of seconds, and a date as the number of its day. *)
Definition decimal_calendar : Calendar := {|
  isoparse s :=
    match NilZero.int_of_string s with
    | Some i => Ok (Aware (Z.of_int i))
    | None => Raise (ValueError "invalid isoformat string")
    end;
  human_dt dt := match dt with Aware t | Naive t => str_of_Z t end;
  date_isoformat t := str_of_Z (t / 86400)
|}.

Definition accept_all : validator := fun _ => Ok tt.

Definition example_fm (tid st : string) (deps : list value) : dict value :=
  [("id", VStr tid); ("title", VStr "Example"); ("status", VStr st);
   ("depends_on", VList deps)].

Definition folder (folder_name : string) (fm : dict value) : entry :=
  mkEntry folder_name true (Some (Ok (fm, "## Context" ++ nl))).

(** Active T-1 (ready) depends on T-2; T-2 is active with status todo, and an
    archived folder holds a task with the same id T-2 and status done. *)
Definition collision_repo : repo :=
  mkRepo
    (Some [folder "T-1" (example_fm "T-1" "ready" [VStr "T-2"]);
           folder "T-2" (example_fm "T-2" "todo" [])])
    (Some [folder "T-2-old" (example_fm "T-2" "done" [])])
    []
    (Some (Ok (VDict [])))
    (Ok accept_all) (Ok accept_all).

(** One task folder whose [task.md] has no frontmatter block. *)
Definition malformed_repo : repo :=
  mkRepo
    (Some [folder "T-1" (example_fm "T-1" "todo" []);
           mkEntry "T-2" true
             (Some (Raise (ValueError "missing YAML frontmatter (expected leading '--- ... ---')")))])
    None
    []
    (Some (Ok (VDict [])))
    (Ok accept_all) (Ok accept_all).

(** Well-formed tasks, but neither schema document can be loaded. *)
Definition schemaless_repo : repo :=
  mkRepo
    (Some [folder "T-1" (example_fm "T-1" "todo" [])])
    None
    []
    (Some (Ok (VDict [])))
    (Raise (OSError "No such file or directory: board.schema.json"))
    (Raise (OSError "No such file or directory: task.schema.json")).

Definition example_lock (tid holder expires : string) : dict value :=
  [("task_id", VStr tid); ("claimed_by", VStr holder);
   ("claimed_at", VStr "0"); ("lease_seconds", VInt 3600);
   ("lease_expires_at", VStr expires); ("branch", VNone);
   ("last_renewed_at", VStr "0")].

(** T-1 is in progress and locked by bob until instant 3600. *)
Definition locked_repo : repo :=
  mkRepo
    (Some [folder "T-1" (example_fm "T-1" "in_progress" [])])
    None
    [("T-1", example_lock "T-1" "bob" "3600")]
    (Some (Ok (VDict [])))
    (Ok accept_all) (Ok accept_all).

(** A lock is left for T-9, which is not among the active tasks. *)
Definition orphan_lock_repo : repo :=
  mkRepo
    (Some [folder "T-1" (example_fm "T-1" "todo" [])])
    None
    [("T-9", example_lock "T-9" "bob" "3600")]
    (Some (Ok (VDict [])))
    (Ok accept_all) (Ok accept_all).

(** T-1 is done, and bob's lock on it has the expiry 3600. *)
Definition done_locked_repo : repo :=
  mkRepo
    (Some [folder "T-1" (example_fm "T-1" "done" [])])
    None
    [("T-1", example_lock "T-1" "bob" "3600")]
    (Some (Ok (VDict [])))
    (Ok accept_all) (Ok accept_all).

(** T-1 depends on T-2, which is active and still todo; T-3 is ready and
    depends on T-1. *)
Definition blocked_repo : repo :=
  mkRepo
    (Some [folder "T-1" (example_fm "T-1" "todo" [VStr "T-2"]);
           folder "T-2" (example_fm "T-2" "todo" []);
           folder "T-3" (example_fm "T-3" "ready" [VStr "T-1"])])
    None
    [("T-1", example_lock "T-1" "bob" "3600")]
    (Some (Ok (VDict [])))
    (Ok accept_all) (Ok accept_all).

(** ** Conditions of the lease protocol *)

(** [dep] names an active task that is not done. *)
Definition active_not_done (tasks : dict Task) (dep : value) (st : string) : Prop :=
  exists key t,
    dep = VStr key /\ lookup key tasks = Some t /\ status t = st /\ st <> "done".

(** The lock [l] is held until the instant [t], which is after [now]. *)
Definition held_until {cal : Calendar} (now : Z) (l : Lock) (t : Z) : Prop :=
  lease_expires_at l = Ok (Aware t) /\ (now < t)%Z.

(** The expiry [t] of the lock [l] is at or before [now]. *)
Definition expired_at {cal : Calendar} (now : Z) (l : Lock) (t : Z) : Prop :=
  lease_expires_at l = Ok (Aware t) /\ (t <= now)%Z.

(** ** Reading a report *)

(** The step of [validate] that can append a given error. *)
Definition stage_of (d : diag) : nat :=
  match d with
  | MissingBoard | InvalidBoard _ => 0
  | FolderMismatch _ _ | InvalidFrontmatter _ _ | InvalidStatus _ _
  | MissingDep _ _ => 1
  | DepNotDone _ _ _ _ => 2
  | MissingParent _ _ | ParentNotEpic _ _ _ | MissingChild _ _ => 3
  | ChildParentMismatch _ _ _ | NotInChildren _ _ => 4
  | EpicCycle _ _ => 5
  end.

(** [r'] is [r] with more errors, all of step [n], and maybe more warnings. *)
Definition adds (n : nat) (r r' : report) : Prop :=
  exists es, errors r' = (errors r ++ es)%list /\
             Forall (fun d => stage_of d = n) es.

(** What the dependency rule reports for the task [tid] and its dependency
    [dep]: [dep] names an active task, and the record that the merged mapping
    holds for that name has a status other than done. *)
Definition not_ready (tasks all_tasks : dict Task) (tid : string) (task : Task)
    (dep : value) (d : diag) : Prop :=
  exists key dep_task,
    dep = VStr key /\ lookup key all_tasks = Some dep_task /\
    contains key tasks = true /\ status dep_task <> "done" /\
    d = DepNotDone tid (status task) dep (status dep_task).

(** The active tasks of [blocked_repo], as [discover_tasks] finds them. *)
Definition blocked_task (tid st : string) (deps : list value) : Task :=
  mkTask tid tid (example_fm tid st deps) ("## Context" ++ nl).

Definition blocked_tasks : dict Task :=
  [("T-1", blocked_task "T-1" "todo" [VStr "T-2"]);
   ("T-2", blocked_task "T-2" "todo" []);
   ("T-3", blocked_task "T-3" "ready" [VStr "T-1"])].

(** ** The epic graph *)

(** The loop over [task.children] inside [find_epic_cycle], with the
    recursive call as a parameter. *)
Fixpoint cycle_among (rec : string -> result (option (list string)))
    (tasks : dict Task) (kids : list value) : result (option (list string)) :=
  match kids with
  | [] => Ok None
  | child_id :: rest =>
      known <- py_in child_id tasks;;
      match child_id with
      | VStr c =>
          if known && is_epic tasks c then
            cycle <- rec c;;
            match cycle with
            | Some ((_ :: _) as found) => Ok (Some found)
            | _ => cycle_among rec tasks rest
            end
          else cycle_among rec tasks rest
      | _ => cycle_among rec tasks rest
      end
  end.

(** [b] is listed among the children of the active epic [a], and is an
    active epic itself: the only steps the walk takes. *)
Definition epic_edge (tasks : dict Task) (a b : string) : Prop :=
  exists ta kids,
    lookup a tasks = Some ta /\ task_type ta = "epic" /\
    children ta = Ok kids /\ In (VStr b) kids /\ is_epic tasks b = true.

(** Each id of the list is followed by one of its child epics. *)
Fixpoint chain (tasks : dict Task) (l : list string) : Prop :=
  match l with
  | a :: (b :: _) as rest => epic_edge tasks a b /\ chain tasks rest
  | _ => True
  end.

(** A cycle as [find_epic_cycle] returns it: a chain from an id back to
    itself in which no other id repeats. *)
Definition simple_cycle (tasks : dict Task) (c : list string) : Prop :=
  exists x mid, c = (x :: mid ++ [x])%list /\ NoDup (x :: mid) /\ chain tasks c.

(** Some chain of child epics leads from an id back to itself. *)
Definition epic_cycle (tasks : dict Task) (c : list string) : Prop :=
  exists x mid, c = (x :: mid ++ [x])%list /\ chain tasks c.

(** From [s] a chain of fresh ids leads to an id already in [visited]. *)
Inductive closes (tasks : dict Task) : list string -> string -> Prop :=
| closes_here (visited : list string) (s : string) :
    In s visited -> closes tasks visited s
| closes_step (visited : list string) (s c : string) :
    ~ In s visited -> epic_edge tasks s c ->
    closes tasks (s :: visited) c -> closes tasks visited s.

(** Every task's [children] is a list whose members can be looked up. *)
Definition children_ok (tasks : dict Task) : Prop :=
  forall k t, lookup k tasks = Some t ->
    exists kids, children t = Ok kids /\ forallb hashable kids = true.

(** The number of task ids that the walk has not visited. *)
Definition unvisited (tasks : dict Task) (visited : list string) : nat :=
  List.length (filter (fun k => negb (str_in k visited)) (keys tasks)).

Definition is_cycle_error (d : diag) : bool :=
  match d with EpicCycle _ _ => true | _ => false end.

Definition epic_fm (tid : string) (kids : list value) : dict value :=
  [("id", VStr tid); ("title", VStr "Epic"); ("status", VStr "todo");
   ("type", VStr "epic"); ("children", VList kids)].

(** Three epics in a ring: A lists B, B lists C, C lists A; T-1 is a plain
    task listed by no epic. *)
Definition ring_repo : repo :=
  mkRepo
    (Some [folder "A" (epic_fm "A" [VStr "B"; VStr "T-1"]);
           folder "B" (epic_fm "B" [VStr "C"]);
           folder "C" (epic_fm "C" [VStr "A"]);
           folder "T-1" (example_fm "T-1" "todo" [])])
    None
    []
    (Some (Ok (VDict [])))
    (Ok accept_all) (Ok accept_all).

(** The active tasks of [ring_repo]. *)
Definition ring_tasks : dict Task :=
  match discover_tasks ring_repo with Ok tasks => tasks | Raise _ => [] end.

(** [depends_on] and [children] of the task are lists whose members can be
    looked up in a dictionary. *)
Definition refs_ok (t : Task) : Prop :=
  (exists deps, depends_on t = Ok deps /\ forallb hashable deps = true) /\
  (exists kids, children t = Ok kids /\ forallb hashable kids = true).

(** ** Outcomes and calendars *)

(** The repository an operation leaves behind, however it ended. *)
Definition final_state (o : outcome) : repo :=
  match o with
  | Done st | Failed _ st | Raised _ st => st
  end.

(** Reading back the text written for the instant [t] gives [t] again. *)
Definition reads_back {cal : Calendar} (t : Z) : Prop :=
  isoparse (human_dt (Aware t)) = Ok (Aware t).

(** ** Folders that discovery reads *)

(** A directory entry that a discovery loop reads: a directory, not named
    with a reserved prefix when [reserved] is set, that holds a [task.md]. *)
Definition eligible (reserved : bool) (e : entry) : bool :=
  is_dir e
  && negb (reserved && (startswith (name e) "_" || startswith (name e) "."))
  && match task_md e with Some _ => true | None => false end.

(** The entry holds a well-formed task file whose task id is [k]. *)
Definition yields (reserved : bool) (e : entry) (k : string) : Prop :=
  eligible reserved e = true /\
  exists fm b, task_md e = Some (Ok (fm, b)) /\ entry_id fm (name e) = k.

(** ** Errors about single tasks and about references *)

(** The reference [v] names a task of the active or of the archived set. *)
Definition resolves (tasks archived : dict Task) (v : value) : bool :=
  match v with
  | VStr k => contains k tasks || contains k archived
  | _ => false
  end.

(** The errors that the first loop of [validate] reports for one task. *)
Definition task_error (task_validator : validator) (tasks archived : dict Task)
    (tid : string) (task : Task) (d : diag) : Prop :=
  (exists e, task_validator (VDict (frontmatter task)) = Raise e /\
             d = InvalidFrontmatter tid e) \/
  (str_in (status task) ALLOWED_STATUSES = false /\
   d = InvalidStatus tid (status task)) \/
  (exists deps dep, depends_on task = Ok deps /\ In dep deps /\
                    resolves tasks archived dep = false /\
                    d = MissingDep tid dep).

(** The errors that the epic-relationship loop reports for one task. *)
Definition reference_error (tasks archived : dict Task)
    (tid : string) (task : Task) (d : diag) : Prop :=
  (exists p, parent_epic task = Some p /\ p <> "" /\
             resolves tasks archived (VStr p) = false /\
             d = MissingParent tid p) \/
  (exists kids c, children task = Ok kids /\ In c kids /\
                  resolves tasks archived c = false /\
                  d = MissingChild tid c).

(** One task with a status outside the allowed set, a dependency and a parent
    epic that no task has, and an archived dependency. *)
Definition dangling_repo : repo :=
  mkRepo
    (Some [folder "T-1"
             [("id", VStr "T-1"); ("title", VStr "Example"); ("status", VStr "wip");
              ("depends_on", VList [VStr "T-9"; VStr "T-0"]);
              ("parent_epic", VStr "E-9")]])
    (Some [folder "T-0" (example_fm "T-0" "done" [])])
    []
    (Some (Ok (VDict [])))
    (Ok accept_all) (Ok accept_all).

Definition dangling_tasks : dict Task :=
  match discover_tasks dangling_repo with Ok tasks => tasks | Raise _ => [] end.

Definition dangling_archived : dict Task :=
  match discover_archived_tasks dangling_repo with
  | Ok tasks => tasks
  | Raise _ => []
  end.

Definition dangling_report : report :=
  match validate_report dangling_repo with
  | Ok r => r
  | Raise _ => mkReport [] []
  end.

(** ** Task files as text *)

(** The YAML library, which the tool only calls: [safe_load] reads a document
    and [safe_dump] is [yaml.safe_dump(obj, sort_keys=False)]. *)
Class Yaml : Type := {
  safe_load : string -> result value;
  safe_dump : dict value -> string
}.

Definition newline : ascii := ascii_of_nat 10.

(** [s[n:]] *)
Fixpoint drop (n : nat) (s : string) : string :=
  match n, s with
  | O, _ => s
  | S n', String _ s' => drop n' s'
  | S _, EmptyString => EmptyString
  end.

(** The longest run of white space at the head of [s], and what follows. *)
Fixpoint span_space (s : string) : string * string :=
  match s with
  | String c s' =>
      if isspace c then let '(w, rest) := span_space s' in (String c w, rest)
      else (EmptyString, s)
  | EmptyString => (EmptyString, EmptyString)
  end.

(** [\s*\n] at the end of the pattern, on the run of white space [w]: the
    greedy star gives back until a line feed follows, so the match ends after
    the last line feed of [w]; the result is what of [w] stays unmatched. *)
Fixpoint after_last_newline (w : string) : option string :=
  match w with
  | EmptyString => None
  | String c w' =>
      match after_last_newline w' with
      | Some rest => Some rest
      | None => if Ascii.eqb c newline then Some w' else None
      end
  end.

(** [\n---\s*\n] matched at the head of [s]: the text after the match. *)
Definition match_close (s : string) : option string :=
  if String.prefix (nl ++ "---") s then
    let '(w, rest) := span_space (drop 4 s) in
    match after_last_newline w with
    | Some w' => Some (w' ++ rest)
    | None => None
    end
  else None.

(** [(.*?)\n---\s*\n]: the lazy group grows one character at a time until
    the closing line matches; the result is the group and the text after the
    whole match. *)
Fixpoint match_group (s : string) : option (string * string) :=
  match match_close s with
  | Some rest => Some (EmptyString, rest)
  | None =>
      match s with
      | EmptyString => None
      | String c s' =>
          match match_group s' with
          | Some (g, rest) => Some (String c g, rest)
          | None => None
          end
      end
  end.

(** [\s*\n] after the opening dashes, followed by the rest of the pattern, on
    the run of white space [w] and the text [rest] after it: the star first
    tries the last line feed of [w], then backtracks to earlier ones. *)
Fixpoint match_open (w rest : string) : option (string * string) :=
  match w with
  | EmptyString => None
  | String c w' =>
      match match_open w' rest with
      | Some r => Some r
      | None => if Ascii.eqb c newline then match_group (w' ++ rest) else None
      end
  end.

(** [m = FM_RE.match(md)] for [FM_RE = ^---\s*\n(.*?)\n---\s*\n] with DOTALL:
    [m.group(1)] and [md[m.end():]]. *)
Definition FM_RE_match (md : string) : option (string * string) :=
  if String.prefix "---" md then
    let '(w, rest) := span_space (drop 3 md) in match_open w rest
  else None.

Definition parse_frontmatter {yaml : Yaml} (md : string)
  : result (dict value * string) :=
  match FM_RE_match md with
  | None =>
      Raise (ValueError "missing YAML frontmatter (expected leading '--- ... ---')")
  | Some (fm_raw, body) =>
      loaded <- safe_load fm_raw;;
      match py_or loaded (VDict []) with
      | VDict fm => Ok (fm, body)
      | _ => Raise (ValueError "frontmatter must be a YAML mapping/object")
      end
  end.

Definition dump_yaml_str {yaml : Yaml} (obj : dict value) : string :=
  strip (safe_dump obj).

Definition render_task_markdown {yaml : Yaml} (frontmatter : dict value)
    (body : string) : string :=
  "---" ++ nl ++ dump_yaml_str frontmatter ++ nl ++ "---" ++ nl ++ nl
  ++ lstrip body.

(** The text of the file after [write_text p content]. *)
Definition write_text (content : string) : string := rstrip content ++ nl.

(** The text has no line feed followed by three dashes. *)
Fixpoint no_fence (s : string) : bool :=
  negb (String.prefix (nl ++ "---") s)
  && match s with
     | String _ s' => no_fence s'
     | EmptyString => true
     end.

(** A YAML library for the examples: it writes every mapping as the flow
    mapping of no entries, and reads that text back as the empty mapping. *)
Definition empty_yaml : Yaml := {|
  safe_load s := if s =? "{}" then Ok (VDict []) else Raise (YAMLError "unsupported");
  safe_dump _ := "{}" ++ nl
|}.

(** ** Search *)

(** [str.lower] on ASCII *)
Definition lower_char (c : ascii) : ascii :=
  let n := nat_of_ascii c in
  if (65 <=? n)%nat && (n <=? 90)%nat then ascii_of_nat (n + 32) else c.

Fixpoint lower (s : string) : string :=
  match s with
  | EmptyString => EmptyString
  | String c s' => String (lower_char c) (lower s')
  end.

(** [s.find(sub)], with [None] for -1 *)
Fixpoint find (sub s : string) : option nat :=
  if String.prefix sub s then Some 0
  else match s with
       | EmptyString => None
       | String _ s' =>
           match find sub s' with Some i => Some (S i) | None => None end
       end.

(** [sub in s] *)
Definition str_contains (sub s : string) : bool :=
  match find sub s with Some _ => true | None => false end.

(** [s[:n]] *)
Fixpoint take (n : nat) (s : string) : string :=
  match n, s with
  | S n', String c s' => String c (take n' s')
  | _, _ => EmptyString
  end.

(** [s[i:j]] for [0 <= i] and [0 <= j] *)
Definition slice (i j : nat) (s : string) : string := take (j - i) (drop i s).

(** The truth value of an [Optional[str]] *)
Definition some_text (o : option string) : bool :=
  match o with Some s => negb (s =? "") | None => false end.

Definition _extract_match_context (text query : string) (context_chars : nat)
  : option string :=
  if (text =? "") || (query =? "") then None
  else
    let text_lower := lower text in
    let query_lower := lower query in
    match find query_lower text_lower with
    | None => None
    | Some pos =>
        (* Calculate start and end positions with context *)
        let start := pos - context_chars in
        let end_ := Nat.min (String.length text)
                            (pos + String.length query + context_chars) in
        let snippet := slice start end_ text in
        (* Add ellipsis if truncated *)
        let snippet := if (0 <? start)%nat then "..." ++ snippet else snippet in
        let snippet := if (end_ <? String.length text)%nat
                       then snippet ++ "..." else snippet in
        Some snippet
    end.

(** [s.split("\n")] *)
Fixpoint split_lines (s : string) : list string :=
  match s with
  | EmptyString => [EmptyString]
  | String c s' =>
      if Ascii.eqb c newline then EmptyString :: split_lines s'
      else match split_lines s' with
           | l :: ls => String c l :: ls
           | [] => [String c EmptyString]
           end
  end.

(** The state of the loop of [parse_body_sections]. *)
Record section_state : Type := mkSections {
  sections : dict string;
  current_section : option string;
  current_content : list string
}.

(** [if current_section: sections[current_section] = "\n".join(...).strip()] *)
Definition close_section (s : section_state) : dict string :=
  match current_section s with
  | Some cur =>
      if cur =? "" then sections s
      else dict_set cur (strip (join nl (current_content s))) (sections s)
  | None => sections s
  end.

Definition section_line (s : section_state) (line : string) : section_state :=
  let line_lower := strip (lower line) in
  if startswith line_lower "## context"
  then mkSections (close_section s) (Some "context") []
  else if startswith line_lower "## plan"
  then mkSections (close_section s) (Some "plan") []
  else if startswith line_lower "## notes"
  then mkSections (close_section s) (Some "notes") []
  else if some_text (current_section s)
  then mkSections (sections s) (current_section s)
                  (current_content s ++ [line])%list
  else s.

Definition parse_body_sections (body : string) : dict string :=
  close_section
    (fold_left section_line (split_lines body)
       (mkSections [("context", ""); ("plan", ""); ("notes", "")] None [])).

(** [sections.get(k, "")] *)
Definition get_section (d : dict string) (k : string) : string :=
  match lookup k d with Some v => v | None => "" end.

(** [x in container] for a string [x] *)
Definition py_contains (x : string) (container : value) : result bool :=
  match container with
  | VList l => Ok (str_in_values x l)
  | VStr s => Ok (str_contains x s)
  | VDict d => Ok (contains x d)
  | _ => Raise (TypeError "argument is not iterable")
  end.

(** One entry of the list that [search_tasks] returns. *)
Record search_result : Type := mkResult {
  r_id : string;
  r_title : string;
  r_status : string;
  r_priority : value;
  r_owner : option string;
  r_labels : value;
  r_path : string;
  match_context : option string;
  match_field : option string
}.

Definition make_result (tid : string) (task : Task)
    (context field : option string) : search_result :=
  mkResult tid (title task) (status task)
           (get (frontmatter task) "priority" VNone)
           (owner task)
           (py_or (get (frontmatter task) "labels" VNone) (VList []))
           (".patchboard/tasks/" ++ path task ++ "/task.md")
           context field.

(** The truth value of an optional argument that is a string *)
Definition given (o : option string) : bool := some_text o.

Definition value_is (v : value) (s : string) : bool :=
  match v with VStr s' => s' =? s | _ => false end.

(** Apply filters first: [Ok true] when the task passes all of them. *)
Definition passes_filters (task : Task) (status_f priority_f owner_f label_f
                                          : option string) : result bool :=
  if given status_f && negb (option_str_eqb status_f (status task)) then Ok false
  else if given priority_f
          && negb (match priority_f with
                   | Some p => value_is (get (frontmatter task) "priority" VNone) p
                   | None => false
                   end)
  then Ok false
  else if given owner_f
          && negb (match owner_f, owner task with
                   | Some o, Some o' => o' =? o
                   | _, _ => false
                   end)
  then Ok false
  else match label_f with
       | Some l =>
           if l =? "" then Ok true
           else
             has <- py_contains l (py_or (get (frontmatter task) "labels" VNone)
                                         (VList []));;
             Ok has
       | None => Ok true
       end.

(** The loop over the acceptance criteria. *)
Fixpoint first_criterion (query_lower : string) (l : list value)
  : result (option string) :=
  match l with
  | [] => Ok None
  | VStr criterion :: rest =>
      if str_contains query_lower (lower criterion) then Ok (Some criterion)
      else first_criterion query_lower rest
  | _ :: _ => Raise (AttributeError "object has no attribute 'lower'")
  end.

(** Search in various fields: the match context and the match field. *)
Definition find_match (task : Task) (query query_lower : string)
  : result (option string * option string) :=
  let body_sections := parse_body_sections (body task) in
  let m := if str_contains query_lower (lower (title task))
           then (Some (title task), Some "title") else (None, None) in
  let in_section (name : string) (m : option string * option string) :=
    if negb (some_text (fst m)) then
      let ctx := _extract_match_context (get_section body_sections name) query 50 in
      if some_text ctx then (ctx, Some name) else m
    else m in
  let m := in_section "context" m in
  let m := in_section "plan" m in
  let m := in_section "notes" m in
  if negb (some_text (fst m)) then
    acceptance <- py_list (py_or (get (frontmatter task) "acceptance" VNone)
                                 (VList []));;
    found <- first_criterion query_lower acceptance;;
    match found with
    | Some criterion => Ok (Some criterion, Some "acceptance")
    | None => Ok m
    end
  else Ok m.

(** The loop of [search_tasks] over the tasks in id order; [results] is the
    list built so far. *)
Fixpoint search_loop (items : list (string * Task)) (query query_lower : string)
    (status_f priority_f owner_f label_f : option string) (limit : Z)
    (results : list search_result) : result (list search_result) :=
  match items with
  | [] => Ok results
  | (tid, task) :: rest =>
      pass <- passes_filters task status_f priority_f owner_f label_f;;
      if negb pass
      then search_loop rest query query_lower status_f priority_f owner_f
                       label_f limit results
      else if query_lower =? "" then
        let results := (results ++ [make_result tid task None None])%list in
        if (limit <=? Z.of_nat (List.length results))%Z then Ok results
        else search_loop rest query query_lower status_f priority_f owner_f
                         label_f limit results
      else
        m <- find_match task query query_lower;;
        if some_text (fst m) then
          let results := (results ++ [make_result tid task (fst m) (snd m)])%list in
          if (limit <=? Z.of_nat (List.length results))%Z then Ok results
          else search_loop rest query query_lower status_f priority_f owner_f
                           label_f limit results
        else search_loop rest query query_lower status_f priority_f owner_f
                         label_f limit results
  end.

Definition search_tasks (st : repo) (query : string)
    (status_f priority_f owner_f label_f : option string) (limit : Z)
  : result (list search_result) :=
  tasks <- discover_tasks st;;
  let query_lower := if query =? "" then "" else lower query in
  search_loop (sorted_items tasks) query query_lower
              status_f priority_f owner_f label_f limit [].

(** ** Conditions on search results *)

(** [l1] is [l2] with some elements left out. *)
Inductive subsequence {A : Type} : list A -> list A -> Prop :=
| sub_nil (l : list A) : subsequence [] l
| sub_skip (x : A) (l1 l2 : list A) :
    subsequence l1 l2 -> subsequence l1 (x :: l2)
| sub_keep (x : A) (l1 l2 : list A) :
    subsequence l1 l2 -> subsequence (x :: l1) (x :: l2).

(** A filter that is given (not [None], not the empty string) holds of [P]. *)
Definition meets (filter : option string) (P : string -> Prop) : Prop :=
  forall s, filter = Some s -> s <> "" -> P s.

(** The task has the status, priority, owner and label that were asked for. *)
Definition filtered (task : Task) (status_f priority_f owner_f label_f
                                     : option string) : Prop :=
  meets status_f (fun s => status task = s) /\
  meets priority_f
        (fun p => get (frontmatter task) "priority" VNone = VStr p) /\
  meets owner_f (fun o => owner task = Some o) /\
  meets label_f
        (fun l => py_contains l (py_or (get (frontmatter task) "labels" VNone)
                                       (VList [])) = Ok true).

(** The values of [match_field] for a query that is not empty. *)
Definition MATCH_FIELDS : list (option string) :=
  [Some "title"; Some "context"; Some "plan"; Some "notes"; Some "acceptance"].

(** A task of the sorted items with its match context and match field. *)
Definition hit : Type := (string * Task) * (option string * option string).

Definition result_of (h : hit) : search_result :=
  make_result (fst (fst h)) (snd (fst h)) (fst (snd h)) (snd (snd h)).

(** The section that a line of the body opens, if it is a heading. *)
Definition heading (line : string) : option string :=
  let line_lower := strip (lower line) in
  if startswith line_lower "## context" then Some "context"
  else if startswith line_lower "## plan" then Some "plan"
  else if startswith line_lower "## notes" then Some "notes"
  else None.

(** The sections before the first line is read. *)
Definition no_sections : dict string :=
  [("context", ""); ("plan", ""); ("notes", "")].

(** The sections have the three keys and hold stripped texts. *)
Definition sections_ok (d : dict string) : Prop :=
  keys d = keys no_sections /\
  forall k v, lookup k d = Some v -> strip v = v.

(** ** Unarchiving *)

(** A name of a directory entry: not empty, no slash, neither [.] nor [..].
    The directories of a [repo] are listed by such names, so [has_entry]
    answers [Path.exists] for the task ids that are file names. *)
Definition file_name (s : string) : bool :=
  negb (s =? "") && negb (s =? ".") && negb (s =? "..")
  && negb (str_contains "/" s).

(** The messages of [unarchive_task]; the comment gives the text. *)
Inductive unarchive_message : Type :=
| NotArchived (tid : string)
    (* task '<tid>' is not archived (it exists in active tasks) *)
| ArchivedNotFound (tid : string)   (* archived task '<tid>' not found *)
| ActiveExists (tid : string).      (* destination '<path>' already exists *)

(** How [unarchive_task] ends: it returns 0, returns 1 after a message, or
    lets an exception escape; in each case with the repository as it left
    it. *)
Inductive unarchive_outcome : Type :=
| Unarchived (st : repo)
| Refused (m : unarchive_message) (st : repo)
| Escaped (e : exn) (st : repo).

(** [(task_dir / task_id).exists()]; the archive is the entry [.archived] of
    the tasks directory. *)
Definition active_exists (st : repo) (task_id : string) : bool :=
  has_entry task_id (match tasks_base st with Some b => b | None => [] end)
  || ((task_id =? ".archived")
      && match archived_base st with Some _ => true | None => false end).

(** [shutil.move (tasks/.archived/<task_id>) (tasks/<task_id>)] *)
Definition move_from_archive (st : repo) (task_id : string) : repo :=
  let base := match tasks_base st with Some b => b | None => [] end in
  let arch := match archived_base st with Some a => a | None => [] end in
  mkRepo (Some (base ++ filter (fun e => name e =? task_id) arch)%list)
         (Some (filter (fun e => negb (name e =? task_id)) arch))
         (lock_files st) (board_file st) (board_schema st) (task_schema st).

Definition unarchive_task (st : repo) (task_id : string) : unarchive_outcome :=
  (* Check if task exists in archive *)
  if negb (archive_exists st task_id) then
    (* Check if task is already in active tasks *)
    match discover_tasks st with
    | Raise e => Escaped e st
    | Ok tasks =>
        if contains task_id tasks then Refused (NotArchived task_id) st
        else Refused (ArchivedNotFound task_id) st
    end
  else if active_exists st task_id then Refused (ActiveExists task_id) st
  else Unarchived (move_from_archive st task_id).

(** ** Index *)

(** The [lock] object of an index entry. *)
Record lock_info : Type := mkLockInfo {
  li_claimed_by : string;
  li_lease_expires_at : value;
  li_expired : bool
}.

(** One entry of [tasks] in [index.json]. *)
Record index_task : Type := mkIndexTask {
  i_id : string;
  i_title : string;
  i_type : value;
  i_status : string;
  i_priority : value;
  i_owner : option string;
  i_labels : value;
  i_depends_on : list value;
  i_acceptance : value;
  i_path : string;
  i_lock : option lock_info
}.

(** The lock of a task as the index shows it.  On the mapping of a lock file
    none of the three readings raises, [is_expired] catching what the expiry
    raises, so the handler of [generate_index] is not reached. *)
Definition index_lock {cal : Calendar} (now : Z) (st : repo) (tid : string)
  : option lock_info :=
  match load_lock st tid with
  | Some lock =>
      Some (mkLockInfo (claimed_by lock)
                       (get (data lock) "lease_expires_at" VNone)
                       (is_expired now lock))
  | None => None
  end.

Definition index_entry {cal : Calendar} (now : Z) (st : repo) (tid : string)
    (task : Task) : result index_task :=
  let lock_info := index_lock now st tid in
  deps <- depends_on task;;
  Ok (mkIndexTask tid (title task)
                  (get (frontmatter task) "type" VNone)
                  (status task)
                  (get (frontmatter task) "priority" VNone)
                  (owner task)
                  (py_or (get (frontmatter task) "labels" VNone) (VList []))
                  deps
                  (py_or (get (frontmatter task) "acceptance" VNone) (VList []))
                  (".patchboard/tasks/" ++ path task ++ "/task.md")
                  lock_info).

(** [generate_index] returns what it writes to [state/index.json]: the time
    stamp and the entries. *)
Definition generate_index {cal : Calendar} (now : Z) (st : repo)
  : result (string * list index_task) :=
  tasks <- discover_tasks st;;
  out_tasks <- for_each (sorted_items tasks)
                 (fun kv out_tasks =>
                    entry <- index_entry now st (fst kv) (snd kv);;
                    Ok (out_tasks ++ [entry])%list) [];;
  Ok (human_dt (Aware now), out_tasks).

(** ** Leases that the date arithmetic accepts *)

(** The duration is one that [timedelta] holds, and the lease ends at an
    instant that [datetime] holds. *)
Definition lease_fits (now lease_seconds : Z) : Prop :=
  (Z.abs (lease_seconds / 86400) <= 999999999)%Z /\
  (MIN_INSTANT <= now + lease_seconds <= MAX_INSTANT)%Z.

(** * Properties *)

(** ** Date arithmetic *)

Lemma lease_end_Ok (now lease_seconds expires : Z) :
  lease_end now lease_seconds = Ok expires <->
  lease_fits now lease_seconds /\ expires = (now + lease_seconds)%Z.
Proof.
  unfold lease_end, timedelta, datetime_add, lease_fits.
  destruct (Z.abs (lease_seconds / 86400) <=? 999999999)%Z eqn:E1;
    cbn [bind].
  - apply Z.leb_le in E1.
    destruct (MIN_INSTANT <=? now + lease_seconds)%Z eqn:E2;
      [destruct (now + lease_seconds <=? MAX_INSTANT)%Z eqn:E3|]; cbn [andb].
    + apply Z.leb_le in E2, E3. split; [intros [= <-]; auto|].
      intros [_ ->]. reflexivity.
    + apply Z.leb_gt in E3. split; [discriminate|]. intros [[_ [_ H]] _]. lia.
    + apply Z.leb_gt in E2. split; [discriminate|]. intros [[_ [H _]] _]. lia.
  - apply Z.leb_gt in E1. split; [discriminate|]. intros [[H _] _]. lia.
Qed.

Lemma lease_end_fits (now lease_seconds : Z) :
  lease_fits now lease_seconds ->
  lease_end now lease_seconds = Ok (now + lease_seconds)%Z.
Proof. intros H. apply lease_end_Ok. auto. Qed.

Lemma lease_end_overflow (now lease_seconds : Z) :
  ~ lease_fits now lease_seconds ->
  exists msg, lease_end now lease_seconds = Raise (OverflowError msg).
Proof.
  intros H. destruct (lease_end now lease_seconds) as [e|x] eqn:E.
  - apply lease_end_Ok in E as [Hf _]. contradiction.
  - unfold lease_end, timedelta, datetime_add in E.
    destruct (Z.abs (lease_seconds / 86400) <=? 999999999)%Z; cbn [bind] in E.
    + destruct ((MIN_INSTANT <=? now + lease_seconds)%Z
                && (now + lease_seconds <=? MAX_INSTANT)%Z);
        [discriminate|]. injection E as <-. eauto.
    + injection E as <-. eauto.
Qed.

(** ** Dictionaries *)

Lemma lookup_dict_set_eq {V : Type} (k : string) (v : V) (d : dict V) :
  lookup k (dict_set k v d) = Some v.
Proof.
  induction d as [|[k' v'] d IH]; simpl.
  - now rewrite String.eqb_refl.
  - destruct (k' =? k) eqn:E; simpl.
    + now rewrite String.eqb_refl.
    + now rewrite E.
Qed.

Lemma lookup_dict_set_ne {V : Type} (k k' : string) (v : V) (d : dict V) :
  k <> k' -> lookup k' (dict_set k v d) = lookup k' d.
Proof.
  intros Hne. induction d as [|[k0 v0] d IH]; simpl.
  - apply String.eqb_neq in Hne. now rewrite Hne.
  - destruct (k0 =? k) eqn:E; simpl.
    + apply String.eqb_eq in E. subst k0.
      apply String.eqb_neq in Hne. now rewrite Hne.
    + now rewrite IH.
Qed.

Lemma lookup_dict_set {V : Type} (k k' : string) (v : V) (d : dict V) :
  lookup k' (dict_set k v d) = if k =? k' then Some v else lookup k' d.
Proof.
  destruct (k =? k') eqn:E.
  - apply String.eqb_eq in E. subst. apply lookup_dict_set_eq.
  - apply String.eqb_neq in E. now apply lookup_dict_set_ne.
Qed.

Lemma lookup_None_not_In {V : Type} (k : string) (d : dict V) :
  lookup k d = None <-> ~ In k (keys d).
Proof.
  induction d as [|[k' v'] d IH]; simpl.
  - tauto.
  - destruct (k' =? k) eqn:E.
    + apply String.eqb_eq in E. split; [discriminate | tauto].
    + apply String.eqb_neq in E. rewrite IH. tauto.
Qed.

Lemma lookup_In {V : Type} (k : string) (v : V) (d : dict V) :
  lookup k d = Some v -> In (k, v) d.
Proof.
  induction d as [|[k' v'] d IH]; simpl; [discriminate|].
  destruct (k' =? k) eqn:E.
  - apply String.eqb_eq in E. intros [= ->]. subst. now left.
  - intros H. right. now apply IH.
Qed.

Lemma In_lookup {V : Type} (k : string) (v : V) (d : dict V) :
  NoDup (keys d) -> In (k, v) d -> lookup k d = Some v.
Proof.
  induction d as [|[k' v'] d IH]; simpl; [tauto|].
  intros Hnd [H|H].
  - injection H as -> ->. now rewrite String.eqb_refl.
  - inversion Hnd as [|? ? Hni Hnd']; subst.
    destruct (k' =? k) eqn:E.
    + apply String.eqb_eq in E. subst k'. exfalso. apply Hni.
      change k with (fst (k, v)). now apply in_map.
    + now apply IH.
Qed.

Lemma keys_dict_set {V : Type} (k : string) (v : V) (d : dict V) :
  keys (dict_set k v d) = if contains k d then keys d else (keys d ++ [k])%list.
Proof.
  unfold contains. induction d as [|[k' v'] d IH]; simpl; [reflexivity|].
  destruct (k' =? k) eqn:E; simpl.
  - apply String.eqb_eq in E. now subst.
  - rewrite IH. now destruct (lookup k d).
Qed.

Lemma NoDup_dict_set {V : Type} (k : string) (v : V) (d : dict V) :
  NoDup (keys d) -> NoDup (keys (dict_set k v d)).
Proof.
  intros Hnd. rewrite keys_dict_set. unfold contains.
  destruct (lookup k d) eqn:E; [assumption|].
  apply lookup_None_not_In in E.
  apply NoDup_app; [assumption | repeat constructor; simpl; tauto |].
  intros x Hx [<-|[]]. contradiction.
Qed.

Lemma lookup_dict_update {V : Type} (d other : dict V) (k : string) :
  NoDup (keys other) ->
  lookup k (dict_update d other) =
  match lookup k other with Some v => Some v | None => lookup k d end.
Proof.
  unfold dict_update. revert d.
  induction other as [|[k' v'] other IH]; intros d Hnd; simpl; [reflexivity|].
  inversion Hnd as [|? ? Hni Hnd']; subst.
  rewrite IH by assumption. simpl.
  destruct (k' =? k) eqn:E.
  - apply String.eqb_eq in E. subst k'.
    apply lookup_None_not_In in Hni. rewrite Hni. apply lookup_dict_set_eq.
  - apply String.eqb_neq in E.
    destruct (lookup k other); [reflexivity|]. now apply lookup_dict_set_ne.
Qed.

(** ** Sorting *)

Lemma In_insert_by {A : Type} (key : A -> string) (x y : A) (l : list A) :
  In y (insert_by key x l) <-> y = x \/ In y l.
Proof.
  induction l as [|z l IH]; simpl.
  - intuition congruence.
  - destruct (String.leb (key x) (key z)); simpl; [intuition congruence|].
    rewrite IH. tauto.
Qed.

Lemma In_sort_by {A : Type} (key : A -> string) (y : A) (l : list A) :
  In y (sort_by key l) <-> In y l.
Proof.
  induction l as [|x l IH]; simpl; [tauto|].
  rewrite In_insert_by, IH. intuition congruence.
Qed.

Lemma insert_by_map {A : Type} (key : A -> string) (f : A -> A) (x : A)
    (l : list A) :
  (forall a, key (f a) = key a) ->
  insert_by key (f x) (map f l) = map f (insert_by key x l).
Proof.
  intros Hf. induction l as [|y l IH]; simpl; [reflexivity|].
  rewrite !Hf. destruct (String.leb (key x) (key y)); simpl; [reflexivity|].
  now rewrite IH.
Qed.

Lemma sort_by_map {A : Type} (key : A -> string) (f : A -> A) (l : list A) :
  (forall a, key (f a) = key a) ->
  sort_by key (map f l) = map f (sort_by key l).
Proof.
  intros Hf. induction l as [|x l IH]; simpl; [reflexivity|].
  rewrite IH. now apply insert_by_map.
Qed.

Lemma In_sorted_items {V : Type} (d : dict V) (k : string) (v : V) :
  lookup k d = Some v -> In (k, v) (sorted_items d).
Proof.
  intros H. apply In_sort_by. now apply lookup_In.
Qed.

Lemma sorted_items_lookup {V : Type} (d : dict V) (k : string) (v : V) :
  NoDup (keys d) -> In (k, v) (sorted_items d) -> lookup k d = Some v.
Proof.
  intros Hnd H. apply In_sort_by in H. now apply In_lookup.
Qed.

(** ** Loops *)

Lemma for_each_app {A S : Type} (l1 l2 : list A) (body : A -> S -> result S)
    (s : S) :
  for_each (l1 ++ l2) body s = (s' <- for_each l1 body s;; for_each l2 body s').
Proof.
  revert s. induction l1 as [|x l1 IH]; intros s; simpl; [reflexivity|].
  destruct (body x s); simpl; [apply IH | reflexivity].
Qed.

Lemma for_each_rel {A S : Type} (R : S -> S -> Prop) (l : list A)
    (body : A -> S -> result S) :
  (forall s, R s s) ->
  (forall s1 s2 s3, R s1 s2 -> R s2 s3 -> R s1 s3) ->
  (forall x s s', In x l -> body x s = Ok s' -> R s s') ->
  forall s s', for_each l body s = Ok s' -> R s s'.
Proof.
  intros Hrefl Htrans. induction l as [|x l IH]; intros Hbody s s' H; simpl in H.
  - injection H as <-. apply Hrefl.
  - destruct (body x s) as [s1|e] eqn:E; simpl in H; [|discriminate].
    apply Htrans with s1.
    + apply Hbody with x; [now left | assumption].
    + apply IH; [|assumption]. intros y t t' Hy. apply Hbody. now right.
Qed.

Lemma for_each_total {A S : Type} (l : list A) (body : A -> S -> result S) :
  (forall x s, In x l -> exists s', body x s = Ok s') ->
  forall s, exists s', for_each l body s = Ok s'.
Proof.
  induction l as [|x l IH]; intros Hbody s; simpl.
  - now exists s.
  - destruct (Hbody x s (or_introl eq_refl)) as [s1 ->]. simpl.
    apply IH. intros y t Hy. apply Hbody. now right.
Qed.

(** ** Discovery *)

Lemma discover_entry_NoDup (reserved : bool) (e : entry) (tasks tasks' : dict Task) :
  discover_entry reserved e tasks = Ok tasks' ->
  NoDup (keys tasks) -> NoDup (keys tasks').
Proof.
  unfold discover_entry.
  destruct (negb (is_dir e)); [now intros [= <-]|].
  destruct (reserved && _); [now intros [= <-]|].
  destruct (task_md e) as [[[fm b]|err]|]; simpl; try discriminate.
  - intros [= <-]. apply NoDup_dict_set.
  - now intros [= <-].
Qed.

Lemma scan_NoDup (reserved : bool) (l : list entry) (acc tasks : dict Task) :
  for_each l (discover_entry reserved) acc = Ok tasks ->
  NoDup (keys acc) -> NoDup (keys tasks).
Proof.
  intros H. revert H.
  apply (for_each_rel (fun a b => NoDup (keys a) -> NoDup (keys b)));
    [tauto | tauto |].
  intros e s s' _. apply discover_entry_NoDup.
Qed.

Lemma discover_tasks_NoDup (st : repo) (tasks : dict Task) :
  discover_tasks st = Ok tasks -> NoDup (keys tasks).
Proof.
  unfold discover_tasks. destruct (tasks_base st).
  - intros H. apply scan_NoDup in H; [assumption | constructor].
  - intros [= <-]. constructor.
Qed.

Lemma discover_archived_tasks_NoDup (st : repo) (tasks : dict Task) :
  discover_archived_tasks st = Ok tasks -> NoDup (keys tasks).
Proof.
  unfold discover_archived_tasks. destruct (archived_base st).
  - intros H. apply scan_NoDup in H; [assumption | constructor].
  - intros [= <-]. constructor.
Qed.

Lemma discover_all_tasks_lookup (st : repo) (tasks archived all_tasks : dict Task)
    (tid : string) :
  discover_tasks st = Ok tasks ->
  discover_archived_tasks st = Ok archived ->
  discover_all_tasks st = Ok all_tasks ->
  lookup tid all_tasks =
  match lookup tid archived with
  | Some t => Some t
  | None => lookup tid tasks
  end.
Proof.
  intros Ht Ha. unfold discover_all_tasks. rewrite Ht, Ha. simpl.
  intros [= <-]. apply lookup_dict_update.
  now apply discover_archived_tasks_NoDup with st.
Qed.

(** ** Merged discovery *)

(** In [collision_repo] the id T-2 is both active and archived, and the
    merged mapping holds the archived record, not the active one. *)
Lemma discover_all_tasks_active_entry_lost :
  exists tasks archived all_tasks active_t archived_t,
    discover_tasks collision_repo = Ok tasks /\
    discover_archived_tasks collision_repo = Ok archived /\
    discover_all_tasks collision_repo = Ok all_tasks /\
    lookup "T-2" tasks = Some active_t /\
    lookup "T-2" archived = Some archived_t /\
    lookup "T-2" all_tasks <> Some active_t /\
    lookup "T-2" all_tasks = Some archived_t.
Proof.
  do 5 eexists.
  repeat split; try (vm_compute; reflexivity).
  vm_compute. discriminate.
Qed.

(** C5 (the code departs from it): in the merged discovery the archived
    entry is the one kept for every id of the archived set, also when an
    active task has the same id; an active entry is returned only for the ids
    that no archived task has.  The comments of [validate] exempt only the
    dependencies that are not among the active tasks, and [claim] reads the
    active record, so this is a slip of [discover_all_tasks]. *)
Theorem discover_all_tasks_archived_wins (st : repo)
    (tasks archived all_tasks : dict Task) (tid : string) :
  discover_tasks st = Ok tasks ->
  discover_archived_tasks st = Ok archived ->
  discover_all_tasks st = Ok all_tasks ->
  (forall t, lookup tid archived = Some t -> lookup tid all_tasks = Some t) /\
  (lookup tid archived = None -> lookup tid all_tasks = lookup tid tasks).
Proof.
  intros Ht Ha Hall.
  rewrite (discover_all_tasks_lookup st tasks archived all_tasks tid Ht Ha Hall).
  split.
  - now intros t ->.
  - now intros ->.
Qed.

Lemma discover_all_tasks_archived_wins_witness :
  exists tasks archived all_tasks,
    discover_tasks collision_repo = Ok tasks /\
    discover_archived_tasks collision_repo = Ok archived /\
    discover_all_tasks collision_repo = Ok all_tasks /\
    (forall t, lookup "T-2" archived = Some t -> lookup "T-2" all_tasks = Some t) /\
    (lookup "T-2" archived = None -> lookup "T-2" all_tasks = lookup "T-2" tasks).
Proof.
  do 3 eexists.
  split; [|split; [|split]]; [vm_compute; reflexivity ..|].
  apply (discover_all_tasks_archived_wins collision_repo); vm_compute; reflexivity.
Defined.

(** ** Exceptions that escape [validate] *)

(** C7 (the code departs from it): [validate] lets exceptions escape.  A
    [task.md] without a frontmatter block makes [discover_tasks] raise, and a
    task schema that cannot be loaded makes [load_schema] raise, so no report
    is returned; the same failure of the board schema is caught and reported
    as a diagnostic. *)
Theorem validate_raises :
  validate malformed_repo =
    Raise (ValueError "missing YAML frontmatter (expected leading '--- ... ---')") /\
  validate schemaless_repo =
    Raise (OSError "No such file or directory: task.schema.json") /\
  check_board schemaless_repo (mkReport [] []) =
    mkReport
      [InvalidBoard (OSError "No such file or directory: board.schema.json")] [].
Proof.
  repeat split; vm_compute; reflexivity.
Qed.

(** ** Release with a status outside the allowed set *)

(** C6 (the code departs from it): [release] checks the new status only after
    it has deleted the lock file.  With the lock of T-1 held by bob, releasing
    with the status "bogus" ends in the invalid-status error, and the lock is
    gone from the repository it leaves.  When the locked id is not an active
    task the status is not checked at all, and the release succeeds. *)
Theorem release_bad_status_deletes_lock (cal : Calendar) (now : Z) :
  load_lock locked_repo "T-1" <> None /\
  release now locked_repo "T-1" "bob" false (Some "bogus") =
    Failed (BadStatus "bogus") (delete_lock locked_repo "T-1") /\
  load_lock (delete_lock locked_repo "T-1") "T-1" = None /\
  release now orphan_lock_repo "T-9" "bob" false (Some "bogus") =
    Done (delete_lock orphan_lock_repo "T-9").
Proof.
  split; [|split; [|split]].
  - vm_compute. discriminate.
  - reflexivity.
  - reflexivity.
  - reflexivity.
Qed.

(** ** Lease manager *)

Lemma py_get_hashable {V : Type} (d : dict V) (v : value) :
  hashable v = true ->
  py_get d v = Ok (match v with VStr s => lookup s d | _ => None end).
Proof. destruct v; simpl; intros; try reflexivity; discriminate. Qed.

Lemma py_in_hashable {V : Type} (d : dict V) (v : value) :
  hashable v = true ->
  py_in v d = Ok (match v with VStr s => contains s d | _ => false end).
Proof. destruct v; simpl; intros; try reflexivity; discriminate. Qed.

Lemma first_unmet_Some (tasks : dict Task) (deps : list value) (dep : value)
    (st : string) :
  first_unmet tasks deps = Ok (Some (dep, st)) ->
  In dep deps /\ active_not_done tasks dep st.
Proof.
  induction deps as [|d deps IH]; simpl; [discriminate|].
  destruct (py_get tasks d) as [[t|]|e] eqn:E; simpl; try discriminate.
  - destruct (status t =? "done") eqn:Est; simpl.
    + intros H. destruct (IH H). tauto.
    + intros [= <- <-]. split; [now left|].
      destruct d; simpl in E; try discriminate.
      exists s, t. injection E as E. apply String.eqb_neq in Est. auto.
  - intros H. destruct (IH H). tauto.
Qed.

Lemma first_unmet_None (tasks : dict Task) (deps : list value) :
  forallb hashable deps = true ->
  (forall dep st, In dep deps -> ~ active_not_done tasks dep st) ->
  first_unmet tasks deps = Ok None.
Proof.
  induction deps as [|d deps IH]; simpl; [reflexivity|].
  intros Hh Hno. apply andb_prop in Hh as [Hd Hh].
  rewrite py_get_hashable by assumption. simpl.
  assert (IH' : first_unmet tasks deps = Ok None).
  { apply IH; [assumption|]. intros dep st Hin. apply Hno. now right. }
  destruct d; simpl; try assumption.
  destruct (lookup s tasks) as [t|] eqn:El; [|assumption].
  destruct (status t =? "done") eqn:Est; simpl; [assumption|].
  exfalso. apply (Hno (VStr s) (status t)); [now left|].
  exists s, t. apply String.eqb_neq in Est. auto.
Qed.

Lemma first_unmet_found (tasks : dict Task) (deps : list value) :
  forallb hashable deps = true ->
  (exists dep st, In dep deps /\ active_not_done tasks dep st) ->
  exists dep st, first_unmet tasks deps = Ok (Some (dep, st)).
Proof.
  induction deps as [|d deps IH]; simpl.
  - intros _ (dep & st & [] & _).
  - intros Hh Hex. apply andb_prop in Hh as [Hd Hh].
    rewrite py_get_hashable by assumption. simpl.
    destruct d; simpl;
      try (apply IH; [assumption|];
           destruct Hex as (dep & st & [<-|Hin] & Hand);
           [destruct Hand as (k & t & Heq & _); discriminate
           | now exists dep, st]).
    destruct (lookup s tasks) as [t|] eqn:El.
    + destruct (status t =? "done") eqn:Est; simpl; [|eauto].
      apply IH; [assumption|].
      destruct Hex as (dep & st & [<-|Hin] & Hand); [|now exists dep, st].
      destruct Hand as (k & t' & [= <-] & Hl & Hst & Hne).
      rewrite El in Hl. injection Hl as <-.
      apply String.eqb_eq in Est. congruence.
    + apply IH; [assumption|].
      destruct Hex as (dep & st & [<-|Hin] & Hand); [|now exists dep, st].
      destruct Hand as (k & t' & [= <-] & Hl & _). congruence.
Qed.

Section Claim.
Context {cal : Calendar}.
Variables (now : Z) (branch : option string) (st : repo).
Variables (task_id actor : string) (lease_seconds : Z).
Variable allow_steal_expired : bool.

Let claimed : outcome :=
  claim now branch st task_id actor lease_seconds allow_steal_expired.

Lemma claim_unknown (tasks : dict Task) :
  discover_tasks st = Ok tasks ->
  lookup task_id tasks = None ->
  claimed = Failed (UnknownTask task_id) st.
Proof.
  intros Hd Hl. unfold claimed, claim. rewrite Hd. simpl. now rewrite Hl.
Qed.

Lemma claim_done (tasks : dict Task) (task : Task) :
  discover_tasks st = Ok tasks ->
  lookup task_id tasks = Some task ->
  status task = "done" ->
  claimed = Failed (TaskDone task_id) st.
Proof.
  intros Hd Hl Hs. unfold claimed, claim. rewrite Hd. simpl.
  now rewrite Hl, Hs.
Qed.

Lemma claim_dependency (tasks : dict Task) (task : Task) (deps : list value) :
  discover_tasks st = Ok tasks ->
  lookup task_id tasks = Some task ->
  status task <> "done" ->
  depends_on task = Ok deps ->
  forallb hashable deps = true ->
  (exists dep dst, In dep deps /\ active_not_done tasks dep dst) ->
  exists dep dst,
    In dep deps /\ active_not_done tasks dep dst /\
    claimed = Failed (DependencyUnmet task_id dep dst) st.
Proof.
  intros Hd Hl Hs Hdeps Hh Hex.
  destruct (first_unmet_found tasks deps Hh Hex) as (dep & dst & Hf).
  exists dep, dst. destruct (first_unmet_Some _ _ _ _ Hf) as [Hin Hand].
  split; [assumption|]. split; [assumption|].
  unfold claimed, claim. rewrite Hd. simpl. rewrite Hl.
  apply String.eqb_neq in Hs. rewrite Hs, Hdeps. simpl. now rewrite Hf.
Qed.

Lemma claim_reaches_lock (tasks : dict Task) (task : Task) (deps : list value) :
  discover_tasks st = Ok tasks ->
  lookup task_id tasks = Some task ->
  status task <> "done" ->
  depends_on task = Ok deps ->
  forallb hashable deps = true ->
  (forall dep dst, In dep deps -> ~ active_not_done tasks dep dst) ->
  claimed =
  match load_lock st task_id with
  | Some existing =>
      if is_lock_unexpired now existing then
        if claimed_by existing =? actor then Failed (LockedByYou task_id) st
        else
          try st (lease_expires_at existing) (fun dt =>
          Failed (LockedByOther task_id (claimed_by existing) (human_dt dt)) st)
      else if negb allow_steal_expired then Failed (StealDisabled task_id) st
      else
        try st (lease_end now lease_seconds) (fun expires =>
        Done (take_lease now expires branch st task task_id actor lease_seconds))
  | None =>
      try st (lease_end now lease_seconds) (fun expires =>
      Done (take_lease now expires branch st task task_id actor lease_seconds))
  end.
Proof.
  intros Hd Hl Hs Hdeps Hh Hno.
  unfold claimed, claim. rewrite Hd. simpl. rewrite Hl.
  apply String.eqb_neq in Hs. rewrite Hs, Hdeps. simpl.
  now rewrite (first_unmet_None tasks deps Hh Hno).
Qed.

Lemma held_is_unexpired (l : Lock) (t : Z) :
  held_until now l t -> is_lock_unexpired now l = true.
Proof.
  intros [He Hlt]. unfold is_lock_unexpired, is_expired. rewrite He.
  apply negb_true_iff. apply Z.leb_gt. assumption.
Qed.

Lemma expired_is_expired (l : Lock) (t : Z) :
  expired_at now l t -> is_expired now l = true.
Proof.
  intros [He Hle]. unfold is_expired. rewrite He. now apply Z.leb_le.
Qed.

Lemma claim_never_over_live_lock (l : Lock) :
  load_lock st task_id = Some l ->
  is_lock_unexpired now l = true ->
  forall st', claimed <> Done st'.
Proof.
  intros Hlock Hun st'. unfold claimed, claim.
  destruct (discover_tasks st) as [tasks|e]; simpl; [|discriminate].
  destruct (lookup task_id tasks) as [task|]; [|discriminate].
  destruct (status task =? "done"); [discriminate|].
  destruct (depends_on task) as [deps|e]; simpl; [|discriminate].
  destruct (first_unmet tasks deps) as [[[dep dst]|]|e]; simpl; try discriminate.
  rewrite Hlock, Hun.
  destruct (claimed_by l =? actor); [discriminate|].
  destruct (lease_expires_at l); simpl; discriminate.
Qed.
End Claim.

(** C2: [claim] refuses in a fixed order: an id that is not an active task;
    a task that is done; an active dependency that is not done; a lock that
    has not expired, naming its holder and expiry when another actor holds it
    and pointing to renew when the claimer holds it.  Each refusal leaves the
    repository as it was, and no claim succeeds over an unexpired lock. *)
Theorem claim_refusals (cal : Calendar) (now : Z) (branch : option string)
    (st : repo) (task_id actor : string) (lease_seconds : Z)
    (allow_steal_expired : bool) (tasks : dict Task) :
  discover_tasks st = Ok tasks ->
  let claimed :=
    claim now branch st task_id actor lease_seconds allow_steal_expired in
  (lookup task_id tasks = None -> claimed = Failed (UnknownTask task_id) st) /\
  (forall task, lookup task_id tasks = Some task ->
     (status task = "done" -> claimed = Failed (TaskDone task_id) st) /\
     (status task <> "done" ->
      forall deps, depends_on task = Ok deps -> forallb hashable deps = true ->
        ((exists dep dst, In dep deps /\ active_not_done tasks dep dst) ->
         exists dep dst,
           In dep deps /\ active_not_done tasks dep dst /\
           claimed = Failed (DependencyUnmet task_id dep dst) st) /\
        ((forall dep dst, In dep deps -> ~ active_not_done tasks dep dst) ->
         forall l t, load_lock st task_id = Some l -> held_until now l t ->
           (claimed_by l = actor -> claimed = Failed (LockedByYou task_id) st) /\
           (claimed_by l <> actor ->
            claimed = Failed (LockedByOther task_id (claimed_by l)
                                            (human_dt (Aware t))) st)))) /\
  (forall l t, load_lock st task_id = Some l -> held_until now l t ->
     forall st', claimed <> Done st').
Proof.
  intros Hd claimed. split; [|split].
  - intros Hl. eapply claim_unknown; eassumption.
  - intros task Hl. split; [intros Hs; eapply claim_done; eassumption|].
    intros Hs deps Hdeps Hh. split.
    + intros Hex. eapply claim_dependency; eassumption.
    + intros Hno l t Hlock Hheld.
      pose proof (claim_reaches_lock now branch st task_id actor lease_seconds
                    allow_steal_expired tasks task deps Hd Hl Hs Hdeps Hh Hno) as Hc.
      rewrite Hlock, (held_is_unexpired now l t Hheld) in Hc.
      fold claimed in Hc. destruct Hheld as [He _]. split; intros Hby.
      * apply String.eqb_eq in Hby. now rewrite Hby in Hc.
      * apply String.eqb_neq in Hby. now rewrite Hby, He in Hc.
  - intros l t Hlock Hheld.
    eapply claim_never_over_live_lock; [eassumption|].
    eapply held_is_unexpired; eassumption.
Qed.

Lemma claim_refusals_witness :
  claim (cal := decimal_calendar) 100 None locked_repo "T-1" "alice" 3600 true
  = Failed (LockedByOther "T-1" "bob" "3600") locked_repo.
Proof.
  destruct (claim_refusals decimal_calendar 100 None locked_repo "T-1" "alice"
              3600 true _ eq_refl) as (_ & H & _).
  destruct (H _ eq_refl) as [_ H1].
  assert (Hs : status (mkTask "T-1" "T-1" (example_fm "T-1" "in_progress" [])
                         ("## Context" ++ nl)) <> "done")
    by (vm_compute; discriminate).
  destruct (H1 Hs [] eq_refl eq_refl) as [_ H2].
  assert (Hno : forall (dep : value) (dst : string), In dep [] ->
                ~ active_not_done
                    [("T-1", mkTask "T-1" "T-1" (example_fm "T-1" "in_progress" [])
                                    ("## Context" ++ nl))] dep dst)
    by (intros dep dst []).
  assert (Hheld : held_until (cal := decimal_calendar) 100
                    (mkLock "T-1" (example_lock "T-1" "bob" "3600")) 3600)
    by (split; [reflexivity | lia]).
  destruct (H2 Hno _ 3600%Z eq_refl Hheld) as [_ H3].
  apply H3. vm_compute. discriminate.
Defined.

(** ** Expired leases *)

Lemma lookup_write_lock (st : repo) (task_id : string) (d : dict value) :
  lookup task_id (lock_files (write_lock st task_id d)) = Some d.
Proof. simpl. apply lookup_dict_set_eq. Qed.

Lemma lock_files_take_lease (cal : Calendar) (now : Z) (branch : option string)
    (st : repo) (task : Task) (task_id actor : string) (lease_seconds : Z) :
  exists d,
    lookup task_id
      (lock_files (take_lease now (now + lease_seconds) branch st task task_id
                              actor lease_seconds))
    = Some d /\
    lookup "claimed_by" d = Some (VStr actor) /\
    lookup "lease_expires_at" d
    = Some (VStr (human_dt (Aware (now + lease_seconds)))) /\
    lookup "lease_seconds" d = Some (VInt lease_seconds).
Proof.
  eexists. split; [|split; [|split]].
  - unfold take_lease. simpl. apply lookup_dict_set_eq.
  - reflexivity.
  - reflexivity.
  - reflexivity.
Qed.

(** C3, as stated, fails: an expired lock alone does not make a claim go
    through.  The task of [done_locked_repo] is done and its lock expired at
    3600; at 3601 the claim is refused because the task is done, with
    stealing allowed and with stealing disallowed alike. *)
Lemma claim_expired_lease_of_done_task :
  exists l,
    load_lock done_locked_repo "T-1" = Some l /\
    expired_at (cal := decimal_calendar) 3601 l 3600 /\
    claim (cal := decimal_calendar) 3601 None done_locked_repo
          "T-1" "alice" 3600 true
    = Failed (TaskDone "T-1") done_locked_repo /\
    claim (cal := decimal_calendar) 3601 None done_locked_repo
          "T-1" "alice" 3600 false
    = Failed (TaskDone "T-1") done_locked_repo.
Proof.
  eexists. split; [reflexivity|].
  split; [split; [reflexivity | lia]|].
  split; reflexivity.
Qed.

(** C3 (amended): when the lock of a task has its expiry at or before the
    current time, [renew] by any actor fails and leaves the repository, and so
    the lock, unchanged.  If moreover the task is active, is not done, and its
    [depends_on] is a list of hashable values none of which names an active
    task that is not done, then [claim] with stealing disallowed fails with
    the stealing-disabled error and leaves the repository unchanged, and
    [claim] with stealing allowed succeeds and leaves a lock whose
    [claimed_by] is the claiming actor, provided the lease fits the date
    arithmetic; for a lease that does not fit, the [OverflowError] escapes and
    nothing is written. *)
Theorem expired_lease_renew_and_claim (cal : Calendar) (now : Z) (st : repo)
    (task_id : string) (l : Lock) (t : Z) :
  load_lock st task_id = Some l ->
  expired_at now l t ->
  (forall actor lease_seconds,
     renew now st task_id actor lease_seconds =
     Failed (if claimed_by l =? actor then LockExpired task_id
             else NotOwner task_id (claimed_by l) actor) st) /\
  (forall branch actor lease_seconds tasks task deps,
     discover_tasks st = Ok tasks ->
     lookup task_id tasks = Some task ->
     status task <> "done" ->
     depends_on task = Ok deps ->
     forallb hashable deps = true ->
     (forall dep dst, In dep deps -> ~ active_not_done tasks dep dst) ->
     (lease_fits now lease_seconds ->
      exists st' d,
        claim now branch st task_id actor lease_seconds true = Done st' /\
        lookup task_id (lock_files st') = Some d /\
        lookup "claimed_by" d = Some (VStr actor)) /\
     (~ lease_fits now lease_seconds ->
      exists msg,
        claim now branch st task_id actor lease_seconds true
        = Raised (OverflowError msg) st) /\
     claim now branch st task_id actor lease_seconds false
     = Failed (StealDisabled task_id) st).
Proof.
  intros Hlock Hexp. pose proof (expired_is_expired now l t Hexp) as He.
  split.
  - intros actor ls. unfold renew. rewrite Hlock.
    destruct (claimed_by l =? actor); simpl; [now rewrite He | reflexivity].
  - intros branch actor ls tasks task deps Hd Hl Hs Hdeps Hh Hno.
    split; [|split].
    + intros Hfit.
      rewrite (claim_reaches_lock now branch st task_id actor ls true
                 tasks task deps Hd Hl Hs Hdeps Hh Hno).
      rewrite Hlock. unfold is_lock_unexpired. rewrite He. cbn [negb].
      rewrite (lease_end_fits now ls Hfit). cbn [try].
      destruct (lock_files_take_lease cal now branch st task task_id actor ls)
        as (d & H1 & H2 & _).
      eauto.
    + intros Hfit.
      rewrite (claim_reaches_lock now branch st task_id actor ls true
                 tasks task deps Hd Hl Hs Hdeps Hh Hno).
      rewrite Hlock. unfold is_lock_unexpired. rewrite He. cbn [negb].
      destruct (lease_end_overflow now ls Hfit) as [msg ->]. cbn [try].
      now exists msg.
    + rewrite (claim_reaches_lock now branch st task_id actor ls false
                 tasks task deps Hd Hl Hs Hdeps Hh Hno).
      rewrite Hlock. unfold is_lock_unexpired. now rewrite He.
Qed.

Lemma expired_lease_renew_and_claim_witness :
  renew (cal := decimal_calendar) 3601 locked_repo "T-1" "bob" 60
  = Failed (LockExpired "T-1") locked_repo /\
  (exists st' d,
     claim (cal := decimal_calendar) 3601 None locked_repo "T-1" "alice" 60 true
     = Done st' /\
     lookup "T-1" (lock_files st') = Some d /\
     lookup "claimed_by" d = Some (VStr "alice")) /\
  claim (cal := decimal_calendar) 3601 None locked_repo "T-1" "alice" 60 false
  = Failed (StealDisabled "T-1") locked_repo.
Proof.
  assert (Hexp : expired_at (cal := decimal_calendar) 3601
                   (mkLock "T-1" (example_lock "T-1" "bob" "3600")) 3600)
    by (split; [reflexivity | lia]).
  destruct (expired_lease_renew_and_claim decimal_calendar 3601 locked_repo "T-1"
              _ 3600%Z eq_refl Hexp) as [Hrenew Hclaim].
  assert (Hs : status (mkTask "T-1" "T-1" (example_fm "T-1" "in_progress" [])
                         ("## Context" ++ nl)) <> "done")
    by (vm_compute; discriminate).
  destruct (Hclaim None "alice" 60%Z _ _ [] eq_refl eq_refl Hs eq_refl eq_refl)
    as (Hsteal & _ & Hrefuse); [intros dep dst []|].
  split; [apply (Hrenew "bob" 60%Z)|]. split; [|exact Hrefuse].
  apply Hsteal. unfold lease_fits, MIN_INSTANT, MAX_INSTANT. cbn. lia.
Defined.

(** ** Reading a task back after it was written *)

(** The entry of the tasks directory from which a discovered task was read. *)
Definition read_from (t : Task) (e : entry) : Prop :=
  name e = path t /\ is_dir e = true /\
  task_md e = Some (Ok (frontmatter t, body t)) /\
  id t = entry_id (frontmatter t) (name e).

Lemma discover_entry_read_from (reserved : bool) (e : entry)
    (acc tasks : dict Task) (P : string -> Task -> Prop) :
  discover_entry reserved e acc = Ok tasks ->
  (forall k t, lookup k acc = Some t -> P k t) ->
  (forall t, read_from t e -> P (id t) t) ->
  forall k t, lookup k tasks = Some t -> P k t.
Proof.
  unfold discover_entry. intros H Hacc He.
  destruct (is_dir e) eqn:Edir; simpl in H; [|injection H as <-; exact Hacc].
  destruct (reserved && _); [injection H as <-; exact Hacc|].
  destruct (task_md e) as [[[fm b]|err]|] eqn:Emd; simpl in H;
    [|discriminate|injection H as <-; exact Hacc].
  injection H as <-. intros k t. rewrite lookup_dict_set.
  destruct (entry_id fm (name e) =? k) eqn:Ek; [|apply Hacc].
  apply String.eqb_eq in Ek. intros [= <-]. subst k.
  apply (He (mkTask (entry_id fm (name e)) (name e) fm b)).
  repeat split; assumption.
Qed.

Lemma scan_read_from (reserved : bool) (l : list entry) (acc tasks : dict Task)
    (P : string -> Task -> Prop) :
  for_each l (discover_entry reserved) acc = Ok tasks ->
  (forall k t, lookup k acc = Some t -> P k t) ->
  (forall e t, In e l -> read_from t e -> P (id t) t) ->
  forall k t, lookup k tasks = Some t -> P k t.
Proof.
  revert acc. induction l as [|e l IH]; intros acc H Hacc Hl; simpl in H.
  - injection H as <-. exact Hacc.
  - destruct (discover_entry reserved e acc) as [acc1|err] eqn:E; simpl in H;
      [|discriminate].
    apply (IH acc1 H).
    + apply (discover_entry_read_from reserved e acc acc1 P E Hacc).
      intros t. apply Hl. now left.
    + intros e' t Hin. apply Hl. now right.
Qed.

Lemma discovered_read_from (st : repo) (tasks : dict Task) (tid : string)
    (t : Task) :
  discover_tasks st = Ok tasks ->
  lookup tid tasks = Some t ->
  id t = tid /\
  exists base e, tasks_base st = Some base /\ In e base /\ read_from t e.
Proof.
  unfold discover_tasks. destruct (tasks_base st) as [base|] eqn:Eb.
  - intros H. revert tid t.
    apply (scan_read_from true (sort_by name base) [] tasks
             (fun k t => id t = k /\
                exists base0 e, Some base = Some base0 /\ In e base0 /\ read_from t e) H).
    + intros k t. discriminate.
    + intros e t Hin Hr. split; [reflexivity|].
      exists base, e. apply In_sort_by in Hin. auto.
  - intros [= <-]. discriminate.
Qed.

Lemma has_entry_In (f : string) (base : list entry) :
  has_entry f base = true <-> exists e, In e base /\ name e = f.
Proof.
  induction base as [|e base IH]; simpl.
  - split; [discriminate | intros (e & [] & _)].
  - rewrite orb_true_iff, IH, String.eqb_eq. split.
    + intros [H|(e' & Hin & Hn)]; [exists e; auto | exists e'; auto].
    + intros (e' & [<-|Hin] & Hn); [now left | right; now exists e'].
Qed.

Section Rewrite.
Variables (reserved : bool) (tid f : string) (fm' : dict value) (b' : string).
Hypothesis same_id : entry_id fm' f = tid.

Let file : option (result (dict value * string)) := Some (Ok (fm', b')).
Let rewritten (e : entry) : entry :=
  if name e =? f then mkEntry (name e) (is_dir e) file else e.
Let kept (acc acc' : dict Task) : Prop :=
  forall t, lookup tid acc = Some t -> path t = f ->
            lookup tid acc' = Some (mkTask tid f fm' b').

Lemma discover_entry_rewritten (e : entry) (acc acc' tasks : dict Task) :
  discover_entry reserved e acc = Ok tasks ->
  kept acc acc' ->
  exists tasks',
    discover_entry reserved (rewritten e) acc' = Ok tasks' /\ kept tasks tasks'.
Proof.
  unfold discover_entry, rewritten. intros H Hk.
  destruct (name e =? f) eqn:En; simpl.
  - apply String.eqb_eq in En.
    destruct (is_dir e); simpl in *;
      [|injection H as <-; now exists acc'].
    destruct (reserved && _);
      [injection H as <-; now exists acc'|].
    eexists. split; [reflexivity|].
    intros t _ _. rewrite En, same_id. apply lookup_dict_set_eq.
  - apply String.eqb_neq in En.
    destruct (is_dir e); simpl in *;
      [|injection H as <-; now exists acc'].
    destruct (reserved && _);
      [injection H as <-; now exists acc'|].
    destruct (task_md e) as [[[fm b]|err]|]; simpl in *;
      [|discriminate|injection H as <-; now exists acc'].
    injection H as <-. eexists. split; [reflexivity|].
    intros t. rewrite !lookup_dict_set.
    destruct (entry_id fm (name e) =? tid); [|apply Hk].
    intros [= <-] Hp. simpl in Hp. contradiction.
Qed.

Lemma scan_rewritten (l : list entry) (acc acc' tasks : dict Task) :
  for_each l (discover_entry reserved) acc = Ok tasks ->
  kept acc acc' ->
  exists tasks',
    for_each (map rewritten l) (discover_entry reserved) acc' = Ok tasks' /\
    kept tasks tasks'.
Proof.
  revert acc acc'. induction l as [|e l IH]; intros acc acc' H Hk; simpl in *.
  - injection H as <-. now exists acc'.
  - destruct (discover_entry reserved e acc) as [acc1|err] eqn:E; simpl in H;
      [|discriminate].
    destruct (discover_entry_rewritten e acc acc' acc1 E Hk) as (acc1' & E' & Hk1).
    fold (rewritten e). rewrite E'. simpl. now apply IH with acc1.
Qed.

Lemma sort_rewritten (l : list entry) :
  sort_by name (map rewritten l) = map rewritten (sort_by name l).
Proof.
  apply sort_by_map. intros e. unfold rewritten.
  now destruct (name e =? f).
Qed.
End Rewrite.

Lemma discover_after_write (st : repo) (tasks : dict Task) (tid : string)
    (t : Task) (fm' : dict value) (b' : string) :
  discover_tasks st = Ok tasks ->
  lookup tid tasks = Some t ->
  entry_id fm' (path t) = tid ->
  exists tasks',
    discover_tasks (write_task st (path t) fm' b') = Ok tasks' /\
    lookup tid tasks' = Some (mkTask tid (path t) fm' (stored_body b')).
Proof.
  intros Hd Hl Hid.
  destruct (discovered_read_from st tasks tid t Hd Hl)
    as (_ & base & e & Hb & Hin & Hn & _).
  unfold discover_tasks in *. rewrite Hb in Hd. unfold write_task. simpl.
  rewrite Hb.
  assert (Hhas : has_entry (path t) base = true)
    by (apply has_entry_In; now exists e).
  rewrite Hhas, sort_rewritten.
  destruct (scan_rewritten true tid (path t) fm' (stored_body b') Hid
              (sort_by name base) [] [] tasks Hd) as (tasks' & Ht' & Hk).
  - intros t0. discriminate.
  - exists tasks'. split; [exact Ht'|]. now apply (Hk t).
Qed.

Lemma lock_files_write_task (st : repo) (f : string) (fm : dict value)
    (b : string) :
  lock_files (write_task st f fm b) = lock_files st.
Proof. reflexivity. Qed.

Lemma tasks_base_write_lock (st : repo) (tid : string) (d : dict value) :
  discover_tasks (write_lock st tid d) = discover_tasks st.
Proof. reflexivity. Qed.

Lemma get_with_updates (fm updates : dict value) (k : string) (default : value) :
  NoDup (keys updates) ->
  get (dict_update fm updates) k default =
  match lookup k updates with Some v => v | None => get fm k default end.
Proof.
  intros Hnd. unfold get. rewrite lookup_dict_update by assumption.
  now destruct (lookup k updates).
Qed.

Lemma claim_Done_inv (cal : Calendar) (now : Z) (branch : option string)
    (st : repo) (task_id actor : string) (lease_seconds : Z) (allow : bool)
    (st' : repo) :
  claim now branch st task_id actor lease_seconds allow = Done st' ->
  exists tasks task,
    discover_tasks st = Ok tasks /\ lookup task_id tasks = Some task /\
    status task <> "done" /\
    st' = take_lease now (now + lease_seconds) branch st task task_id actor
                     lease_seconds.
Proof.
  unfold claim.
  destruct (discover_tasks st) as [tasks|e]; simpl; [|discriminate].
  destruct (lookup task_id tasks) as [task|] eqn:El; [|discriminate].
  destruct (status task =? "done") eqn:Es; [discriminate|].
  destruct (depends_on task) as [deps|e]; simpl; [|discriminate].
  destruct (first_unmet tasks deps) as [[[dep dst]|]|e]; simpl; try discriminate.
  apply String.eqb_neq in Es.
  assert (Hwrite :
    try st (lease_end now lease_seconds) (fun expires =>
    Done (take_lease now expires branch st task task_id actor lease_seconds))
    = Done st' ->
    st' = take_lease now (now + lease_seconds) branch st task task_id actor
                     lease_seconds).
  { destruct (lease_end now lease_seconds) as [expires|x] eqn:Ee; cbn [try];
      [|discriminate].
    apply lease_end_Ok in Ee as [_ ->]. now intros [= <-]. }
  destruct (load_lock st task_id) as [l|].
  - destruct (is_lock_unexpired now l).
    + destruct (claimed_by l =? actor); [discriminate|].
      destruct (lease_expires_at l); simpl; discriminate.
    + destruct (negb allow); [discriminate|].
      intros H. exists tasks, task. auto.
  - intros H. exists tasks, task. auto.
Qed.

(** C4: after a successful [claim] the repository holds a lock for the task
    whose [claimed_by] is the actor and whose [lease_expires_at] is the text of
    the instant [now + lease_seconds], and the task read back from the
    repository has the status in_progress and the owner field set to the
    actor; the one resulting repository carries both writes. *)
Theorem claim_success (cal : Calendar) (now : Z) (branch : option string)
    (st : repo) (task_id actor : string) (lease_seconds : Z) (allow : bool)
    (st' : repo) :
  claim now branch st task_id actor lease_seconds allow = Done st' ->
  (exists d,
     load_lock st' task_id = Some (mkLock task_id d) /\
     lookup "claimed_by" d = Some (VStr actor) /\
     lookup "lease_expires_at" d
     = Some (VStr (human_dt (Aware (now + lease_seconds)))) /\
     lease_expires_at (mkLock task_id d)
     = isoparse (human_dt (Aware (now + lease_seconds)))) /\
  (exists tasks' task',
     discover_tasks st' = Ok tasks' /\
     lookup task_id tasks' = Some task' /\
     status task' = "in_progress" /\
     lookup "owner" (frontmatter task') = Some (VStr actor) /\
     get (frontmatter task') "updated_at" VNone = VStr (date_isoformat now)).
Proof.
  intros H.
  destruct (claim_Done_inv cal now branch st task_id actor lease_seconds allow st' H)
    as (tasks & task & Hd & Hl & _ & ->).
  split.
  - destruct (lock_files_take_lease cal now branch st task task_id actor
                lease_seconds) as (d & H1 & H2 & H3 & _).
    exists d. unfold load_lock. rewrite H1. repeat split; try assumption.
    unfold lease_expires_at. simpl. now rewrite H3.
  - unfold take_lease.
    set (updates := [("status", VStr "in_progress"); ("owner", VStr actor);
                     ("updated_at", VStr (date_isoformat now))]).
    assert (Hnd : NoDup (keys updates)).
    { simpl. repeat constructor; simpl; intuition discriminate. }
    destruct (discovered_read_from st tasks task_id task Hd Hl)
      as (Hid & base & e & _ & _ & Hn & _ & _ & Heid).
    destruct (discover_after_write
                (write_lock st task_id
                   [("task_id", VStr task_id); ("claimed_by", VStr actor);
                    ("claimed_at", VStr (human_dt (Aware now)));
                    ("lease_seconds", VInt lease_seconds);
                    ("lease_expires_at", VStr (human_dt (Aware (now + lease_seconds))));
                    ("branch", opt_value branch);
                    ("last_renewed_at", VStr (human_dt (Aware now)))])
                tasks task_id task
                (frontmatter (with_updates task updates))
                (body (with_updates task updates)))
      as (tasks' & Hd' & Hl').
    + exact Hd.
    + exact Hl.
    + unfold entry_id, with_updates. cbn [frontmatter].
      rewrite get_with_updates by assumption. cbn [lookup updates String.eqb Ascii.eqb Bool.eqb].
      rewrite <- Hid, Heid, Hn. reflexivity.
    + exists tasks'. eexists. split; [exact Hd'|]. split; [exact Hl'|].
      unfold status, with_updates. cbn [frontmatter].
      split; [|split].
      * now rewrite get_with_updates by assumption.
      * now rewrite lookup_dict_update by assumption.
      * now rewrite get_with_updates by assumption.
Qed.

Lemma claim_success_witness :
  exists st',
    claim (cal := decimal_calendar) 3601 None locked_repo "T-1" "alice" 60 true
    = Done st' /\
    (exists d,
       load_lock st' "T-1" = Some (mkLock "T-1" d) /\
       lookup "claimed_by" d = Some (VStr "alice") /\
       lookup "lease_expires_at" d = Some (VStr "3661")) /\
    (exists tasks' task',
       discover_tasks st' = Ok tasks' /\
       lookup "T-1" tasks' = Some task' /\
       status task' = "in_progress" /\
       lookup "owner" (frontmatter task') = Some (VStr "alice")).
Proof.
  eexists. split; [reflexivity|].
  destruct (claim_success decimal_calendar 3601 None locked_repo "T-1" "alice"
              60 true _ eq_refl) as [(d & H1 & H2 & H3 & _) (ts & t & H4 & H5 & H6 & H7 & _)].
  split.
  - exists d. auto.
  - exists ts, t. auto.
Defined.

(** ** Archival *)

Lemma lookup_dict_del {V : Type} (k : string) (d : dict V) :
  lookup k (dict_del k d) = None.
Proof.
  induction d as [|[k' v'] d IH]; simpl; [reflexivity|].
  destruct (k' =? k) eqn:E; simpl; [assumption|]. now rewrite E.
Qed.

Lemma has_entry_filter_out (f : string) (base : list entry) :
  has_entry f (filter (fun e => negb (name e =? f)) base) = false.
Proof.
  induction base as [|e base IH]; simpl; [reflexivity|].
  destruct (name e =? f) eqn:E; simpl; [assumption|]. now rewrite E.
Qed.

Lemma has_entry_app (f : string) (l1 l2 : list entry) :
  has_entry f (l1 ++ l2) = has_entry f l1 || has_entry f l2.
Proof.
  induction l1 as [|e l1 IH]; simpl; [reflexivity|].
  now rewrite IH, orb_assoc.
Qed.

Lemma has_entry_archive_entry (f tid : string) (base : list entry) :
  has_entry f base = true ->
  has_entry tid (archive_entry f tid base) = true.
Proof.
  unfold archive_entry. induction base as [|e base IH]; simpl; [discriminate|].
  destruct (name e =? f); simpl; [now rewrite String.eqb_refl | assumption].
Qed.

Lemma not_held_is_expired (cal : Calendar) (now : Z) (l : Lock) :
  is_expired now l = true <-> (forall t, ~ held_until now l t).
Proof.
  unfold is_expired, held_until. split.
  - intros H t [He Hlt]. rewrite He in H. apply Z.leb_le in H. lia.
  - intros H. destruct (lease_expires_at l) as [[t|t]|e]; try reflexivity.
    apply Z.leb_le. destruct (Z.le_gt_cases t now) as [Hle|Hgt]; [assumption|].
    exfalso. apply (H t). split; [reflexivity | lia].
Qed.

(** C10: for an active task, [archive_task] fails, naming the holder and the
    expiry, while the task's lock is unexpired, and then leaves the repository
    as it was.  It succeeds only when the task has no lock or an expired one;
    for a task id that is a file name it does succeed then unless the archive
    already has an entry of that name; and after a success the task's folder
    has left the tasks directory for the archive and no lock file is left for
    the task. *)
Theorem archive_task_respects_lock (cal : Calendar) (now : Z) (st : repo)
    (task_id : string) (tasks : dict Task) (task : Task) :
  discover_tasks st = Ok tasks ->
  lookup task_id tasks = Some task ->
  (forall l t, load_lock st task_id = Some l -> held_until now l t ->
     archive_task now st task_id
     = Failed (ActiveLock task_id (claimed_by l) (human_dt (Aware t))) st) /\
  (forall st', archive_task now st task_id = Done st' ->
     (forall l t, load_lock st task_id = Some l -> ~ held_until now l t) /\
     load_lock st' task_id = None /\
     archive_exists st' task_id = true /\
     (exists base', tasks_base st' = Some base' /\
                    has_entry (path task) base' = false)) /\
  (file_name task_id = true ->
   (forall l t, load_lock st task_id = Some l -> ~ held_until now l t) ->
   archive_exists st task_id = false ->
   exists st', archive_task now st task_id = Done st').
Proof.
  intros Hd Hl.
  destruct (discovered_read_from st tasks task_id task Hd Hl)
    as (_ & base & e & Hb & Hin & Hn & _).
  assert (Hhas : has_entry (path task) base = true)
    by (apply has_entry_In; now exists e).
  unfold archive_task. rewrite Hd. simpl. rewrite Hl.
  split; [|split].
  - intros l t Hlock Hheld. rewrite Hlock.
    pose proof (held_is_unexpired now l t Hheld) as Hun.
    unfold is_lock_unexpired in Hun. rewrite Hun.
    destruct Hheld as [He _]. now rewrite He.
  - intros st' H.
    assert (Hmove :
      (if archive_exists (make_archive_dir st) task_id
       then Failed (DestinationExists task_id) (make_archive_dir st)
       else Done (delete_lock
                    (move_to_archive (make_archive_dir st) (path task) task_id)
                    task_id)) = Done st' ->
      load_lock st' task_id = None /\
      archive_exists st' task_id = true /\
      (exists base', tasks_base st' = Some base' /\
                     has_entry (path task) base' = false)).
    { destruct (archive_exists (make_archive_dir st) task_id); [discriminate|].
      intros [= <-]. split; [|split].
      - unfold load_lock, delete_lock. simpl. now rewrite lookup_dict_del.
      - unfold archive_exists. simpl. rewrite Hb, has_entry_app.
        rewrite (has_entry_archive_entry _ _ _ Hhas). apply orb_true_r.
      - simpl. rewrite Hb. eexists. split; [reflexivity|].
        apply has_entry_filter_out. }
    destruct (load_lock st task_id) as [l|] eqn:Hlock.
    + destruct (is_expired now l) eqn:He; simpl in H.
      * split; [|now apply Hmove].
        intros l0 t [= <-]. now apply (not_held_is_expired cal now l).
      * destruct (lease_expires_at l); simpl in H; discriminate.
    + split; [|now apply Hmove]. intros l t. discriminate.
  - intros _ Hno Hfree.
    assert (Hfree' : archive_exists (make_archive_dir st) task_id = false).
    { unfold archive_exists in *. simpl.
      destruct (archived_base st); [assumption | reflexivity]. }
    rewrite Hfree'.
    destruct (load_lock st task_id) as [l|] eqn:Hlock; [|eauto].
    assert (He : is_expired now l = true).
    { apply not_held_is_expired. intros t. now apply Hno. }
    rewrite He. simpl. eauto.
Qed.

Lemma archive_task_respects_lock_witness :
  archive_task (cal := decimal_calendar) 100 locked_repo "T-1"
  = Failed (ActiveLock "T-1" "bob" "3600") locked_repo /\
  exists st', archive_task (cal := decimal_calendar) 3601 locked_repo "T-1" = Done st'.
Proof.
  split.
  - destruct (archive_task_respects_lock decimal_calendar 100 locked_repo "T-1"
                _ _ eq_refl eq_refl) as (H & _ & _).
    apply (H _ 3600%Z eq_refl). split; [reflexivity | lia].
  - destruct (archive_task_respects_lock decimal_calendar 3601 locked_repo "T-1"
                _ _ eq_refl eq_refl) as (_ & _ & H).
    apply H; [reflexivity| |reflexivity].
    intros l t [= <-] [He Hlt]. vm_compute in He. injection He as <-. lia.
Defined.

(** ** Reports *)

Lemma adds_refl (n : nat) (r : report) : adds n r r.
Proof. exists []. split; [now rewrite app_nil_r | constructor]. Qed.

Lemma adds_trans (n : nat) (r1 r2 r3 : report) :
  adds n r1 r2 -> adds n r2 r3 -> adds n r1 r3.
Proof.
  intros (es1 & H1 & F1) (es2 & H2 & F2). exists (es1 ++ es2)%list. split.
  - now rewrite H2, H1, app_assoc.
  - apply Forall_app. now split.
Qed.

Lemma adds_error (n : nat) (d : diag) (r r' : report) :
  stage_of d = n -> adds n r r' -> adds n r (error d r').
Proof.
  intros Hd (es & H & F). exists (es ++ [d])%list. split.
  - simpl. now rewrite H, app_assoc.
  - apply Forall_app. split; [assumption | now constructor].
Qed.

Lemma adds_warning (n : nat) (d : diag) (r r' : report) :
  adds n r r' -> adds n r (warning d r').
Proof. intros (es & H & F). now exists es. Qed.

Lemma adds_In (n : nat) (r r' : report) (d : diag) :
  adds n r r' -> stage_of d <> n -> (In d (errors r') <-> In d (errors r)).
Proof.
  intros (es & H & F) Hd. rewrite H, in_app_iff. split; [|tauto].
  intros [Hin|Hin]; [assumption|]. rewrite Forall_forall in F.
  now apply F in Hin.
Qed.

Lemma adds_for_each {A : Type} (n : nat) (l : list A)
    (body : A -> report -> result report) :
  (forall x r r', In x l -> body x r = Ok r' -> adds n r r') ->
  forall r r', for_each l body r = Ok r' -> adds n r r'.
Proof.
  apply for_each_rel; [apply adds_refl | apply adds_trans].
Qed.

Ltac adds_steps :=
  repeat first [ apply adds_refl
               | apply adds_warning
               | apply adds_error; [reflexivity|] ].

Lemma check_board_adds (st : repo) (r : report) : adds 0 r (check_board st r).
Proof.
  unfold check_board. destruct (board_file st) as [loaded|]; [|adds_steps].
  destruct (bind loaded _); adds_steps.
Qed.

Lemma check_task_adds (v : validator) (all_tasks : dict Task)
    (kv : string * Task) (r r' : report) :
  check_task v all_tasks kv r = Ok r' -> adds 1 r r'.
Proof.
  destruct kv as [tid task]. unfold check_task.
  destruct (depends_on task) as [deps|e]; cbn [bind]; [|discriminate].
  intros H. eapply adds_trans; [|eapply adds_for_each; [|exact H]].
  - destruct (negb (path task =? tid)), (v (VDict (frontmatter task))),
      (negb (str_in (status task) ALLOWED_STATUSES)); adds_steps.
  - intros dep r1 r2 _. cbv beta. destruct (py_in dep all_tasks) as [b|e]; cbn [bind];
      [|discriminate].
    intros [= <-]. destruct (negb b); adds_steps.
Qed.

Lemma check_epic_refs_adds (tasks all_tasks : dict Task) (kv : string * Task)
    (r r' : report) :
  check_epic_refs tasks all_tasks kv r = Ok r' -> adds 3 r r'.
Proof.
  destruct kv as [tid task]. unfold check_epic_refs.
  destruct (children task) as [kids|e]; cbn [bind]; [|discriminate].
  intros H. eapply adds_trans; [|eapply adds_for_each; [|exact H]].
  - destruct (parent_epic task) as [p|]; [|adds_steps].
    destruct (p =? ""); [adds_steps|].
    destruct (negb (contains p all_tasks)); [adds_steps|].
    destruct (lookup p tasks) as [parent|]; [|adds_steps].
    destruct (negb (task_type parent =? "epic")); adds_steps.
  - intros c r1 r2 _. cbv beta. destruct (py_in c all_tasks) as [b|e]; cbn [bind];
      [|discriminate].
    intros [= <-]. destruct (negb b); adds_steps.
Qed.

Lemma check_bidirectional_adds (tasks : dict Task) (kv : string * Task)
    (r r' : report) :
  check_bidirectional tasks kv r = Ok r' -> adds 4 r r'.
Proof.
  destruct kv as [tid task]. unfold check_bidirectional.
  destruct (task_type task =? "epic"); [|intros [= <-]; adds_steps].
  destruct (children task) as [kids|e]; cbn [bind]; [|discriminate].
  destruct (for_each kids (check_child_back tasks tid) r) as [r1|e] eqn:E1;
    cbn [bind]; [|discriminate].
  intros H. apply adds_trans with r1.
  - eapply adds_for_each; [|exact E1].
    intros c s s' _. unfold check_child_back.
    destruct (py_in c tasks) as [[|]|e]; cbn [bind]; try discriminate;
      [|intros [= <-]; adds_steps].
    destruct (py_get tasks c) as [[child|]|e]; cbn [bind]; try discriminate;
      intros [= <-]; [|adds_steps].
    destruct (negb _); adds_steps.
  - eapply adds_for_each; [|exact H].
    intros [oid ot] s s' _. unfold check_listed.
    destruct (option_str_eqb (parent_epic ot) tid); [|intros [= <-]; adds_steps].
    destruct (children task) as [kids'|e]; cbn [bind]; [|discriminate].
    intros [= <-]. destruct (negb _); adds_steps.
Qed.

(** The errors after a loop are those before it and those its passes emit. *)
Lemma for_each_errors {A : Type} (emit : A -> diag -> Prop) (l : list A)
    (body : A -> report -> result report) :
  (forall x r r', In x l -> body x r = Ok r' ->
     forall d, In d (errors r') <-> In d (errors r) \/ emit x d) ->
  forall r r', for_each l body r = Ok r' ->
    forall d, In d (errors r') <-> In d (errors r) \/ exists x, In x l /\ emit x d.
Proof.
  induction l as [|x l IH]; intros Hbody r r' H d; simpl in H.
  - injection H as <-. split; [tauto|]. intros [H|(x & [] & _)]. assumption.
  - destruct (body x r) as [r1|e] eqn:E; simpl in H; [|discriminate].
    rewrite (IH (fun y s s' Hy => Hbody y s s' (or_intror Hy)) r1 r' H d).
    rewrite (Hbody x r r1 (or_introl eq_refl) E d). split.
    + intros [[Hin|Hem]|(y & Hy & Hem)]; [tauto | right | right].
      * exists x. split; [now left | assumption].
      * exists y. split; [now right | assumption].
    + intros [Hin|(y & [<-|Hy] & Hem)]; [tauto | tauto |].
      right. now exists y.
Qed.

Lemma check_dep_errors (tasks all_tasks : dict Task) (tid : string) (task : Task)
    (dep : value) (r r' : report) :
  check_dep tasks all_tasks tid task dep r = Ok r' ->
  forall d, In d (errors r') <->
            In d (errors r) \/ not_ready tasks all_tasks tid task dep d.
Proof.
  unfold check_dep, not_ready. intros H d.
  destruct dep; simpl in H; try discriminate;
    try (injection H as <-; split; [tauto|];
         intros [Hin|(k & t & Heq & _)]; [assumption | discriminate]).
  destruct (lookup s all_tasks) as [dt|] eqn:El.
  - injection H as <-.
    destruct (contains s tasks) eqn:Ec; simpl.
    + destruct (status dt =? "done") eqn:Es; simpl.
      * split; [tauto|]. intros [Hin|(k & t & [= <-] & Hl & _ & Hne & _)];
          [assumption|].
        rewrite El in Hl. injection Hl as <-.
        apply String.eqb_eq in Es. contradiction.
      * apply String.eqb_neq in Es. rewrite in_app_iff. simpl. split.
        -- intros [Hin|[<-|[]]]; [tauto|]. right. exists s, dt. auto.
        -- intros [Hin|(k & t & [= <-] & Hl & _ & _ & ->)]; [tauto|].
           rewrite El in Hl. injection Hl as <-. right. now left.
    + split; [tauto|]. intros [Hin|(k & t & [= <-] & _ & Hc & _)];
        [assumption|]. congruence.
  - injection H as <-. split; [tauto|].
    intros [Hin|(k & t & [= <-] & Hl & _)]; [assumption | congruence].
Qed.

Lemma check_ready_errors (tasks all_tasks : dict Task) (kv : string * Task)
    (r r' : report) :
  check_ready tasks all_tasks kv r = Ok r' ->
  forall d, In d (errors r') <->
    In d (errors r) \/
    (str_in (status (snd kv)) ["ready"; "in_progress"] = true /\
     exists deps dep, depends_on (snd kv) = Ok deps /\ In dep deps /\
                      not_ready tasks all_tasks (fst kv) (snd kv) dep d).
Proof.
  destruct kv as [tid task]. unfold check_ready. cbn [fst snd].
  destruct (str_in (status task) ["ready"; "in_progress"]).
  - destruct (depends_on task) as [deps|e]; cbn [bind]; [|discriminate].
    intros H d.
    rewrite (for_each_errors (not_ready tasks all_tasks tid task) deps _
               (fun dep s s' _ => check_dep_errors tasks all_tasks tid task dep s s')
               r r' H d).
    split.
    + intros [Hin|(dep & Hin & Hem)]; [tauto|]. right. split; [reflexivity|].
      now exists deps, dep.
    + intros [Hin|(_ & deps' & dep & [= <-] & Hin & Hem)]; [tauto|].
      right. now exists dep.
  - intros [= <-] d. split; [tauto|]. intros [Hin|[Hf _]];
      [assumption | discriminate].
Qed.

Lemma check_cycles_adds (tasks : dict Task) (items : list (string * Task))
    (r r' : report) :
  check_cycles tasks items r = Ok r' -> adds 5 r r'.
Proof.
  induction items as [|[tid task] items IH]; cbn [check_cycles].
  - intros [= <-]. apply adds_refl.
  - destruct (task_type task =? "epic"); [|assumption].
    destruct (find_epic_cycle _ tasks tid [] []) as [[[|x c]|]|e]; cbn [bind];
      try assumption; try discriminate.
    intros [= <-]. adds_steps.
Qed.

Lemma validate_report_stages (st : repo) (r : report) :
  validate_report st = Ok r ->
  exists tasks all_tasks v r1 r2 r3 r4,
    discover_tasks st = Ok tasks /\
    discover_all_tasks st = Ok all_tasks /\
    task_schema st = Ok v /\
    for_each (sorted_items tasks) (check_task v all_tasks)
             (check_board st (mkReport [] [])) = Ok r1 /\
    for_each (sorted_items tasks) (check_ready tasks all_tasks) r1 = Ok r2 /\
    for_each (sorted_items tasks) (check_epic_refs tasks all_tasks) r2 = Ok r3 /\
    for_each (sorted_items tasks) (check_bidirectional tasks) r3 = Ok r4 /\
    check_cycles tasks (sorted_items tasks) r4 = Ok r.
Proof.
  unfold validate_report.
  destruct (discover_tasks st) as [tasks|e]; cbn [bind]; [|discriminate].
  destruct (discover_all_tasks st) as [all_tasks|e]; cbn [bind]; [|discriminate].
  destruct (task_schema st) as [v|e]; cbn [bind]; [|discriminate].
  destruct (for_each (sorted_items tasks) (check_task v all_tasks) _)
    as [r1|e] eqn:E1; cbn [bind]; [|discriminate].
  destruct (for_each (sorted_items tasks) (check_ready tasks all_tasks) r1)
    as [r2|e] eqn:E2; cbn [bind]; [|discriminate].
  destruct (for_each (sorted_items tasks) (check_epic_refs tasks all_tasks) r2)
    as [r3|e] eqn:E3; cbn [bind]; [|discriminate].
  destruct (for_each (sorted_items tasks) (check_bidirectional tasks) r3)
    as [r4|e] eqn:E4; cbn [bind]; [|discriminate].
  intros H. exists tasks, all_tasks, v, r1, r2, r3, r4. auto 10.
Qed.

(** The errors of the dependency rule in a report of [validate]. *)
Lemma readiness_errors_merged (st : repo) (r : report)
    (tasks all_tasks : dict Task) (d : diag) :
  validate_report st = Ok r ->
  discover_tasks st = Ok tasks ->
  discover_all_tasks st = Ok all_tasks ->
  stage_of d = 2 ->
  (In d (errors r) <->
   exists tid task deps dep,
     lookup tid tasks = Some task /\
     str_in (status task) ["ready"; "in_progress"] = true /\
     depends_on task = Ok deps /\ In dep deps /\
     not_ready tasks all_tasks tid task dep d).
Proof.
  intros Hv Ht Ha Hd.
  destruct (validate_report_stages st r Hv)
    as (tasks' & all' & v & r1 & r2 & r3 & r4 & Ht' & Ha' & _ & E1 & E2 & E3 & E4 & E5).
  rewrite Ht in Ht'. injection Ht' as <-. rewrite Ha in Ha'. injection Ha' as <-.
  rewrite (adds_In 5 r4 r d (check_cycles_adds _ _ _ _ E5)) by congruence.
  rewrite (adds_In 4 r3 r4 d) by
    first [ congruence
          | eapply adds_for_each; [|exact E4];
            intros; eapply check_bidirectional_adds; eassumption ].
  rewrite (adds_In 3 r2 r3 d) by
    first [ congruence
          | eapply adds_for_each; [|exact E3];
            intros; eapply check_epic_refs_adds; eassumption ].
  rewrite (for_each_errors _ _ _
             (fun kv s s' _ => check_ready_errors tasks all_tasks kv s s')
             r1 r2 E2 d).
  rewrite (adds_In 1 _ r1 d) by
    first [ congruence
          | eapply adds_for_each; [|exact E1];
            intros; eapply check_task_adds; eassumption ].
  rewrite (adds_In 0 _ _ d (check_board_adds st _)) by congruence.
  pose proof (discover_tasks_NoDup st tasks Ht) as Hnd.
  simpl. split.
  - intros [[]|([tid task] & Hin & Hs & deps & dep & Hdeps & Hdep & Hnr)].
    exists tid, task, deps, dep. simpl in *.
    split; [now apply sorted_items_lookup|]. auto.
  - intros (tid & task & deps & dep & Hl & Hs & Hdeps & Hdep & Hnr).
    right. exists (tid, task). split; [now apply In_sorted_items|].
    split; [assumption|]. now exists deps, dep.
Qed.

(** C1, as stated, fails when an id is both active and archived.  In
    [collision_repo] the ready task T-1 depends on T-2, and T-2 is an active
    task with the status todo; yet [validate] reports no error, because the
    merged mapping holds the archived record of T-2, which is done. *)
Lemma readiness_error_lost_on_collision :
  exists r tasks task dep_task,
    validate_report collision_repo = Ok r /\
    discover_tasks collision_repo = Ok tasks /\
    lookup "T-1" tasks = Some task /\
    status task = "ready" /\
    depends_on task = Ok [VStr "T-2"] /\
    lookup "T-2" tasks = Some dep_task /\
    status dep_task = "todo" /\
    errors r = [].
Proof.
  eexists. eexists. eexists. eexists.
  split; [vm_compute; reflexivity|].
  split; [vm_compute; reflexivity|].
  split; [vm_compute; reflexivity|].
  split; [vm_compute; reflexivity|].
  split; [vm_compute; reflexivity|].
  split; [vm_compute; reflexivity|].
  split; vm_compute; reflexivity.
Qed.

(** C1 (amended): let T be an active task whose status is ready or
    in_progress, and D a dependency of T whose id is not both active and
    archived.  Then [validate] reports a dependency-readiness error for D of T
    if and only if D is an active task whose status is not done; in
    particular a dependency that only the archive holds never produces one,
    whatever its recorded status. *)
Theorem readiness_errors (st : repo) (r : report) (tasks archived : dict Task)
    (tid : string) (task : Task) (deps : list value) (dep : value) :
  validate_report st = Ok r ->
  discover_tasks st = Ok tasks ->
  discover_archived_tasks st = Ok archived ->
  lookup tid tasks = Some task ->
  str_in (status task) ["ready"; "in_progress"] = true ->
  depends_on task = Ok deps ->
  In dep deps ->
  (forall key, dep = VStr key ->
               lookup key tasks = None \/ lookup key archived = None) ->
  ((exists dst, In (DepNotDone tid (status task) dep dst) (errors r)) <->
   (exists key dep_task,
      dep = VStr key /\ lookup key tasks = Some dep_task /\
      status dep_task <> "done")) /\
  (forall key, dep = VStr key -> lookup key tasks = None ->
     forall dst, ~ In (DepNotDone tid (status task) dep dst) (errors r)).
Proof.
  intros Hv Ht Ha Hl Hs Hdeps Hdep Hone.
  destruct (validate_report_stages st r Hv)
    as (tasks' & all_tasks & _ & _ & _ & _ & _ & Ht' & Hall & _).
  rewrite Ht in Ht'. injection Ht' as <-.
  assert (Hmerged : forall key t, dep = VStr key -> contains key tasks = true ->
            (lookup key all_tasks = Some t <-> lookup key tasks = Some t)).
  { intros key t Hk Hc.
    rewrite (discover_all_tasks_lookup st tasks archived all_tasks key Ht Ha Hall).
    unfold contains in Hc. destruct (Hone key Hk) as [Hn|Hn].
    - rewrite Hn in Hc. discriminate.
    - now rewrite Hn. }
  assert (Hiff : forall dst,
            In (DepNotDone tid (status task) dep dst) (errors r) <->
            exists key dep_task,
              dep = VStr key /\ lookup key tasks = Some dep_task /\
              status dep_task <> "done" /\ dst = status dep_task).
  { intros dst.
    rewrite (readiness_errors_merged st r tasks all_tasks
               (DepNotDone tid (status task) dep dst) Hv Ht Hall eq_refl).
    split.
    - intros (tid' & task' & deps' & dep' & _ & _ & _ & _ & Hnr).
      destruct Hnr as (key & dt & -> & Hla & Hc & Hne & Heq).
      injection Heq as _ _ -> ->. exists key, dt.
      split; [reflexivity|]. split; [now apply Hmerged|]. auto.
    - intros (key & dt & -> & Hlt & Hne & ->).
      exists tid, task, deps, (VStr key). repeat split; try assumption.
      exists key, dt. repeat split; try assumption.
      + apply Hmerged; [reflexivity | | assumption].
        unfold contains. now rewrite Hlt.
      + unfold contains. now rewrite Hlt. }
  split.
  - split.
    + intros (dst & Hin). apply Hiff in Hin as (key & dt & H1 & H2 & H3 & _).
      now exists key, dt.
    + intros (key & dt & H1 & H2 & H3). exists (status dt). apply Hiff.
      now exists key, dt.
  - intros key -> Hnone dst Hin.
    apply Hiff in Hin as (key' & dt & [= <-] & H2 & _). congruence.
Qed.

Lemma readiness_errors_witness :
  exists r,
    validate_report blocked_repo = Ok r /\
    ((exists dst,
        In (DepNotDone "T-3" (status (blocked_task "T-3" "ready" [VStr "T-1"]))
                       (VStr "T-1") dst) (errors r)) <->
     (exists key dep_task,
        VStr "T-1" = VStr key /\ lookup key blocked_tasks = Some dep_task /\
        status dep_task <> "done")).
Proof.
  eexists. split; [vm_compute; reflexivity|].
  assert (Hv : validate_report blocked_repo
               = Ok (mkReport [DepNotDone "T-3" "ready" (VStr "T-1") "todo"] []))
    by (vm_compute; reflexivity).
  assert (Ht : discover_tasks blocked_repo = Ok blocked_tasks)
    by (vm_compute; reflexivity).
  assert (Ha : discover_archived_tasks blocked_repo = Ok [])
    by (vm_compute; reflexivity).
  assert (Hl : lookup "T-3" blocked_tasks
               = Some (blocked_task "T-3" "ready" [VStr "T-1"]))
    by (vm_compute; reflexivity).
  assert (Hs : str_in (status (blocked_task "T-3" "ready" [VStr "T-1"]))
                      ["ready"; "in_progress"] = true)
    by (vm_compute; reflexivity).
  assert (Hd : depends_on (blocked_task "T-3" "ready" [VStr "T-1"])
               = Ok [VStr "T-1"])
    by (vm_compute; reflexivity).
  assert (Hone : forall key, VStr "T-1" = VStr key ->
                 lookup key blocked_tasks = None \/ lookup key [] = (@None Task))
    by (intros key _; now right).
  exact (proj1 (readiness_errors blocked_repo _ blocked_tasks [] "T-3" _ _
                  (VStr "T-1") Hv Ht Ha Hl Hs Hd (or_introl eq_refl) Hone)).
Defined.

(** ** Cycle detection *)

Lemma find_epic_cycle_S (fuel : nat) (tasks : dict Task) (s : string)
    (visited path : list string) :
  find_epic_cycle (S fuel) tasks s visited path =
  if str_in s visited then
    cycle_start <- index s path;;
    Ok (Some (skipn cycle_start path ++ [s])%list)
  else
    match lookup s tasks with
    | None => Ok None
    | Some task =>
        if negb (task_type task =? "epic") then Ok None
        else
          kids <- children task;;
          cycle_among
            (fun c => find_epic_cycle fuel tasks c (s :: visited) (path ++ [s])%list)
            tasks kids
    end.
Proof.
  cbn [find_epic_cycle].
  destruct (str_in s visited); [reflexivity|].
  destruct (lookup s tasks) as [task|]; [|reflexivity].
  destruct (negb (task_type task =? "epic")); [reflexivity|].
  destruct (children task) as [kids|e]; cbn [bind]; [|reflexivity].
  induction kids as [|k kids IH]; [reflexivity|].
  cbn [cycle_among]. destruct (py_in k tasks) as [known|e]; cbn [bind];
    [|reflexivity].
  destruct k; try exact IH.
  destruct (known && is_epic tasks s0); [|exact IH].
  destruct (find_epic_cycle fuel tasks s0 (s :: visited) (path ++ [s])%list)
    as [[[|x c]|]|e]; cbn [bind]; try reflexivity; exact IH.
Qed.

Lemma str_in_In (s : string) (l : list string) :
  str_in s l = true <-> In s l.
Proof.
  unfold str_in. rewrite existsb_exists. split.
  - intros (x & Hin & Heq). apply String.eqb_eq in Heq. now subst.
  - intros Hin. exists s. split; [assumption | apply String.eqb_refl].
Qed.

Lemma str_in_not_In (s : string) (l : list string) :
  str_in s l = false <-> ~ In s l.
Proof.
  rewrite <- str_in_In. destruct (str_in s l); split; congruence.
Qed.

Lemma index_Ok (x : string) (l : list string) (i : nat) :
  index x l = Ok i ->
  exists pre post, l = (pre ++ x :: post)%list /\ skipn i l = x :: post.
Proof.
  revert i. induction l as [|y l IH]; intros i; cbn [index]; [discriminate|].
  destruct (y =? x) eqn:E.
  - apply String.eqb_eq in E. subst y. intros [= <-]. now exists [], l.
  - destruct (index x l) as [j|e]; cbn [bind]; [|discriminate].
    intros [= <-]. destruct (IH j eq_refl) as (pre & post & -> & Hs).
    exists (y :: pre), post. split; [reflexivity | exact Hs].
Qed.

Lemma index_total (x : string) (l : list string) :
  In x l -> exists i, index x l = Ok i.
Proof.
  induction l as [|y l IH]; cbn [index]; [intros []|].
  intros Hin. destruct (y =? x) eqn:E; [now exists 0|].
  apply String.eqb_neq in E. destruct Hin as [Heq|Hin]; [contradiction|].
  destruct (IH Hin) as [i ->]. now exists (S i).
Qed.

Lemma chain_app_r (tasks : dict Task) (l1 l2 : list string) :
  chain tasks (l1 ++ l2) -> chain tasks l2.
Proof.
  induction l1 as [|a l1 IH]; [trivial|].
  destruct l1 as [|b l1]; cbn [app chain].
  - destruct l2; [trivial | tauto].
  - intros [_ H]. apply IH. exact H.
Qed.

Lemma chain_snoc (tasks : dict Task) (l : list string) (a b : string) :
  chain tasks (l ++ [a]) -> epic_edge tasks a b ->
  chain tasks ((l ++ [a]) ++ [b]).
Proof.
  induction l as [|x l IH]; cbn [app chain]; [tauto|].
  destruct l as [|y l]; cbn [app chain] in *; [tauto|].
  intros [Hxy H] He. split; [assumption|]. now apply IH.
Qed.

Lemma cycle_among_Some (rec : string -> result (option (list string)))
    (tasks : dict Task) (kids : list value) (c : list string) :
  cycle_among rec tasks kids = Ok (Some c) ->
  exists ch, In (VStr ch) kids /\ is_epic tasks ch = true /\
             rec ch = Ok (Some c) /\ c <> [].
Proof.
  induction kids as [|k kids IH]; cbn [cycle_among]; [discriminate|].
  destruct (py_in k tasks) as [known|e]; cbn [bind]; [|discriminate].
  assert (Hrest : cycle_among rec tasks kids = Ok (Some c) ->
            exists ch, In (VStr ch) (k :: kids) /\ is_epic tasks ch = true /\
                       rec ch = Ok (Some c) /\ c <> []).
  { intros H. destruct (IH H) as (ch & Hin & Hrest). exists ch.
    split; [now right | exact Hrest]. }
  destruct k; try exact Hrest.
  destruct (known && is_epic tasks s) eqn:Ek; [|exact Hrest].
  apply andb_prop in Ek as [_ Hep].
  destruct (rec s) as [[[|x c']|]|e] eqn:Er; cbn [bind]; try exact Hrest;
    [|discriminate].
  intros [= <-]. exists s. split; [now left|].
  split; [assumption|]. split; [assumption | discriminate].
Qed.

(** What [find_epic_cycle] returns is a chain of child epics from an id back
    to itself, with no other repetition, and it ends a chain that runs
    through the current path and the id the search was started from. *)
Lemma find_epic_cycle_sound (tasks : dict Task) (fuel : nat) :
  forall s visited path c,
    find_epic_cycle fuel tasks s visited path = Ok (Some c) ->
    (forall x, In x visited <-> In x path) ->
    NoDup path ->
    chain tasks (path ++ [s]) ->
    simple_cycle tasks c /\
    exists pre tl, (pre ++ c = path ++ s :: tl)%list /\ chain tasks (pre ++ c).
Proof.
  induction fuel as [|fuel IH]; intros s visited path c H Hvp Hnd Hch;
    [discriminate|].
  rewrite find_epic_cycle_S in H.
  destruct (str_in s visited) eqn:Ev.
  - destruct (index s path) as [i|e] eqn:Ei; cbn [bind] in H; [|discriminate].
    injection H as <-.
    destruct (index_Ok s path i Ei) as (pre & post & Hp & ->).
    split.
    + exists s, post. split; [reflexivity|]. split.
      * rewrite Hp in Hnd. now apply NoDup_app_remove_l in Hnd.
      * rewrite Hp, <- app_assoc in Hch. now apply chain_app_r in Hch.
    + exists pre, []. rewrite Hp in Hch |- *. rewrite <- !app_assoc in *.
      cbn [app] in *. split; [reflexivity | assumption].
  - apply str_in_not_In in Ev.
    destruct (lookup s tasks) as [task|] eqn:El; [|discriminate].
    destruct (task_type task =? "epic") eqn:Et; cbn [negb] in H; [|discriminate].
    destruct (children task) as [kids|e] eqn:Ek; cbn [bind] in H; [|discriminate].
    apply cycle_among_Some in H as (ch & Hin & Hep & Hrec & _).
    destruct (IH ch (s :: visited) (path ++ [s])%list c Hrec)
      as (Hsimple & pre & tl & Heq & Hchain).
    + intros x. rewrite in_app_iff. cbn [In]. rewrite Hvp. tauto.
    + apply NoDup_app; [assumption | repeat constructor; cbn; tauto |].
      intros x Hx [<-|[]]. apply Ev. now apply Hvp.
    + apply chain_snoc; [assumption|].
      exists task, kids. apply String.eqb_eq in Et. auto.
    + split; [assumption|]. exists pre, (ch :: tl).
      rewrite Heq, <- app_assoc. split; [reflexivity|].
      rewrite Heq in Hchain. now rewrite <- app_assoc in Hchain.
Qed.

Lemma filter_length_le {A : Type} (f g : A -> bool) (l : list A) :
  (forall x, f x = true -> g x = true) ->
  List.length (filter f l) <= List.length (filter g l).
Proof.
  intros Hfg. induction l as [|x l IH]; cbn [filter]; [constructor|].
  destruct (f x) eqn:Ef.
  - rewrite (Hfg x Ef). cbn [List.length]. lia.
  - destruct (g x); cbn [List.length]; lia.
Qed.

Lemma filter_length_lt {A : Type} (f g : A -> bool) (l : list A) (a : A) :
  (forall x, f x = true -> g x = true) ->
  In a l -> f a = false -> g a = true ->
  List.length (filter f l) < List.length (filter g l).
Proof.
  intros Hfg Hin Hfa Hga. induction l as [|x l IH]; [destruct Hin|].
  cbn [filter]. destruct Hin as [->|Hin].
  - rewrite Hfa, Hga. cbn [List.length].
    pose proof (filter_length_le f g l Hfg). lia.
  - specialize (IH Hin). destruct (f x) eqn:Ef.
    + rewrite (Hfg x Ef). cbn [List.length]. lia.
    + destruct (g x); cbn [List.length]; lia.
Qed.

Lemma lookup_In_keys {V : Type} (k : string) (v : V) (d : dict V) :
  lookup k d = Some v -> In k (keys d).
Proof.
  intros H. apply lookup_In in H. change k with (fst (k, v)).
  now apply in_map.
Qed.

Lemma unvisited_cons (tasks : dict Task) (visited : list string) (s : string) :
  In s (keys tasks) -> ~ In s visited ->
  unvisited tasks (s :: visited) < unvisited tasks visited.
Proof.
  intros Hin Hni. unfold unvisited. apply filter_length_lt with s.
  - intros x. unfold str_in. cbn [existsb].
    destruct (x =? s); [discriminate | trivial].
  - assumption.
  - unfold str_in. cbn [existsb]. now rewrite String.eqb_refl.
  - apply negb_true_iff. now apply str_in_not_In.
Qed.

Lemma cycle_among_total (rec : string -> result (option (list string)))
    (tasks : dict Task) (kids : list value) :
  (forall ch, exists o, rec ch = Ok o) ->
  forallb hashable kids = true ->
  exists o, cycle_among rec tasks kids = Ok o.
Proof.
  intros Hrec. induction kids as [|k kids IH]; cbn [cycle_among forallb].
  - intros _. now exists None.
  - intros Hh. apply andb_prop in Hh as [Hk Hh]. specialize (IH Hh).
    rewrite py_in_hashable by assumption. cbn [bind].
    destruct k; try exact IH.
    destruct (contains s tasks && is_epic tasks s); [|exact IH].
    destruct (Hrec s) as [[[|x c]|] ->]; cbn [bind]; try exact IH.
    now eexists.
Qed.

(** With more fuel than unvisited ids the walk never runs out of it. *)
Lemma find_epic_cycle_total (tasks : dict Task) (fuel : nat) :
  children_ok tasks ->
  forall s visited path,
    unvisited tasks visited < fuel ->
    (forall x, In x visited -> In x path) ->
    exists o, find_epic_cycle fuel tasks s visited path = Ok o.
Proof.
  intros Hok. induction fuel as [|fuel IH]; intros s visited path Hlt Hvp;
    [lia|].
  rewrite find_epic_cycle_S. destruct (str_in s visited) eqn:Ev.
  - apply str_in_In in Ev. destruct (index_total s path (Hvp s Ev)) as [i ->].
    cbn [bind]. now eexists.
  - apply str_in_not_In in Ev.
    destruct (lookup s tasks) as [task|] eqn:El; [|now eexists].
    destruct (negb (task_type task =? "epic")); [now eexists|].
    destruct (Hok s task El) as (kids & -> & Hh). cbn [bind].
    apply cycle_among_total; [|assumption].
    intros ch. apply IH.
    + pose proof (unvisited_cons tasks visited s (lookup_In_keys _ _ _ El) Ev).
      lia.
    + intros x [<-|Hx]; apply in_app_iff; [right; now left | left; auto].
Qed.

Lemma cycle_among_complete (rec : string -> result (option (list string)))
    (tasks : dict Task) (kids : list value) (ch : string) (c : list string) :
  (forall k, exists o, rec k = Ok o) ->
  forallb hashable kids = true ->
  In (VStr ch) kids -> is_epic tasks ch = true ->
  rec ch = Ok (Some c) -> c <> [] ->
  exists c', cycle_among rec tasks kids = Ok (Some c') /\ c' <> [].
Proof.
  intros Hrec Hh Hin Hep Hc Hne.
  induction kids as [|k kids IH]; [destruct Hin|].
  cbn [forallb] in Hh. apply andb_prop in Hh as [Hk Hh].
  cbn [cycle_among]. rewrite py_in_hashable by assumption. cbn [bind].
  destruct Hin as [->|Hin].
  - assert (Hc' : contains ch tasks = true).
    { unfold is_epic in Hep. unfold contains.
      destruct (lookup ch tasks); [reflexivity | discriminate]. }
    rewrite Hc', Hep, Hc. cbn [andb bind].
    destruct c as [|x c]; [contradiction|]. eexists. split; [reflexivity|].
    discriminate.
  - specialize (IH Hh Hin). destruct k; try exact IH.
    destruct (contains s tasks && is_epic tasks s); [|exact IH].
    destruct (Hrec s) as [[[|x c0]|] ->]; cbn [bind]; try exact IH.
    eexists. split; [reflexivity | discriminate].
Qed.

(** A walk that can close on a visited id makes the search return a cycle. *)
Lemma find_epic_cycle_complete (tasks : dict Task) (visited : list string)
    (s : string) :
  children_ok tasks ->
  closes tasks visited s ->
  forall fuel path,
    unvisited tasks visited < fuel ->
    (forall x, In x visited -> In x path) ->
    exists c, find_epic_cycle fuel tasks s visited path = Ok (Some c) /\ c <> [].
Proof.
  intros Hok Hcl. induction Hcl as [visited s Hin|visited s ch Hni He Hcl IH];
    intros fuel path Hlt Hvp.
  - destruct fuel as [|fuel]; [lia|]. rewrite find_epic_cycle_S.
    rewrite (proj2 (str_in_In s visited) Hin).
    destruct (index_total s path (Hvp s Hin)) as [i ->]. cbn [bind].
    eexists. split; [reflexivity|]. now destruct (skipn i path).
  - destruct fuel as [|fuel]; [lia|]. rewrite find_epic_cycle_S.
    rewrite (proj2 (str_in_not_In s visited) Hni).
    destruct He as (ta & kids & El & Et & Ek & Hin & Hep).
    rewrite El, Et, String.eqb_refl. cbn [negb]. rewrite Ek. cbn [bind].
    destruct (Hok s ta El) as (kids' & Ek' & Hh).
    rewrite Ek in Ek'. injection Ek' as <-.
    assert (Hlt' : unvisited tasks (s :: visited) < fuel).
    { pose proof (unvisited_cons tasks visited s (lookup_In_keys _ _ _ El) Hni).
      lia. }
    assert (Hvp' : forall x, In x (s :: visited) -> In x (path ++ [s])%list).
    { intros x [<-|Hx]; apply in_app_iff; [right; now left | left; auto]. }
    destruct (IH fuel (path ++ [s])%list Hlt' Hvp') as (c & Hc & Hne).
    apply cycle_among_complete with ch c; try assumption.
    intros k. now apply find_epic_cycle_total.
Qed.

Lemma closes_of_walk (tasks : dict Task) (w : list string) :
  forall visited s,
    chain tasks (s :: w) ->
    (exists x, In x (s :: w) /\ In x visited) \/ ~ NoDup (s :: w) ->
    closes tasks visited s.
Proof.
  induction w as [|c w IH]; intros visited s Hch Hrep.
  - apply closes_here. destruct Hrep as [(x & [<-|[]] & Hx)|Hnd]; [assumption|].
    exfalso. apply Hnd. repeat constructor. intros [].
  - destruct (in_dec string_dec s visited) as [Hin|Hni];
      [now apply closes_here|].
    cbn [chain] in Hch. destruct Hch as [He Hch].
    apply closes_step with c; [assumption | assumption |].
    apply IH; [assumption|].
    destruct Hrep as [(x & [<-|Hx] & Hxv)|Hnd].
    + contradiction.
    + left. exists x. split; [assumption | now right].
    + destruct (in_dec string_dec s (c :: w)) as [Hs|Hs].
      * left. exists s. split; [assumption | now left].
      * right. intros Hnd'. apply Hnd. now constructor.
Qed.

Lemma epic_cycle_closes (tasks : dict Task) (c : list string) :
  epic_cycle tasks c ->
  exists s, closes tasks [] s /\ is_epic tasks s = true.
Proof.
  intros (x & mid & -> & Hch). exists x. split.
  - apply closes_of_walk with (mid ++ [x])%list; [assumption|].
    right. intros Hnd. inversion Hnd as [|? ? Hni _]; subst.
    apply Hni, in_app_iff. right. now left.
  - destruct mid as [|y mid]; cbn [app chain] in Hch.
    + destruct Hch as [(_ & _ & _ & _ & _ & _ & Hep) _]. exact Hep.
    + destruct Hch as [(ta & _ & El & Et & _) _]. unfold is_epic.
      rewrite El, Et. reflexivity.
Qed.

Lemma for_each_each_ok {A S : Type} (l : list A) (body : A -> S -> result S)
    (s s' : S) :
  for_each l body s = Ok s' ->
  forall x, In x l -> exists s1 s2, body x s1 = Ok s2.
Proof.
  revert s. induction l as [|y l IH]; intros s H x Hin; [destruct Hin|].
  cbn [for_each] in H.
  destruct (body y s) as [s1|e] eqn:E; cbn [bind] in H; [|discriminate].
  destruct Hin as [<-|Hin]; [now exists s, s1 | now apply (IH s1 H)].
Qed.

Lemma py_in_Ok_hashable {V : Type} (v : value) (d : dict V) (b : bool) :
  py_in v d = Ok b -> hashable v = true.
Proof. destruct v; cbn; intros; try reflexivity; discriminate. Qed.

Lemma refs_loop_hashable {V : Type} (all_tasks : dict V)
    (mk : value -> diag) (l : list value) (r r' : report) :
  for_each l
    (fun v r =>
       known <- py_in v all_tasks;;
       Ok (if negb known then error (mk v) r else r)) r = Ok r' ->
  forallb hashable l = true.
Proof.
  intros H. apply forallb_forall. intros v Hin.
  destruct (for_each_each_ok _ _ _ _ H v Hin) as (s1 & s2 & Hb).
  cbv beta in Hb. destruct (py_in v all_tasks) as [b|e] eqn:E; [|discriminate].
  now apply py_in_Ok_hashable in E.
Qed.

Lemma refs_loop_total {V : Type} (all_tasks : dict V)
    (mk : value -> diag) (l : list value) (r : report) :
  forallb hashable l = true ->
  exists r',
    for_each l
      (fun v r =>
         known <- py_in v all_tasks;;
         Ok (if negb known then error (mk v) r else r)) r = Ok r'.
Proof.
  intros Hh. apply for_each_total. intros v s Hin. cbv beta.
  rewrite forallb_forall in Hh. rewrite py_in_hashable by now apply Hh.
  cbn [bind]. now eexists.
Qed.

Lemma check_epic_refs_children (tasks all_tasks : dict Task) (tid : string)
    (task : Task) (r r' : report) :
  check_epic_refs tasks all_tasks (tid, task) r = Ok r' ->
  exists kids, children task = Ok kids /\ forallb hashable kids = true.
Proof.
  unfold check_epic_refs.
  destruct (children task) as [kids|e]; cbn [bind]; [|discriminate].
  intros H. exists kids. split; [reflexivity|].
  now apply refs_loop_hashable in H.
Qed.

Lemma check_task_depends_on (v : validator) (all_tasks : dict Task)
    (tid : string) (task : Task) (r r' : report) :
  check_task v all_tasks (tid, task) r = Ok r' ->
  exists deps, depends_on task = Ok deps /\ forallb hashable deps = true.
Proof.
  unfold check_task.
  destruct (depends_on task) as [deps|e]; cbn [bind]; [|discriminate].
  intros H. exists deps. split; [reflexivity|].
  now apply refs_loop_hashable in H.
Qed.

Lemma validate_children_ok (st : repo) (r : report) (tasks : dict Task) :
  validate_report st = Ok r -> discover_tasks st = Ok tasks ->
  children_ok tasks.
Proof.
  intros Hv Ht k t Hl.
  destruct (validate_report_stages st r Hv)
    as (tasks' & all' & v & r1 & r2 & r3 & r4 & Ht' & _ & _ & _ & _ & E3 & _).
  rewrite Ht in Ht'. injection Ht' as <-.
  destruct (for_each_each_ok _ _ _ _ E3 (k, t) (In_sorted_items _ _ _ Hl))
    as (s1 & s2 & Hb).
  now apply check_epic_refs_children in Hb.
Qed.

Lemma adds_filter_cycle (n : nat) (r r' : report) :
  adds n r r' -> n <> 5 ->
  filter is_cycle_error (errors r') = filter is_cycle_error (errors r).
Proof.
  intros (es & -> & F) Hn. rewrite filter_app.
  assert (Hes : filter is_cycle_error es = []).
  { induction F as [|d es Hd F IH]; [reflexivity|]. cbn [filter].
    destruct d; cbn in Hd |- *; try exact IH. congruence. }
  now rewrite Hes, app_nil_r.
Qed.

Lemma check_cycles_found (tasks : dict Task) (items : list (string * Task))
    (r r' : report) :
  check_cycles tasks items r = Ok r' ->
  r' = r \/
  exists tid task found,
    In (tid, task) items /\ task_type task = "epic" /\
    find_epic_cycle (S (List.length tasks)) tasks tid [] [] = Ok (Some found) /\
    r' = error (EpicCycle tid found) r.
Proof.
  induction items as [|[tid task] items IH]; cbn [check_cycles].
  - intros [= <-]. now left.
  - assert (Hrest : check_cycles tasks items r = Ok r' ->
              r' = r \/
              exists tid0 task0 found,
                In (tid0, task0) ((tid, task) :: items) /\
                task_type task0 = "epic" /\
                find_epic_cycle (S (List.length tasks)) tasks tid0 [] []
                = Ok (Some found) /\
                r' = error (EpicCycle tid0 found) r).
    { intros H. destruct (IH H) as [->|(t0 & k0 & f & Hin & Hrest)];
        [now left|]. right. exists t0, k0, f. split; [now right | exact Hrest]. }
    destruct (task_type task =? "epic") eqn:Et; [|exact Hrest].
    destruct (find_epic_cycle _ tasks tid [] []) as [[[|x c]|]|e] eqn:Ef;
      cbn [bind]; try exact Hrest; [|discriminate].
    intros [= <-]. right. exists tid, task, (x :: c).
    apply String.eqb_eq in Et. split; [now left|]. auto.
Qed.

Lemma unvisited_nil (tasks : dict Task) :
  unvisited tasks [] < S (List.length tasks).
Proof.
  unfold unvisited, keys.
  assert (Hall : forall l : list string, filter (fun _ => true) l = l).
  { induction l as [|a l IHl]; cbn; [reflexivity | now rewrite IHl]. }
  change (filter (fun k => negb (str_in k [])) (map fst tasks))
    with (filter (fun _ : string => true) (map fst tasks)).
  rewrite Hall, length_map. lia.
Qed.

Lemma check_cycles_complete (tasks : dict Task) (items : list (string * Task))
    (r r' : report) :
  children_ok tasks ->
  (exists tid task, In (tid, task) items /\ task_type task = "epic" /\
                    closes tasks [] tid) ->
  check_cycles tasks items r = Ok r' ->
  exists tid found, r' = error (EpicCycle tid found) r.
Proof.
  intros Hok. induction items as [|[tid task] items IH]; cbn [check_cycles].
  - intros (t0 & k0 & [] & _).
  - intros (t0 & k0 & Hin & Et0 & Hcl) H. destruct Hin as [Heq|Hin].
    + injection Heq as <- <-. rewrite Et0, String.eqb_refl in H.
      destruct (find_epic_cycle_complete tasks [] tid Hok Hcl
                  (S (List.length tasks)) [] (unvisited_nil tasks)
                  (fun x Hx => Hx))
        as (c & Hc & Hne).
      rewrite Hc in H. cbn [bind] in H. destruct c as [|x c]; [contradiction|].
      injection H as <-. eauto.
    + assert (Hrest : check_cycles tasks items r = Ok r' ->
                exists tid0 found, r' = error (EpicCycle tid0 found) r).
      { apply IH. eauto. }
      revert H. destruct (task_type task =? "epic"); [|exact Hrest].
      destruct (find_epic_cycle _ tasks tid [] []) as [[[|x c]|]|e];
        cbn [bind]; try exact Hrest; [|discriminate].
      intros [= <-]. eauto.
Qed.

Lemma no_cycle_error_before_last_stage (st : repo) (tasks all_tasks : dict Task)
    (v : validator) (r1 r2 r3 r4 : report) :
  for_each (sorted_items tasks) (check_task v all_tasks)
           (check_board st (mkReport [] [])) = Ok r1 ->
  for_each (sorted_items tasks) (check_ready tasks all_tasks) r1 = Ok r2 ->
  for_each (sorted_items tasks) (check_epic_refs tasks all_tasks) r2 = Ok r3 ->
  for_each (sorted_items tasks) (check_bidirectional tasks) r3 = Ok r4 ->
  filter is_cycle_error (errors r4) = [].
Proof.
  intros E1 E2 E3 E4.
  rewrite (adds_filter_cycle 4 r3 r4) by
    first [ discriminate
          | eapply adds_for_each; [|exact E4];
            intros; eapply check_bidirectional_adds; eassumption ].
  rewrite (adds_filter_cycle 3 r2 r3) by
    first [ discriminate
          | eapply adds_for_each; [|exact E3];
            intros; eapply check_epic_refs_adds; eassumption ].
  assert (H2 : forall d, In d (errors r2) -> In d (errors r1) \/ stage_of d = 2).
  { intros d Hd.
    apply (for_each_errors _ _ _
             (fun kv s s' _ => check_ready_errors tasks all_tasks kv s s')
             r1 r2 E2 d) in Hd.
    destruct Hd as [Hd|(kv & _ & _ & deps & dep & _ & _ & Hnr)]; [now left|].
    destruct Hnr as (key & dt & _ & _ & _ & _ & ->). now right. }
  assert (H1 : filter is_cycle_error (errors r1) = []).
  { rewrite (adds_filter_cycle 1 _ r1) by
      first [ discriminate
            | eapply adds_for_each; [|exact E1];
              intros; eapply check_task_adds; eassumption ].
    rewrite (adds_filter_cycle 0 _ _ (check_board_adds st _)) by discriminate.
    reflexivity. }
  destruct (filter is_cycle_error (errors r2)) as [|d l] eqn:E; [reflexivity|].
  assert (Hd : In d (filter is_cycle_error (errors r2)))
    by (rewrite E; now left).
  apply filter_In in Hd as [Hin Hc]. destruct (H2 d Hin) as [Hin1|Hs].
  - assert (Hf : In d (filter is_cycle_error (errors r1)))
      by (apply filter_In; now split).
    rewrite H1 in Hf. destruct Hf.
  - destruct d; cbn in Hc, Hs; discriminate.
Qed.

(** The cycle error of a report: there is at most one, and it names an
    active epic and a chain of child epics, reached from that epic, that runs
    from an id back to the same id and repeats no other id. *)
Theorem validate_cycle_error_sound (st : repo) (r : report) (tasks : dict Task) :
  validate_report st = Ok r ->
  discover_tasks st = Ok tasks ->
  List.length (filter is_cycle_error (errors r)) <= 1 /\
  forall tid c, In (EpicCycle tid c) (errors r) ->
    is_epic tasks tid = true /\ simple_cycle tasks c /\
    exists pre tl, (pre ++ c = tid :: tl)%list /\ chain tasks (pre ++ c).
Proof.
  intros Hv Ht.
  destruct (validate_report_stages st r Hv)
    as (tasks' & all' & v & r1 & r2 & r3 & r4 & Ht' & _ & _ & E1 & E2 & E3 & E4 & E5).
  rewrite Ht in Ht'. injection Ht' as <-.
  pose proof (no_cycle_error_before_last_stage st tasks all' v r1 r2 r3 r4
                E1 E2 E3 E4) as Hnone.
  destruct (check_cycles_found tasks _ r4 r E5)
    as [->|(tid & task & found & Hin & Et & Hf & ->)].
  - rewrite Hnone. split; [cbn; lia|]. intros tid c Hin.
    assert (Hc : In (EpicCycle tid c) (filter is_cycle_error (errors r4)))
      by (apply filter_In; now split).
    rewrite Hnone in Hc. destruct Hc.
  - cbn [error errors]. rewrite filter_app, Hnone. split; [cbn; lia|].
    intros tid' c Hin'. apply in_app_iff in Hin' as [Hin'|[Heq|[]]].
    + assert (Hc : In (EpicCycle tid' c) (filter is_cycle_error (errors r4)))
        by (apply filter_In; now split).
      rewrite Hnone in Hc. destruct Hc.
    + injection Heq as <- <-.
      apply sorted_items_lookup in Hin;
        [|now apply discover_tasks_NoDup with st].
      split; [unfold is_epic; now rewrite Hin, Et|].
      apply (find_epic_cycle_sound tasks _ tid [] [] found Hf);
        [tauto | constructor | exact I].
Qed.

Lemma validate_cycle_error_sound_witness :
  exists r,
    validate_report ring_repo = Ok r /\
    In (EpicCycle "A" ["A"; "B"; "C"; "A"]) (errors r) /\
    simple_cycle ring_tasks ["A"; "B"; "C"; "A"].
Proof.
  eexists. split; [vm_compute; reflexivity|]. split; [now left|].
  assert (Hv : validate_report ring_repo
               = Ok (mkReport [EpicCycle "A" ["A"; "B"; "C"; "A"]]
                       [ChildParentMismatch "A" (VStr "B") None;
                        ChildParentMismatch "A" (VStr "T-1") None;
                        ChildParentMismatch "B" (VStr "C") None;
                        ChildParentMismatch "C" (VStr "A") None]))
    by (vm_compute; reflexivity).
  assert (Ht : discover_tasks ring_repo = Ok ring_tasks)
    by (vm_compute; reflexivity).
  destruct (validate_cycle_error_sound ring_repo _ ring_tasks Hv Ht) as [_ H].
  destruct (H "A" ["A"; "B"; "C"; "A"] (or_introl eq_refl)) as (_ & Hs & _).
  exact Hs.
Defined.

(** Whenever some chain of child epics leads from an active epic back to
    itself, a report of [validate] has exactly one cycle error. *)
Theorem validate_reports_cycle (st : repo) (r : report) (tasks : dict Task)
    (c : list string) :
  validate_report st = Ok r ->
  discover_tasks st = Ok tasks ->
  epic_cycle tasks c ->
  exists tid found, filter is_cycle_error (errors r) = [EpicCycle tid found].
Proof.
  intros Hv Ht Hc.
  pose proof (validate_children_ok st r tasks Hv Ht) as Hok.
  destruct (validate_report_stages st r Hv)
    as (tasks' & all' & v & r1 & r2 & r3 & r4 & Ht' & _ & _ & E1 & E2 & E3 & E4 & E5).
  rewrite Ht in Ht'. injection Ht' as <-.
  pose proof (no_cycle_error_before_last_stage st tasks all' v r1 r2 r3 r4
                E1 E2 E3 E4) as Hnone.
  destruct (epic_cycle_closes tasks c Hc) as (s & Hcl & Hep).
  unfold is_epic in Hep. destruct (lookup s tasks) as [task|] eqn:El;
    [|discriminate].
  apply String.eqb_eq in Hep.
  destruct (check_cycles_complete tasks (sorted_items tasks) r4 r Hok) as
    (tid & found & ->); [|exact E5|].
  - exists s, task. split; [now apply In_sorted_items | auto].
  - exists tid, found. cbn [error errors]. now rewrite filter_app, Hnone.
Qed.

Ltac ring_edge :=
  eexists; eexists;
  split; [vm_compute; reflexivity|];
  split; [vm_compute; reflexivity|];
  split; [vm_compute; reflexivity|];
  split; [cbn; tauto | vm_compute; reflexivity].

Lemma validate_reports_cycle_witness :
  exists r tid found,
    validate_report ring_repo = Ok r /\
    filter is_cycle_error (errors r) = [EpicCycle tid found].
Proof.
  eexists.
  assert (Hv : validate_report ring_repo
               = Ok (mkReport [EpicCycle "A" ["A"; "B"; "C"; "A"]]
                       [ChildParentMismatch "A" (VStr "B") None;
                        ChildParentMismatch "A" (VStr "T-1") None;
                        ChildParentMismatch "B" (VStr "C") None;
                        ChildParentMismatch "C" (VStr "A") None]))
    by (vm_compute; reflexivity).
  assert (Ht : discover_tasks ring_repo = Ok ring_tasks)
    by (vm_compute; reflexivity).
  assert (Hc : epic_cycle ring_tasks ["B"; "C"; "A"; "B"]).
  { exists "B", ["C"; "A"]. split; [reflexivity|]. cbn [chain].
    split; [ring_edge|]. split; [ring_edge|]. split; [ring_edge | exact I]. }
  destruct (validate_reports_cycle ring_repo _ ring_tasks _ Hv Ht Hc)
    as (tid & found & H).
  exists tid, found. split; [exact Hv | exact H].
Defined.

(** ** When [validate] returns *)

Lemma check_task_total (v : validator) (all_tasks : dict Task) (tid : string)
    (task : Task) (r : report) :
  refs_ok task -> exists r', check_task v all_tasks (tid, task) r = Ok r'.
Proof.
  intros [(deps & Hd & Hh) _]. unfold check_task. rewrite Hd. cbn [bind].
  now apply refs_loop_total.
Qed.

Lemma check_ready_total (tasks all_tasks : dict Task) (tid : string)
    (task : Task) (r : report) :
  refs_ok task -> exists r', check_ready tasks all_tasks (tid, task) r = Ok r'.
Proof.
  intros [(deps & Hd & Hh) _]. unfold check_ready.
  destruct (str_in (status task) ["ready"; "in_progress"]); [|now eexists].
  rewrite Hd. cbn [bind]. apply for_each_total. intros dep s Hin.
  rewrite forallb_forall in Hh. specialize (Hh dep Hin).
  unfold check_dep. rewrite py_get_hashable by assumption. cbn [bind].
  destruct (match dep with VStr k => lookup k all_tasks | _ => None end);
    [|now eexists].
  rewrite py_in_hashable by assumption. cbn [bind]. now eexists.
Qed.

Lemma check_epic_refs_total (tasks all_tasks : dict Task) (tid : string)
    (task : Task) (r : report) :
  refs_ok task -> exists r', check_epic_refs tasks all_tasks (tid, task) r = Ok r'.
Proof.
  intros [_ (kids & Hk & Hh)]. unfold check_epic_refs. rewrite Hk. cbn [bind].
  now apply refs_loop_total.
Qed.

Lemma check_bidirectional_total (tasks : dict Task) (tid : string)
    (task : Task) (r : report) :
  refs_ok task -> exists r', check_bidirectional tasks (tid, task) r = Ok r'.
Proof.
  intros [_ (kids & Hk & Hh)]. unfold check_bidirectional.
  destruct (task_type task =? "epic"); [|now eexists].
  rewrite Hk. cbn [bind].
  destruct (for_each_total kids (check_child_back tasks tid)) with (s := r)
    as [r1 ->].
  - intros c s Hin. rewrite forallb_forall in Hh. specialize (Hh c Hin).
    unfold check_child_back. rewrite py_in_hashable by assumption. cbn [bind].
    destruct (match c with VStr k => contains k tasks | _ => false end);
      [|now eexists].
    rewrite py_get_hashable by assumption. cbn [bind].
    destruct (match c with VStr k => lookup k tasks | _ => None end);
      now eexists.
  - cbn [bind]. apply for_each_total. intros [oid ot] s _. unfold check_listed.
    destruct (option_str_eqb (parent_epic ot) tid); [|now eexists].
    rewrite Hk. cbn [bind]. now eexists.
Qed.

Lemma check_cycles_total (tasks : dict Task) (items : list (string * Task))
    (r : report) :
  children_ok tasks -> exists r', check_cycles tasks items r = Ok r'.
Proof.
  intros Hok. induction items as [|[tid task] items IH]; cbn [check_cycles];
    [now eexists|].
  destruct (task_type task =? "epic"); [|exact IH].
  destruct (find_epic_cycle_total tasks (S (List.length tasks)) Hok tid [] []
              (unvisited_nil tasks) (fun x Hx => Hx)) as [[[|x c]|] ->];
    cbn [bind]; try exact IH.
  now eexists.
Qed.

(** [validate] returns a report exactly when both discoveries succeed, the
    task schema can be loaded, and [depends_on] and [children] of every
    active task are lists whose members can be dictionary keys; in every
    other case an exception escapes.  In particular the depth allowed to the
    cycle search is never exhausted. *)
Theorem validate_report_returns_iff (st : repo) :
  (exists r, validate_report st = Ok r) <->
  (exists tasks archived v,
     discover_tasks st = Ok tasks /\
     discover_archived_tasks st = Ok archived /\
     task_schema st = Ok v /\
     forall k t, lookup k tasks = Some t -> refs_ok t).
Proof.
  split.
  - intros [r Hv].
    destruct (validate_report_stages st r Hv)
      as (tasks & all' & v & r1 & r2 & r3 & r4 & Ht & Ha & Hs & E1 & _ & E3 & _).
    unfold discover_all_tasks in Ha. rewrite Ht in Ha. cbn [bind] in Ha.
    destruct (discover_archived_tasks st) as [archived|e] eqn:Earch;
      [|discriminate].
    exists tasks, archived, v. repeat split; try assumption.
    + destruct (for_each_each_ok _ _ _ _ E1 (k, t) (In_sorted_items _ _ _ H))
        as (s1 & s2 & Hb).
      now apply check_task_depends_on in Hb.
    + destruct (for_each_each_ok _ _ _ _ E3 (k, t) (In_sorted_items _ _ _ H))
        as (s1 & s2 & Hb).
      now apply check_epic_refs_children in Hb.
  - intros (tasks & archived & v & Ht & Ha & Hs & Hrefs).
    pose proof (discover_tasks_NoDup st tasks Ht) as Hnd.
    assert (Hitems : forall kv, In kv (sorted_items tasks) -> refs_ok (snd kv)).
    { intros [k t] Hin. apply (Hrefs k). now apply sorted_items_lookup. }
    unfold validate_report, discover_all_tasks. rewrite Ht, Ha, Hs. cbn [bind].
    destruct (for_each_total (sorted_items tasks)
                (check_task v (dict_update tasks archived)))
      with (s := check_board st (mkReport [] [])) as [r1 ->].
    { intros [k t] s Hin. apply check_task_total. exact (Hitems _ Hin). }
    cbn [bind].
    destruct (for_each_total (sorted_items tasks)
                (check_ready tasks (dict_update tasks archived)))
      with (s := r1) as [r2 ->].
    { intros [k t] s Hin. apply check_ready_total. exact (Hitems _ Hin). }
    cbn [bind].
    destruct (for_each_total (sorted_items tasks)
                (check_epic_refs tasks (dict_update tasks archived)))
      with (s := r2) as [r3 ->].
    { intros [k t] s Hin. apply check_epic_refs_total. exact (Hitems _ Hin). }
    cbn [bind].
    destruct (for_each_total (sorted_items tasks) (check_bidirectional tasks))
      with (s := r3) as [r4 ->].
    { intros [k t] s Hin. apply check_bidirectional_total. exact (Hitems _ Hin). }
    cbn [bind]. apply check_cycles_total.
    intros k t Hl. exact (proj2 (Hrefs k t Hl)).
Qed.

(** ** Renewing and releasing *)

(** [renew] succeeds exactly on a lock that exists, is held by the actor and
    has not expired, with a lease that fits the date arithmetic; on such a
    lock a lease that does not fit makes the [OverflowError] escape, and
    nothing is written.  A successful [renew] rewrites the three lease fields
    of that lock from the current time and leaves every other field, every
    other lock and all task folders as they were. *)
Theorem renew_succeeds_iff (cal : Calendar) (now : Z) (st : repo)
    (task_id actor : string) (lease_seconds : Z) :
  ((exists st', renew now st task_id actor lease_seconds = Done st') <->
   (exists l t, load_lock st task_id = Some l /\ claimed_by l = actor /\
                held_until now l t) /\
   lease_fits now lease_seconds) /\
  ((exists l t, load_lock st task_id = Some l /\ claimed_by l = actor /\
                held_until now l t) ->
   ~ lease_fits now lease_seconds ->
   exists msg,
     renew now st task_id actor lease_seconds = Raised (OverflowError msg) st) /\
  (forall st', renew now st task_id actor lease_seconds = Done st' ->
     exists l d',
       load_lock st task_id = Some l /\
       load_lock st' task_id = Some (mkLock task_id d') /\
       lookup "lease_seconds" d' = Some (VInt lease_seconds) /\
       lookup "lease_expires_at" d'
       = Some (VStr (human_dt (Aware (now + lease_seconds)))) /\
       lookup "last_renewed_at" d' = Some (VStr (human_dt (Aware now))) /\
       (forall k, k <> "lease_seconds" -> k <> "lease_expires_at" ->
                  k <> "last_renewed_at" -> lookup k d' = lookup k (data l)) /\
       tasks_base st' = tasks_base st /\
       archived_base st' = archived_base st /\
       (forall k, k <> task_id ->
                  lookup k (lock_files st') = lookup k (lock_files st))).
Proof.
  assert (Hheld_inv : forall l0 t, held_until now l0 t -> is_expired now l0 = false).
  { intros l0 t Hh. apply held_is_unexpired in Hh.
    unfold is_lock_unexpired in Hh. now apply negb_true_iff in Hh. }
  unfold renew. destruct (load_lock st task_id) as [l|] eqn:Hlock.
  - destruct (claimed_by l =? actor) eqn:Hby; cbn [negb].
    + apply String.eqb_eq in Hby. destruct (is_expired now l) eqn:He.
      * split; [|split].
        -- split; [intros [st' H]; discriminate|].
           intros [(l0 & t & [= <-] & _ & Hheld) _].
           rewrite (Hheld_inv _ _ Hheld) in He. discriminate.
        -- intros (l0 & t & [= <-] & _ & Hheld) _.
           rewrite (Hheld_inv _ _ Hheld) in He. discriminate.
        -- intros st' H. discriminate.
      * assert (Hheld : exists l0 t, Some l = Some l0 /\ claimed_by l0 = actor /\
                                     held_until now l0 t).
        { unfold is_expired in He.
          destruct (lease_expires_at l) as [[t|t]|e] eqn:El; try discriminate.
          exists l, t. apply Z.leb_gt in He. repeat split; assumption. }
        destruct (lease_end now lease_seconds) as [expires|x] eqn:Ee;
          cbn [try].
        -- apply lease_end_Ok in Ee as [Hfit ->].
           split; [|split].
           ++ split; [auto | intros _; now eexists].
           ++ intros _ Hno. contradiction.
           ++ intros st' [= <-]. exists l. eexists.
              split; [reflexivity|]. split.
              { unfold load_lock, write_lock. cbn [lock_files].
                now rewrite lookup_dict_set_eq. }
              split; [|split; [|split; [|split; [|split; [|split]]]]].
              ** rewrite lookup_dict_set_ne by discriminate.
                 rewrite lookup_dict_set_ne by discriminate.
                 apply lookup_dict_set_eq.
              ** rewrite lookup_dict_set_ne by discriminate.
                 apply lookup_dict_set_eq.
              ** apply lookup_dict_set_eq.
              ** intros k H1 H2 H3.
                 rewrite !lookup_dict_set_ne by congruence. reflexivity.
              ** reflexivity.
              ** reflexivity.
              ** intros k Hk. cbn [write_lock lock_files].
                 now apply lookup_dict_set_ne.
        -- assert (Hno : ~ lease_fits now lease_seconds).
           { intros Hfit. rewrite (lease_end_fits _ _ Hfit) in Ee.
             discriminate. }
           destruct (lease_end_overflow _ _ Hno) as [msg Hm].
           rewrite Ee in Hm. injection Hm as ->.
           split; [|split].
           ++ split; [intros [st' H]; discriminate|].
              intros [_ Hfit]. contradiction.
           ++ intros _ _. now exists msg.
           ++ intros st' H. discriminate.
    + apply String.eqb_neq in Hby. split; [|split].
      * split; [intros [st' H]; discriminate|].
        intros [(l0 & t & [= <-] & Heq & _) _]. contradiction.
      * intros (l0 & t & [= <-] & Heq & _) _. contradiction.
      * intros st' H. discriminate.
  - split; [|split].
    + split; [intros [st' H]; discriminate|].
      intros [(l0 & t & H & _) _]. discriminate.
    + intros (l0 & t & H & _) _. discriminate.
    + intros st' H. discriminate.
Qed.

Lemma allowed_status_clean (s : string) :
  str_in s ALLOWED_STATUSES = true -> strip s = s /\ s <> "".
Proof.
  intros H. apply str_in_In in H. cbn in H.
  repeat (destruct H as [<-|H]; [split; [reflexivity | discriminate]|]).
  destruct H.
Qed.

(** A release by the lock's holder, or a forced one, with a status from the
    allowed set: the lock file is deleted, and the task read back from the
    repository has the new status while its owner field is left as it was. *)
Theorem release_with_status (cal : Calendar) (now : Z) (st : repo)
    (task_id actor : string) (force : bool) (s : string) (l : Lock)
    (tasks : dict Task) (task : Task) :
  load_lock st task_id = Some l ->
  claimed_by l = actor \/ force = true ->
  discover_tasks st = Ok tasks ->
  lookup task_id tasks = Some task ->
  str_in s ALLOWED_STATUSES = true ->
  exists st' tasks' task',
    release now st task_id actor force (Some s) = Done st' /\
    load_lock st' task_id = None /\
    discover_tasks st' = Ok tasks' /\
    lookup task_id tasks' = Some task' /\
    status task' = s /\
    owner task' = owner task /\
    get (frontmatter task') "updated_at" VNone = VStr (date_isoformat now).
Proof.
  intros Hlock Hauth Hd Hl Hs.
  destruct (allowed_status_clean s Hs) as [Hstrip Hne].
  destruct (discovered_read_from st tasks task_id task Hd Hl)
    as (Hid & base & e & _ & _ & Hn & _ & _ & Heid).
  set (updates := dict_set "status" (VStr s)
                    [("updated_at", VStr (date_isoformat now))]).
  assert (Hnd : NoDup (keys updates)).
  { cbn. repeat constructor; cbn; intuition discriminate. }
  destruct (discover_after_write (delete_lock st task_id) tasks task_id task
              (frontmatter (with_updates task updates))
              (body (with_updates task updates)))
    as (tasks' & Hd' & Hl'); [exact Hd | exact Hl | |].
  { unfold entry_id, with_updates. cbn [frontmatter].
    rewrite get_with_updates by assumption.
    cbn [lookup updates dict_set String.eqb Ascii.eqb Bool.eqb].
    rewrite <- Hid, Heid, Hn. reflexivity. }
  eexists. exists tasks'. eexists.
  split; [|split; [|split; [exact Hd'|split; [exact Hl'|]]]].
  - unfold release. rewrite Hlock.
    assert (Hgo : negb (claimed_by l =? actor) && negb force = false).
    { destruct Hauth as [<-| ->]; [now rewrite String.eqb_refl|].
      apply andb_false_r. }
    rewrite Hgo.
    change (discover_tasks (delete_lock st task_id)) with (discover_tasks st).
    rewrite Hd. cbn [try]. rewrite Hl.
    apply String.eqb_neq in Hne. rewrite Hne, Hs. cbn [negb]. reflexivity.
  - unfold load_lock, write_task, delete_lock. cbn [lock_files].
    now rewrite lookup_dict_del.
  - unfold status, owner, with_updates. cbn [frontmatter].
    rewrite !get_with_updates by assumption.
    cbn [lookup updates dict_set String.eqb Ascii.eqb Bool.eqb py_str].
    auto.
Qed.

Lemma release_with_status_witness :
  exists st' tasks' task',
    release (cal := decimal_calendar) 100 locked_repo "T-1" "bob" false
            (Some "review") = Done st' /\
    load_lock st' "T-1" = None /\
    discover_tasks st' = Ok tasks' /\
    lookup "T-1" tasks' = Some task' /\
    status task' = "review".
Proof.
  destruct (release_with_status decimal_calendar 100 locked_repo "T-1" "bob"
              false "review" _ _ _ eq_refl (or_introl eq_refl) eq_refl eq_refl
              eq_refl)
    as (st' & tasks' & task' & H1 & H2 & H3 & H4 & H5 & _).
  exists st', tasks', task'. auto.
Defined.

(** What becomes of the lock in a release: without a lock the call fails; a
    lock of another actor is kept, with the whole repository, unless the
    release is forced; and once the ownership check has passed the lock is
    gone from the repository the call leaves, however the call ends. *)
Theorem release_lock_fate (cal : Calendar) (now : Z) (st : repo)
    (task_id actor : string) (force : bool) (new_status : option string) :
  match load_lock st task_id with
  | None =>
      release now st task_id actor force new_status = Failed (NoLock task_id) st
  | Some l =>
      if (claimed_by l =? actor) || force then
        load_lock (final_state (release now st task_id actor force new_status))
                  task_id = None
      else
        release now st task_id actor force new_status
        = Failed (NotOwner task_id (claimed_by l) actor) st
  end.
Proof.
  unfold release. destruct (load_lock st task_id) as [l|] eqn:Hlock;
    [|reflexivity].
  destruct (claimed_by l =? actor), force; cbn [negb andb orb]; try reflexivity.
  all: assert (Hgone : forall fm b f,
         load_lock (write_task (delete_lock st task_id) f fm b) task_id = None)
    by (intros; unfold load_lock, write_task, delete_lock; cbn [lock_files];
        now rewrite lookup_dict_del).
  all: assert (Hgone0 : load_lock (delete_lock st task_id) task_id = None)
    by (unfold load_lock, delete_lock; cbn [lock_files];
        now rewrite lookup_dict_del).
  all: destruct (discover_tasks (delete_lock st task_id)) as [tasks|e];
    cbn [try final_state]; [|exact Hgone0].
  all: destruct (lookup task_id tasks) as [task|]; [|exact Hgone0].
  all: destruct new_status as [s|]; [|apply Hgone].
  all: destruct (s =? ""); [apply Hgone|].
  all: destruct (negb (str_in s ALLOWED_STATUSES)); [exact Hgone0 | apply Hgone].
Qed.

(** ** After a successful claim *)

Lemma take_lease_lock (cal : Calendar) (now : Z) (branch : option string)
    (st : repo) (task : Task) (task_id actor : string) (lease_seconds : Z) :
  exists l,
    load_lock (take_lease now (now + lease_seconds) branch st task task_id
                          actor lease_seconds) task_id
    = Some l /\
    claimed_by l = strip actor /\
    lease_expires_at l = isoparse (human_dt (Aware (now + lease_seconds))).
Proof.
  eexists. split; [|split].
  - unfold load_lock, take_lease, write_task, write_lock. cbn [lock_files].
    rewrite lookup_dict_set_eq. reflexivity.
  - reflexivity.
  - reflexivity.
Qed.

Lemma take_lease_discover (cal : Calendar) (now : Z) (branch : option string)
    (st : repo) (tasks : dict Task) (task : Task) (task_id actor : string)
    (lease_seconds : Z) :
  discover_tasks st = Ok tasks ->
  lookup task_id tasks = Some task ->
  exists tasks' task',
    discover_tasks (take_lease now (now + lease_seconds) branch st task
                               task_id actor lease_seconds)
    = Ok tasks' /\
    lookup task_id tasks' = Some task'.
Proof.
  intros Hd Hl. unfold take_lease.
  set (updates := [("status", VStr "in_progress"); ("owner", VStr actor);
                   ("updated_at", VStr (date_isoformat now))]).
  assert (Hnd : NoDup (keys updates)).
  { cbn. repeat constructor; cbn; intuition discriminate. }
  destruct (discovered_read_from st tasks task_id task Hd Hl)
    as (Hid & base & e & _ & _ & Hn & _ & _ & Heid).
  match goal with
  | |- context [write_task ?s _ _ _] =>
      destruct (discover_after_write s tasks task_id task
                  (frontmatter (with_updates task updates))
                  (body (with_updates task updates)))
        as (tasks' & Hd' & Hl'); [exact Hd | exact Hl | |]
  end.
  - unfold entry_id, with_updates. cbn [frontmatter].
    rewrite get_with_updates by assumption.
    cbn [lookup updates String.eqb Ascii.eqb Bool.eqb].
    rewrite <- Hid, Heid, Hn. reflexivity.
  - exists tasks'. eexists. split; [exact Hd' | exact Hl'].
Qed.

(** While the lease of a successful claim runs, the task is exclusive: no
    claim on it succeeds, whoever makes it and whatever the steal flag is, and
    archiving it is refused with the active-lock error that names the holder
    and the expiry. *)
Theorem claim_is_exclusive (cal : Calendar) (now : Z) (branch : option string)
    (st : repo) (task_id actor : string) (lease_seconds : Z) (allow : bool)
    (st' : repo) (now' : Z) :
  claim now branch st task_id actor lease_seconds allow = Done st' ->
  reads_back (now + lease_seconds) ->
  (now' < now + lease_seconds)%Z ->
  (forall branch' actor' lease' allow' st'',
     claim now' branch' st' task_id actor' lease' allow' <> Done st'') /\
  archive_task now' st' task_id
  = Failed (ActiveLock task_id (strip actor)
                       (human_dt (Aware (now + lease_seconds)))) st'.
Proof.
  intros H Hrb Hlt.
  destruct (claim_Done_inv cal now branch st task_id actor lease_seconds allow st' H)
    as (tasks & task & Hd & Hl & _ & ->).
  destruct (take_lease_lock cal now branch st task task_id actor lease_seconds)
    as (l & Hlock & Hby & Hexp).
  assert (Hheld : held_until now' l (now + lease_seconds)).
  { split; [|assumption]. rewrite Hexp. exact Hrb. }
  split.
  - intros branch' actor' lease' allow' st''.
    eapply claim_never_over_live_lock; [exact Hlock|].
    eapply held_is_unexpired. exact Hheld.
  - destruct (take_lease_discover cal now branch st tasks task task_id actor
                lease_seconds Hd Hl) as (tasks' & task' & Hd' & Hl').
    unfold archive_task. rewrite Hd'. cbn [try]. rewrite Hl', Hlock.
    pose proof (held_is_unexpired now' l _ Hheld) as Hun.
    unfold is_lock_unexpired in Hun. rewrite Hun.
    destruct Hheld as [He _]. rewrite He. cbn [try]. now rewrite Hby.
Qed.

Lemma claim_is_exclusive_witness :
  exists st',
    claim (cal := decimal_calendar) 3601 None locked_repo "T-1" "alice" 60 true
    = Done st' /\
    archive_task (cal := decimal_calendar) 3650 st' "T-1"
    = Failed (ActiveLock "T-1" "alice" "3661") st'.
Proof.
  eexists. split; [reflexivity|].
  apply (claim_is_exclusive decimal_calendar 3601 None locked_repo "T-1" "alice"
           60 true _ 3650 eq_refl).
  - reflexivity.
  - reflexivity.
Defined.

(** The holder's own follow-up.  While the lease runs, [renew] by the actor
    who claimed succeeds, for a lease that fits the date arithmetic, when the
    actor's name has no surrounding white space; a lease that does not fit
    makes the [OverflowError] escape and leaves the repository unchanged.  A
    name with surrounding white space is stored as given but compared
    after stripping, so that actor is told the lock belongs to someone else,
    by [renew] and by an unforced [release] alike, and the repository is left
    unchanged. *)
Theorem holder_after_claim (cal : Calendar) (now : Z) (branch : option string)
    (st : repo) (task_id actor : string) (lease_seconds : Z) (allow : bool)
    (st' : repo) (now' : Z) :
  claim now branch st task_id actor lease_seconds allow = Done st' ->
  reads_back (now + lease_seconds) ->
  (now' < now + lease_seconds)%Z ->
  (strip actor = actor ->
   forall lease',
     (lease_fits now' lease' ->
      exists st'', renew now' st' task_id actor lease' = Done st'') /\
     (~ lease_fits now' lease' ->
      exists msg,
        renew now' st' task_id actor lease' = Raised (OverflowError msg) st')) /\
  (strip actor <> actor ->
   (forall lease',
      renew now' st' task_id actor lease'
      = Failed (NotOwner task_id (strip actor) actor) st') /\
   (forall new_status,
      release now' st' task_id actor false new_status
      = Failed (NotOwner task_id (strip actor) actor) st')).
Proof.
  intros H Hrb Hlt.
  destruct (claim_Done_inv cal now branch st task_id actor lease_seconds allow st' H)
    as (tasks & task & Hd & Hl & _ & ->).
  destruct (take_lease_lock cal now branch st task task_id actor lease_seconds)
    as (l & Hlock & Hby & Hexp).
  assert (Hheld : held_until now' l (now + lease_seconds)).
  { split; [|assumption]. rewrite Hexp. exact Hrb. }
  pose proof (held_is_unexpired now' l _ Hheld) as Hun.
  unfold is_lock_unexpired in Hun. apply negb_true_iff in Hun.
  split.
  - intros Hclean lease'. unfold renew. rewrite Hlock, Hby, Hclean.
    rewrite String.eqb_refl, Hun. cbn [negb]. split; intros Hfit.
    + rewrite (lease_end_fits _ _ Hfit). cbn [try]. now eexists.
    + destruct (lease_end_overflow _ _ Hfit) as [msg ->]. cbn [try].
      now exists msg.
  - intros Hpad. apply String.eqb_neq in Hpad. split.
    + intros lease'. unfold renew. now rewrite Hlock, Hby, Hpad.
    + intros new_status. unfold release. now rewrite Hlock, Hby, Hpad.
Qed.

Lemma holder_after_claim_witness :
  exists st',
    claim (cal := decimal_calendar) 3601 None locked_repo "T-1" " alice" 60 true
    = Done st' /\
    renew (cal := decimal_calendar) 3650 st' "T-1" " alice" 60
    = Failed (NotOwner "T-1" "alice" " alice") st'.
Proof.
  eexists. split; [reflexivity|].
  destruct (holder_after_claim decimal_calendar 3601 None locked_repo "T-1"
              " alice" 60 true _ 3650 eq_refl) as [_ Hpad].
  - reflexivity.
  - reflexivity.
  - apply Hpad. vm_compute. discriminate.
Defined.

(** ** What discovery reads *)

Lemma discover_entry_eligible (reserved : bool) (e : entry) (acc : dict Task) :
  discover_entry reserved e acc =
  if eligible reserved e then
    match task_md e with
    | Some raw =>
        '(fm, b) <- raw;;
        Ok (dict_set (entry_id fm (name e))
                     (mkTask (entry_id fm (name e)) (name e) fm b) acc)
    | None => Ok acc
    end
  else Ok acc.
Proof.
  unfold discover_entry, eligible.
  destruct (is_dir e); cbn [negb andb]; [|reflexivity].
  destruct (reserved && _); cbn [negb andb]; [reflexivity|].
  destruct (task_md e) as [[[fm b]|err]|]; reflexivity.
Qed.

Lemma contains_dict_set {V : Type} (k k' : string) (v : V) (d : dict V) :
  contains k' (dict_set k v d) = (k =? k') || contains k' d.
Proof.
  unfold contains. rewrite lookup_dict_set. now destruct (k =? k').
Qed.

Lemma scan_ok_iff (reserved : bool) (l : list entry) (acc : dict Task) :
  (exists tasks, for_each l (discover_entry reserved) acc = Ok tasks) <->
  (forall e, In e l -> eligible reserved e = true ->
             exists fm b, task_md e = Some (Ok (fm, b))).
Proof.
  revert acc. induction l as [|e l IH]; intros acc; cbn [for_each].
  - split; [intros _ e [] | intros _; now eexists].
  - rewrite discover_entry_eligible. destruct (eligible reserved e) eqn:Ee.
    + destruct (task_md e) as [[[fm b]|err]|] eqn:Em; cbn [bind].
      * rewrite IH. split.
        -- intros H e' [<-|Hin] He'; [now exists fm, b | now apply H].
        -- intros H e' Hin. apply H. now right.
      * split; [intros [t H]; discriminate|].
        intros H. destruct (H e (or_introl eq_refl) Ee) as (fm & b & Hfm).
        congruence.
      * unfold eligible in Ee. rewrite Em in Ee.
        rewrite andb_false_r in Ee. discriminate.
    + cbn [bind]. rewrite IH. split.
      * intros H e' [<-|Hin] He'; [congruence | now apply H].
      * intros H e' Hin. apply H. now right.
Qed.

Lemma scan_contains (reserved : bool) (l : list entry) :
  forall acc tasks k,
    for_each l (discover_entry reserved) acc = Ok tasks ->
    (contains k tasks = true <->
     contains k acc = true \/ exists e, In e l /\ yields reserved e k).
Proof.
  induction l as [|e l IH]; intros acc tasks k; cbn [for_each].
  - intros [= <-]. split; [tauto|]. intros [H|(e & [] & _)]. exact H.
  - rewrite discover_entry_eligible. destruct (eligible reserved e) eqn:Ee.
    + destruct (task_md e) as [[[fm b]|err]|] eqn:Em; cbn [bind];
        [|discriminate|].
      * intros H. rewrite (IH _ _ k H), contains_dict_set, orb_true_iff,
          String.eqb_eq.
        split.
        -- intros [[Hk|Hc]|(e' & Hin & Hy)]; [right | now left | right].
           ++ exists e. split; [now left|]. split; [assumption|].
              now exists fm, b.
           ++ exists e'. split; [now right | assumption].
        -- intros [Hc|(e' & [<-|Hin] & Hy)]; [tauto | | right; now exists e'].
           destruct Hy as (_ & fm' & b' & Hfm & Hk).
           rewrite Em in Hfm. injection Hfm as <- <-. tauto.
      * intros H. rewrite (IH _ _ k H). split.
        -- intros [Hc|(e' & Hin & Hy)]; [now left|]. right. exists e'.
           split; [now right | assumption].
        -- intros [Hc|(e' & [<-|Hin] & Hy)]; [now left | | right; now exists e'].
           destruct Hy as (_ & fm' & b' & Hfm & _). congruence.
    + cbn [bind]. intros H. rewrite (IH _ _ k H). split.
      * intros [Hc|(e' & Hin & Hy)]; [now left|]. right. exists e'.
        split; [now right | assumption].
      * intros [Hc|(e' & [<-|Hin] & Hy)]; [now left | | right; now exists e'].
        destruct Hy as (He & _). congruence.
Qed.

(** What [discover_tasks] reads.  Folders whose name starts with [_] or [.],
    entries that are not directories and folders without a [task.md] are
    passed over.  The discovery succeeds exactly when every other folder has
    a well-formed [task.md]; its keys are then exactly the task ids of those
    folders, and each task it holds sits under its own id and was read from
    a directory of the listing. *)
Theorem discover_tasks_reads (st : repo) (base : list entry) :
  tasks_base st = Some base ->
  ((exists tasks, discover_tasks st = Ok tasks) <->
   (forall e, In e base -> eligible true e = true ->
              exists fm b, task_md e = Some (Ok (fm, b)))) /\
  (forall tasks, discover_tasks st = Ok tasks ->
     (forall k, contains k tasks = true <->
                exists e, In e base /\ yields true e k) /\
     (forall k t, lookup k tasks = Some t ->
                  id t = k /\ exists e, In e base /\ read_from t e)).
Proof.
  intros Hb. unfold discover_tasks. rewrite Hb. split.
  - rewrite scan_ok_iff. split; intros H e Hin; apply H;
      [now apply In_sort_by | now apply In_sort_by in Hin].
  - intros tasks H. split.
    + intros k. rewrite (scan_contains true _ [] tasks k H). split.
      * intros [Hc|(e & Hin & Hy)]; [discriminate|].
        exists e. apply In_sort_by in Hin. auto.
      * intros (e & Hin & Hy). right. exists e. split; [|assumption].
        now apply In_sort_by.
    + intros k t Hl.
      apply (scan_read_from true (sort_by name base) [] tasks
               (fun k t => id t = k /\ exists e, In e base /\ read_from t e) H);
        [discriminate | | exact Hl].
      intros e t0 Hin Hr. split; [reflexivity|]. exists e.
      apply In_sort_by in Hin. auto.
Qed.

Lemma discover_tasks_reads_witness :
  contains "T-2" blocked_tasks = true <->
  exists e, In e [folder "T-1" (example_fm "T-1" "todo" [VStr "T-2"]);
                  folder "T-2" (example_fm "T-2" "todo" []);
                  folder "T-3" (example_fm "T-3" "ready" [VStr "T-1"])]
            /\ yields true e "T-2".
Proof.
  destruct (discover_tasks_reads blocked_repo _ eq_refl) as [_ H].
  assert (Ht : discover_tasks blocked_repo = Ok blocked_tasks)
    by (vm_compute; reflexivity).
  exact (proj1 (H blocked_tasks Ht) "T-2").
Defined.

(** ** Errors about single tasks and about references *)

Lemma contains_dict_update {V : Type} (d other : dict V) (k : string) :
  NoDup (keys other) ->
  contains k (dict_update d other) = contains k d || contains k other.
Proof.
  intros Hnd. unfold contains. rewrite lookup_dict_update by assumption.
  destruct (lookup k other), (lookup k d); reflexivity.
Qed.

Lemma py_in_false_resolves (tasks archived : dict Task) (v : value) (b : bool) :
  NoDup (keys archived) ->
  py_in v (dict_update tasks archived) = Ok b ->
  b = resolves tasks archived v.
Proof.
  intros Hnd. destruct v; cbn [py_in resolves]; try (intros [= <-]; reflexivity);
    try discriminate.
  intros [= <-]. now apply contains_dict_update.
Qed.

Lemma refs_loop_errors (tasks archived : dict Task) (mk : value -> diag)
    (l : list value) (r r' : report) :
  NoDup (keys archived) ->
  for_each l
    (fun v r =>
       known <- py_in v (dict_update tasks archived);;
       Ok (if negb known then error (mk v) r else r)) r = Ok r' ->
  forall d, In d (errors r') <->
    In d (errors r) \/
    exists v, In v l /\ resolves tasks archived v = false /\ d = mk v.
Proof.
  intros Hnd H.
  refine (for_each_errors
            (fun v d => resolves tasks archived v = false /\ d = mk v) l _ _
            r r' H).
  intros v s s' _ Hb d0. cbv beta in Hb.
  destruct (py_in v (dict_update tasks archived)) as [b|e] eqn:E;
    cbn [bind] in Hb; [|discriminate].
  apply (py_in_false_resolves tasks archived v b Hnd) in E. subst b.
  injection Hb as <-.
  destruct (resolves tasks archived v); cbn [negb].
  - split; [tauto|]. intros [H0|[H0 _]]; [assumption | discriminate].
  - cbn [error errors]. rewrite in_app_iff. cbn [In]. split.
    + intros [H0|[<-|[]]]; [tauto | right; tauto].
    + intros [H0|[_ ->]]; [tauto | right; now left].
Qed.

Lemma check_task_errors (v : validator) (tasks archived : dict Task)
    (tid : string) (task : Task) (r r' : report) :
  NoDup (keys archived) ->
  check_task v (dict_update tasks archived) (tid, task) r = Ok r' ->
  forall d, In d (errors r') <->
            In d (errors r) \/ task_error v tasks archived tid task d.
Proof.
  intros Hnd. unfold check_task, task_error.
  destruct (depends_on task) as [deps|e]; cbn [bind]; [|discriminate].
  intros H d.
  rewrite (refs_loop_errors tasks archived (MissingDep tid) deps _ r' Hnd H d).
  assert (Hpre : forall r0,
            In d (errors (if negb (path task =? tid)
                          then warning (FolderMismatch tid (path task)) r0
                          else r0)) <-> In d (errors r0)).
  { intros r0. now destruct (negb (path task =? tid)). }
  destruct (v (VDict (frontmatter task))) as [u|e] eqn:Ev;
    destruct (str_in (status task) ALLOWED_STATUSES) eqn:Es; cbn [negb];
    cbn [error errors]; rewrite ?in_app_iff; cbn [In]; rewrite ?Hpre.
  - split.
    + intros [H0|(dep & Hin & Hr & ->)]; [tauto|].
      right. right. right. now exists deps, dep.
    + intros [H0|[(e & He & _)|[[Hf _]|(ds & dep & [= <-] & Hin & Hr & ->)]]];
        try tauto; try discriminate. right. now exists dep.
  - split.
    + intros [[H0|[<-|[]]]|(dep & Hin & Hr & ->)]; [tauto | | ].
      * right. right. left. tauto.
      * right. right. right. now exists deps, dep.
    + intros [H0|[(e & He & _)|[[_ ->]|(ds & dep & [= <-] & Hin & Hr & ->)]]];
        try tauto; try discriminate. right. now exists dep.
  - split.
    + intros [[H0|[<-|[]]]|(dep & Hin & Hr & ->)]; [tauto | | ].
      * right. left. now exists e.
      * right. right. right. now exists deps, dep.
    + intros [H0|[(e' & He & ->)|[[Hf _]|(ds & dep & [= <-] & Hin & Hr & ->)]]];
        try tauto; try discriminate.
      * injection He as <-. tauto.
      * right. now exists dep.
  - split.
    + intros [[[H0|[<-|[]]]|[<-|[]]]|(dep & Hin & Hr & ->)]; [tauto | | | ].
      * right. left. now exists e.
      * right. right. left. tauto.
      * right. right. right. now exists deps, dep.
    + intros [H0|[(e' & He & ->)|[[_ ->]|(ds & dep & [= <-] & Hin & Hr & ->)]]];
        try tauto.
      * injection He as <-. tauto.
      * right. now exists dep.
Qed.

Lemma check_epic_refs_errors (tasks archived : dict Task)
    (tid : string) (task : Task) (r r' : report) :
  NoDup (keys archived) ->
  check_epic_refs tasks (dict_update tasks archived) (tid, task) r = Ok r' ->
  forall d, In d (errors r') <->
            In d (errors r) \/ reference_error tasks archived tid task d.
Proof.
  intros Hnd. unfold check_epic_refs, reference_error.
  destruct (children task) as [kids|e]; cbn [bind]; [|discriminate].
  intros H d.
  rewrite (refs_loop_errors tasks archived (MissingChild tid) kids _ r' Hnd H d).
  assert (Hkids : (exists v, In v kids /\ resolves tasks archived v = false /\
                             d = MissingChild tid v) <->
                  (exists kids0 c, Ok kids = Ok kids0 /\ In c kids0 /\
                                   resolves tasks archived c = false /\
                                   d = MissingChild tid c)).
  { split.
    - intros (c & Hin & Hr & ->). now exists kids, c.
    - intros (k0 & c & [= <-] & Hin & Hr & ->). now exists c. }
  rewrite Hkids. clear Hkids H.
  destruct (parent_epic task) as [p|].
  - destruct (p =? "") eqn:Ep.
    + apply String.eqb_eq in Ep. split; [tauto|].
      intros [H0|[(p0 & [= <-] & Hne & _)|H0]]; [tauto | contradiction | tauto].
    + apply String.eqb_neq in Ep.
      rewrite (contains_dict_update tasks archived p Hnd).
      cbn [resolves].
      destruct (contains p tasks || contains p archived) eqn:Ec; cbn [negb].
      * assert (Hsame : forall r0,
                  In d (errors match lookup p tasks with
                               | Some parent =>
                                   if negb (task_type parent =? "epic")
                                   then warning
                                          (ParentNotEpic tid p (task_type parent)) r0
                                   else r0
                               | None => r0
                               end) <-> In d (errors r0)).
        { intros r0. destruct (lookup p tasks) as [parent|]; [|tauto].
          now destruct (negb (task_type parent =? "epic")). }
        rewrite Hsame. split; [tauto|].
        intros [H0|[(p0 & [= <-] & _ & Hr & _)|H0]]; [tauto | congruence | tauto].
      * cbn [error errors]. rewrite in_app_iff. cbn [In]. split.
        -- intros [[H0|[<-|[]]]|H0]; [tauto | | tauto].
           right. left. now exists p.
        -- intros [H0|[(p0 & [= <-] & _ & _ & ->)|H0]]; tauto.
  - split; [tauto|].
    intros [H0|[(p0 & Hp & _)|H0]]; [tauto | discriminate | tauto].
Qed.

(** The errors about single tasks and about references in a report of
    [validate]: a task is reported for invalid frontmatter exactly when the
    schema validator rejects it, for an invalid status exactly when its status
    is outside the allowed set, and for a missing dependency, parent epic or
    child exactly when that reference names neither an active nor an archived
    task; a reference that resolves only in the archive is not an error. *)
Theorem validate_task_and_reference_errors (st : repo) (r : report)
    (tasks archived : dict Task) (v : validator) (d : diag) :
  validate_report st = Ok r ->
  discover_tasks st = Ok tasks ->
  discover_archived_tasks st = Ok archived ->
  task_schema st = Ok v ->
  (stage_of d = 1 ->
   (In d (errors r) <->
    exists tid task, lookup tid tasks = Some task /\
                     task_error v tasks archived tid task d)) /\
  (stage_of d = 3 ->
   (In d (errors r) <->
    exists tid task, lookup tid tasks = Some task /\
                     reference_error tasks archived tid task d)).
Proof.
  intros Hv Ht Ha Hs.
  destruct (validate_report_stages st r Hv)
    as (tasks' & all' & v' & r1 & r2 & r3 & r4 & Ht' & Hall & Hs' & E1 & E2 & E3 & E4 & E5).
  rewrite Ht in Ht'. injection Ht' as <-. rewrite Hs in Hs'. injection Hs' as <-.
  unfold discover_all_tasks in Hall. rewrite Ht, Ha in Hall. cbn [bind] in Hall.
  injection Hall as <-.
  pose proof (discover_archived_tasks_NoDup st archived Ha) as Hnda.
  pose proof (discover_tasks_NoDup st tasks Ht) as Hndt.
  assert (H45 : forall n, n <> 4 -> n <> 5 -> stage_of d = n ->
                  (In d (errors r) <-> In d (errors r3))).
  { intros n H4 H5 Hd.
    rewrite (adds_In 5 r4 r d (check_cycles_adds _ _ _ _ E5)) by congruence.
    apply (adds_In 4); [|congruence].
    eapply adds_for_each; [|exact E4].
    intros; eapply check_bidirectional_adds; eassumption. }
  assert (H2 : stage_of d <> 2 -> (In d (errors r2) <-> In d (errors r1))).
  { intros Hd.
    rewrite (for_each_errors _ _ _
               (fun kv s s' _ => check_ready_errors tasks _ kv s s')
               r1 r2 E2 d).
    split; [|tauto].
    intros [H0|(kv & _ & _ & deps & dep & _ & _ & key & dt & _ & _ & _ & _ & ->)];
      [assumption | now contradiction Hd]. }
  assert (H1 : stage_of d <> 0 ->
               (In d (errors r1) <->
                exists kv, In kv (sorted_items tasks) /\
                           task_error v tasks archived (fst kv) (snd kv) d)).
  { intros Hz.
    rewrite (for_each_errors
               (fun kv d => task_error v tasks archived (fst kv) (snd kv) d)
               (sorted_items tasks) _
               (fun kv s s' _ =>
                  match kv with
                  | (tid, task) =>
                      check_task_errors v tasks archived tid task s s' Hnda
                  end)
               _ r1 E1 d).
    rewrite (adds_In 0 _ _ d (check_board_adds st _) Hz). cbn [errors In].
    tauto. }
  split; intros Hd.
  - rewrite (H45 1) by congruence.
    rewrite (adds_In 3 r2 r3 d) by
      first [ congruence
            | eapply adds_for_each; [|exact E3];
              intros; eapply check_epic_refs_adds; eassumption ].
    rewrite H2 by congruence. rewrite H1 by congruence. split.
    + intros ([tid task] & Hin & He). exists tid, task.
      split; [now apply sorted_items_lookup | exact He].
    + intros (tid & task & Hl & He). exists (tid, task).
      split; [now apply In_sorted_items | exact He].
  - rewrite (H45 3) by congruence.
    rewrite (for_each_errors
               (fun kv d => reference_error tasks archived (fst kv) (snd kv) d)
               (sorted_items tasks) _
               (fun kv s s' _ =>
                  match kv with
                  | (tid, task) =>
                      check_epic_refs_errors tasks archived tid task s s' Hnda
                  end)
               r2 r3 E3 d).
    rewrite H2 by congruence. split.
    + intros [H0|([tid task] & Hin & He)].
      * apply H1 in H0 as (kv & _ & He); [|congruence].
        destruct He as [(e & _ & ->)|[[_ ->]|(ds & dep & _ & _ & _ & ->)]];
          discriminate.
      * exists tid, task. split; [now apply sorted_items_lookup | exact He].
    + intros (tid & task & Hl & He). right. exists (tid, task).
      split; [now apply In_sorted_items | exact He].
Qed.

Lemma validate_task_and_reference_errors_witness :
  errors dangling_report
  = [InvalidStatus "T-1" "wip"; MissingDep "T-1" (VStr "T-9");
     MissingParent "T-1" "E-9"] /\
  (In (MissingDep "T-1" (VStr "T-9")) (errors dangling_report) <->
   exists tid task,
     lookup tid dangling_tasks = Some task /\
     task_error accept_all dangling_tasks dangling_archived tid task
                (MissingDep "T-1" (VStr "T-9"))).
Proof.
  split; [vm_compute; reflexivity|].
  assert (Hv : validate_report dangling_repo = Ok dangling_report)
    by (vm_compute; reflexivity).
  assert (Ht : discover_tasks dangling_repo = Ok dangling_tasks)
    by (vm_compute; reflexivity).
  assert (Ha : discover_archived_tasks dangling_repo = Ok dangling_archived)
    by (vm_compute; reflexivity).
  assert (Hs : task_schema dangling_repo = Ok accept_all) by reflexivity.
  destruct (validate_task_and_reference_errors dangling_repo dangling_report
              dangling_tasks dangling_archived accept_all
              (MissingDep "T-1" (VStr "T-9")) Hv Ht Ha Hs) as [H _].
  exact (H eq_refl).
Defined.

(** ** Task files as text *)

Lemma append_assoc (a b c : string) : (a ++ b) ++ c = a ++ (b ++ c).
Proof. induction a as [|x a IH]; cbn; [reflexivity | now rewrite IH]. Qed.

Lemma append_nil_r (a : string) : a ++ "" = a.
Proof. induction a as [|x a IH]; cbn; [reflexivity | now rewrite IH]. Qed.

Lemma all_space_app (a b : string) :
  all_space (a ++ b) = all_space a && all_space b.
Proof.
  induction a as [|x a IH]; cbn [append all_space]; [reflexivity|].
  now rewrite IH, andb_assoc.
Qed.

Lemma rstrip_all_space (s : string) : all_space s = true -> rstrip s = "".
Proof. destruct s as [|c s]; cbn [rstrip]; [reflexivity | now intros ->]. Qed.

Lemma rstrip_app_space (s t : string) :
  all_space t = true -> rstrip (s ++ t) = rstrip s.
Proof.
  intros Ht. induction s as [|c s IH]; cbn [append].
  - now apply rstrip_all_space.
  - cbn [rstrip]. change (String c (s ++ t)) with (String c s ++ t).
    rewrite all_space_app, Ht, andb_true_r.
    destruct (all_space (String c s)); [reflexivity | now rewrite IH].
Qed.

Lemma rstrip_app_keep (s t : string) :
  all_space t = false -> rstrip (s ++ t) = s ++ rstrip t.
Proof.
  intros Ht. induction s as [|c s IH]; cbn [append]; [reflexivity|].
  cbn [rstrip]. change (String c (s ++ t)) with (String c s ++ t).
  rewrite all_space_app, Ht, andb_false_r. now rewrite IH.
Qed.

Lemma rstrip_head (c : ascii) (r : string) :
  isspace c = false -> rstrip (String c r) = String c (rstrip r).
Proof. intros Hc. cbn [rstrip all_space]. now rewrite Hc. Qed.

Lemma lstrip_cases (s : string) :
  lstrip s = "" \/ exists c r, lstrip s = String c r /\ isspace c = false.
Proof.
  induction s as [|c s IH]; cbn [lstrip]; [now left|].
  destruct (isspace c) eqn:Ec; [exact IH|]. right. now exists c, s.
Qed.

Lemma strip_cases (s : string) :
  strip s = "" \/ exists c r, strip s = String c r /\ isspace c = false.
Proof.
  unfold strip. destruct (lstrip_cases s) as [->|(c & r & -> & Hc)];
    [now left|].
  right. exists c, (rstrip r). split; [now apply rstrip_head | assumption].
Qed.

Lemma isspace_newline : isspace newline = true.
Proof. reflexivity. Qed.

Lemma span_space_head (c : ascii) (r : string) :
  isspace c = false -> span_space (String c r) = ("", String c r).
Proof. intros Hc. cbn [span_space]. now rewrite Hc. Qed.

Lemma fence_not_across (y : string) (t : string) :
  y <> "" ->
  String.prefix (nl ++ "---") (y ++ String newline t)
  = String.prefix (nl ++ "---") y.
Proof.
  intros Hy. unfold nl.
  destruct y as [|a [|b [|c [|d y]]]]; [contradiction| | | |];
    cbn [append String.prefix];
    repeat match goal with
           | |- context [ascii_dec ?x ?y] =>
               let E := fresh "E" in
               destruct (ascii_dec x y) as [E|E];
               [try (cbv in E; discriminate E) | try reflexivity]
           end;
    try reflexivity; destruct y; reflexivity.
Qed.

Lemma match_close_in_yaml (y t : string) :
  y <> "" -> no_fence y = true ->
  match_close (y ++ String newline t) = None.
Proof.
  intros Hy Hf. unfold match_close. rewrite fence_not_across by assumption.
  destruct y as [|c y]; [contradiction|]. cbn [no_fence] in Hf.
  apply andb_prop in Hf as [Hp _]. apply negb_true_iff in Hp. now rewrite Hp.
Qed.

Lemma match_group_through (y t : string) :
  no_fence y = true ->
  match_group (y ++ String newline t) =
  match match_group (String newline t) with
  | Some (g, rest) => Some (y ++ g, rest)
  | None => None
  end.
Proof.
  remember (match_group (String newline t)) as m eqn:Hm.
  induction y as [|c y IH]; intros Hf.
  - cbn [append]. rewrite <- Hm. now destruct m as [[g r]|].
  - cbn [append]. cbn [match_group].
    change (String c (y ++ String newline t))
      with (String c y ++ String newline t).
    rewrite match_close_in_yaml by (assumption || discriminate).
    cbn [no_fence] in Hf. apply andb_prop in Hf as [_ Hf].
    rewrite (IH Hf). now destruct m as [[g r]|].
Qed.

Lemma match_group_close (s rest : string) :
  match_close s = Some rest -> match_group s = Some ("", rest).
Proof. intros H. destruct s; cbn [match_group]; now rewrite H. Qed.

Lemma match_close_end : match_close (String newline ("---" ++ nl)) = Some "".
Proof. vm_compute. reflexivity. Qed.

Lemma span_space_two_newlines (c : ascii) (s : string) :
  isspace c = false ->
  span_space (nl ++ nl ++ String c s) = (nl ++ nl, String c s).
Proof.
  intros Hc. unfold nl. cbn [append span_space].
  change (isspace (ascii_of_nat 10)) with true. cbn iota. now rewrite Hc.
Qed.

Lemma match_close_body (c : ascii) (s : string) :
  isspace c = false ->
  match_close (String newline ("---" ++ nl ++ nl ++ String c s))
  = Some (String c s).
Proof.
  intros Hc. unfold match_close.
  assert (Hp : String.prefix (nl ++ "---")
                 (String newline ("---" ++ nl ++ nl ++ String c s)) = true).
  { unfold nl, newline. cbn [append String.prefix].
    repeat match goal with
           | |- context [ascii_dec ?x ?y] =>
               let E := fresh "E" in
               destruct (ascii_dec x y) as [E|E];
               [|exfalso; apply E; reflexivity]
           end.
    reflexivity. }
  rewrite Hp.
  change (drop 4 (String newline ("---" ++ nl ++ nl ++ String c s)))
    with (nl ++ nl ++ String c s).
  rewrite span_space_two_newlines by assumption.
  reflexivity.
Qed.

Lemma match_open_one_newline (c : ascii) (r rest : string) :
  isspace c = false ->
  FM_RE_match ("---" ++ nl ++ String c r ++ rest)
  = match_group (String c r ++ rest).
Proof.
  intros Hc. unfold FM_RE_match, nl. cbn [append String.prefix drop].
  repeat match goal with
         | |- context [ascii_dec ?x ?y] =>
             let E := fresh "E" in
             destruct (ascii_dec x y) as [E|E]; [|now contradiction E]
         end.
  cbn [span_space]. change (isspace (ascii_of_nat 10)) with true.
  cbn iota. rewrite Hc. cbn [match_open]. reflexivity.
Qed.

Lemma py_or_dict (fm : dict value) : py_or (VDict fm) (VDict []) = VDict fm.
Proof. now destruct fm. Qed.

(** Rendering a task, writing it and parsing the file again gives back the
    frontmatter and, as body, the body stripped of surrounding white space
    and closed by one line feed (or the empty text, when the body holds only
    white space).  The YAML library must read the dumped frontmatter back,
    and the dump must neither be empty nor contain a line feed followed by
    three dashes. *)
Theorem render_parse_round_trip (yaml : Yaml) (fm : dict value) (body : string) :
  dump_yaml_str fm <> "" ->
  no_fence (dump_yaml_str fm) = true ->
  safe_load (dump_yaml_str fm) = Ok (VDict fm) ->
  parse_frontmatter (write_text (render_task_markdown fm body))
  = Ok (fm, stored_body body).
Proof.
  intros Hne Hfence Hload.
  unfold render_task_markdown, write_text, stored_body.
  destruct (strip_cases (safe_dump fm)) as [Hy|(c0 & r0 & Hy & Hc0)];
    [contradiction|].
  change (strip (safe_dump fm)) with (dump_yaml_str fm) in Hy.
  assert (Hparse : forall t body',
            match_group (String newline t) = Some ("", body') ->
            parse_frontmatter ("---" ++ nl ++ dump_yaml_str fm ++ String newline t)
            = Ok (fm, body')).
  { intros t body' Hm. unfold parse_frontmatter.
    rewrite Hy at 1. rewrite match_open_one_newline by assumption.
    rewrite <- Hy, match_group_through, Hm, append_nil_r by assumption.
    rewrite Hload. cbn [bind]. now rewrite py_or_dict. }
  unfold strip.
  destruct (lstrip_cases body) as [->|(c & r & -> & Hc)].
  - replace ("---" ++ nl ++ dump_yaml_str fm ++ nl ++ "---" ++ nl ++ nl ++ "")
      with (("---" ++ nl ++ dump_yaml_str fm ++ nl) ++ "---" ++ (nl ++ nl))
      by (unfold nl; cbn [append]; rewrite !append_assoc; reflexivity).
    rewrite <- append_assoc, rstrip_app_space by reflexivity.
    rewrite rstrip_app_keep by reflexivity.
    change (rstrip "---") with "---". rewrite !append_assoc.
    change (rstrip "" =? "") with true. cbn iota.
    apply (Hparse ("---" ++ nl) ""). reflexivity.
  - assert (Hb : all_space (String c r) = false)
      by (cbn [all_space]; now rewrite Hc).
    replace ("---" ++ nl ++ dump_yaml_str fm ++ nl ++ "---" ++ nl ++ nl
             ++ String c r)
      with (("---" ++ nl ++ dump_yaml_str fm ++ nl ++ "---" ++ nl ++ nl)
            ++ String c r)
      by (unfold nl; cbn [append]; rewrite !append_assoc; reflexivity).
    rewrite rstrip_app_keep by assumption.
    rewrite (rstrip_head c r Hc). rewrite !append_assoc.
    cbn [String.eqb]. 
    apply (Hparse ("---" ++ nl ++ nl ++ String c (rstrip r ++ nl))
                  (String c (rstrip r ++ nl))).
    apply match_group_close. now apply match_close_body.
Qed.

Lemma render_parse_round_trip_witness :
  parse_frontmatter (yaml := empty_yaml)
    (write_text (render_task_markdown (yaml := empty_yaml) []
                   ("  ## Context" ++ nl ++ "text  " ++ nl ++ nl)))
  = Ok ([], "## Context" ++ nl ++ "text" ++ nl).
Proof.
  apply (render_parse_round_trip empty_yaml []
           ("  ## Context" ++ nl ++ "text  " ++ nl ++ nl)).
  - vm_compute. discriminate.
  - vm_compute. reflexivity.
  - vm_compute. reflexivity.
Defined.

Lemma all_space_rstrip (s : string) :
  all_space (rstrip s) = true -> all_space s = true.
Proof.
  induction s as [|c s IH]; [reflexivity|].
  cbn [rstrip]. destruct (all_space (String c s)) eqn:E; [reflexivity|].
  cbn [all_space] in *. intros H. apply andb_prop in H as [Hc Hr].
  rewrite Hc, (IH Hr) in E. discriminate.
Qed.

Lemma rstrip_idempotent (s : string) : rstrip (rstrip s) = rstrip s.
Proof.
  induction s as [|c s IH]; [reflexivity|].
  cbn [rstrip]. destruct (all_space (String c s)) eqn:E; [reflexivity|].
  cbn [rstrip].
  destruct (all_space (String c (rstrip s))) eqn:E'; [|now rewrite IH].
  exfalso. cbn [all_space] in E, E'. apply andb_prop in E' as [Hc Hr].
  rewrite Hc, (all_space_rstrip s Hr) in E. discriminate.
Qed.

(** What [write_text] stores is already in the form [write_text] gives:
    writing a file's own text again leaves it as it is, and the stored text
    is the content without trailing white space followed by one line feed. *)
Theorem write_text_idempotent (content : string) :
  write_text (write_text content) = write_text content /\
  rstrip (write_text content) = rstrip content /\
  exists kept, write_text content = kept ++ nl /\ rstrip kept = kept.
Proof.
  unfold write_text.
  assert (H : rstrip (rstrip content ++ nl) = rstrip content).
  { rewrite rstrip_app_space by reflexivity. apply rstrip_idempotent. }
  split; [now rewrite H|]. split; [exact H|].
  exists (rstrip content). split; [reflexivity | apply rstrip_idempotent].
Qed.

(** ** Search *)

Lemma length_append (a b : string) :
  String.length (a ++ b) = String.length a + String.length b.
Proof. induction a as [|c a IH]; cbn; [reflexivity | now rewrite IH]. Qed.

Lemma length_take (n : nat) (s : string) : String.length (take n s) <= n.
Proof.
  revert s. induction n as [|n IH]; intros [|c s]; cbn; try lia.
  specialize (IH s). lia.
Qed.

Lemma length_lower (s : string) : String.length (lower s) = String.length s.
Proof. induction s as [|c s IH]; cbn; [reflexivity | now rewrite IH]. Qed.

Lemma lower_drop (n : nat) (s : string) : lower (drop n s) = drop n (lower s).
Proof.
  revert s. induction n as [|n IH]; intros [|c s]; cbn; try reflexivity.
  apply IH.
Qed.

Lemma lower_take (n : nat) (s : string) : lower (take n s) = take n (lower s).
Proof.
  revert s. induction n as [|n IH]; intros [|c s]; cbn; try reflexivity.
  now rewrite IH.
Qed.

Lemma drop_drop (a b : nat) (s : string) : drop a (drop b s) = drop (b + a) s.
Proof.
  revert s. induction b as [|b IH]; intros s; [reflexivity|].
  destruct s as [|c s]; cbn [drop Nat.add]; [now destruct a | apply IH].
Qed.

Lemma prefix_nil (s : string) : String.prefix "" s = true.
Proof. now destruct s. Qed.

Lemma prefix_cons (a b : ascii) (p s : string) :
  String.prefix (String a p) (String b s) = true <->
  a = b /\ String.prefix p s = true.
Proof.
  cbn [String.prefix]. destruct (ascii_dec a b) as [E|E].
  - tauto.
  - split; [discriminate | tauto].
Qed.

Lemma prefix_length (p s : string) :
  String.prefix p s = true -> String.length p <= String.length s.
Proof.
  revert s. induction p as [|a p IH]; intros s H; [cbn; lia|].
  destruct s as [|b s]; [discriminate|].
  apply prefix_cons in H as [_ H]. specialize (IH s H). cbn. lia.
Qed.

Lemma prefix_take (p s : string) (n : nat) :
  String.prefix p s = true -> String.length p <= n ->
  String.prefix p (take n s) = true.
Proof.
  revert s n. induction p as [|a p IH]; intros s n H Hn; [apply prefix_nil|].
  destruct s as [|b s]; [discriminate|].
  destruct n as [|n]; [cbn in Hn; lia|].
  apply prefix_cons in H as [-> H]. cbn [take]. apply prefix_cons.
  split; [reflexivity|]. apply IH; [assumption | cbn in Hn; lia].
Qed.

Lemma find_prefix (sub s : string) (pos : nat) :
  find sub s = Some pos -> String.prefix sub (drop pos s) = true.
Proof.
  revert pos. induction s as [|c s IH]; intros pos; cbn [find].
  - destruct (String.prefix sub "") eqn:E; [|discriminate].
    intros [= <-]. exact E.
  - destruct (String.prefix sub (String c s)) eqn:E.
    + intros [= <-]. exact E.
    + destruct (find sub s) as [i|]; [|discriminate].
      intros [= <-]. cbn [drop]. now apply IH.
Qed.

Lemma find_length (sub s : string) (pos : nat) :
  find sub s = Some pos -> pos + String.length sub <= String.length s.
Proof.
  revert pos. induction s as [|c s IH]; intros pos; cbn [find].
  - destruct (String.prefix sub "") eqn:E; [|discriminate].
    intros [= <-]. now apply prefix_length in E.
  - destruct (String.prefix sub (String c s)) eqn:E.
    + intros [= <-]. now apply prefix_length in E.
    + destruct (find sub s) as [i|]; [|discriminate].
      intros [= <-]. specialize (IH i eq_refl). cbn [String.length]. lia.
Qed.

Lemma find_of_prefix (sub s : string) (k : nat) :
  String.prefix sub (drop k s) = true -> find sub s <> None.
Proof.
  revert s. induction k as [|k IH]; intros s H.
  - cbn [drop] in H. destruct s; cbn [find]; now rewrite H.
  - destruct s as [|c s].
    + cbn [drop] in H. cbn [find]. now rewrite H.
    + cbn [drop] in H. cbn [find].
      destruct (String.prefix sub (String c s)); [discriminate|].
      specialize (IH s H). now destruct (find sub s).
Qed.

Lemma drop_take (k n : nat) (s : string) :
  drop k (take (k + n) s) = take n (drop k s).
Proof.
  revert s. induction k as [|k IH]; intros s; [reflexivity|].
  destruct s as [|c s]; cbn [Nat.add take drop]; [now destruct n | apply IH].
Qed.

(** A match stays a match inside every slice that spans it. *)
Lemma find_in_slice (sub s : string) (pos i j : nat) :
  String.prefix sub (drop pos s) = true ->
  i <= pos -> pos + String.length sub <= j ->
  str_contains sub (slice i j s) = true.
Proof.
  intros Hp Hi Hj. unfold str_contains, slice.
  assert (H : find sub (take (j - i) (drop i s)) <> None).
  { apply find_of_prefix with (k := pos - i).
    replace (j - i) with ((pos - i) + (j - pos)) by lia.
    rewrite drop_take, drop_drop.
    replace (i + (pos - i)) with pos by lia.
    apply prefix_take; [assumption | lia]. }
  now destruct (find sub (take (j - i) (drop i s))).
Qed.

(** What [_extract_match_context] returns.  It finds nothing exactly when
    the text or the query is empty or the lower-cased query does not occur in
    the lower-cased text.  A snippet it returns is a slice of the text that
    contains an occurrence of the query, case-insensitively, with three dots
    before and after it where the text goes on; it is at most the query, the
    context on both sides and the two ellipses long. *)
Theorem extract_match_context_spec (text query : string) (context_chars : nat) :
  (_extract_match_context text query context_chars = None <->
   text = "" \/ query = "" \/ find (lower query) (lower text) = None) /\
  (forall snippet,
     _extract_match_context text query context_chars = Some snippet ->
     String.length snippet <= String.length query + 2 * context_chars + 6 /\
     exists i j pre post,
       snippet = pre ++ slice i j text ++ post /\
       (pre = if (0 <? i)%nat then "..." else "") /\
       (post = if (j <? String.length text)%nat then "..." else "") /\
       str_contains (lower query) (lower (slice i j text)) = true).
Proof.
  unfold _extract_match_context. split.
  - destruct (text =? "") eqn:Et; [apply String.eqb_eq in Et; tauto|].
    destruct (query =? "") eqn:Eq; [apply String.eqb_eq in Eq; tauto|].
    apply String.eqb_neq in Et, Eq. cbn [orb].
    destruct (find (lower query) (lower text)) as [pos|];
      [|tauto].
    split; [discriminate|]. intros [H|[H|H]]; [contradiction.. | discriminate].
  - intros snippet.
    destruct ((text =? "") || (query =? "")); [discriminate|].
    destruct (find (lower query) (lower text)) as [pos|] eqn:Ef; [|discriminate].
    intros [= <-].
    set (i := pos - context_chars).
    set (j := Nat.min (String.length text)
                      (pos + String.length query + context_chars)).
    assert (Hlen : pos + String.length query <= String.length text).
    { apply find_length in Ef. now rewrite !length_lower in Ef. }
    apply find_prefix in Ef.
    split.
    + assert (Hs : String.length (slice i j text)
                   <= String.length query + 2 * context_chars).
      { unfold slice. pose proof (length_take (j - i) (drop i text)).
        subst i j. lia. }
      destruct (0 <? i)%nat, (j <? String.length text)%nat;
        rewrite ?length_append; cbn [String.length]; lia.
    + exists i, j, (if (0 <? i)%nat then "..." else ""),
        (if (j <? String.length text)%nat then "..." else "").
      split; [|split; [reflexivity|split; [reflexivity|]]].
      * destruct (0 <? i)%nat, (j <? String.length text)%nat;
          cbn [append]; rewrite ?append_nil_r, ?append_assoc; reflexivity.
      * unfold slice. rewrite lower_take, lower_drop.
        apply (find_in_slice (lower query) (lower text) pos i j Ef).
        -- subst i. lia.
        -- rewrite length_lower. subst j. lia.
Qed.

Lemma str_contains_nil (sub : string) :
  str_contains sub "" = true -> sub = "".
Proof.
  unfold str_contains. cbn [find]. destruct sub as [|a p]; [reflexivity|].
  cbn [String.prefix]. discriminate.
Qed.

Lemma lower_nil (s : string) : lower s = "" -> s = "".
Proof. destruct s; [reflexivity | discriminate]. Qed.

(** Where [find_match] finds a non-empty query: the title comes first. *)
Lemma find_match_field (task : Task) (q ql : string)
    (m : option string * option string) :
  ql <> "" -> find_match task q ql = Ok m -> some_text (fst m) = true ->
  In (snd m) MATCH_FIELDS /\
  (snd m = Some "title" <-> str_contains ql (lower (title task)) = true).
Proof.
  intros Hq. unfold find_match.
  destruct (str_contains ql (lower (title task))) eqn:Et.
  - assert (Hne : (title task =? "") = false).
    { apply String.eqb_neq. intros E. rewrite E in Et.
      apply str_contains_nil in Et. contradiction. }
    cbn [fst snd some_text]. rewrite Hne. cbn [negb fst snd some_text].
    rewrite Hne. cbn [negb fst snd some_text]. rewrite Hne.
    cbn [negb fst snd some_text]. rewrite Hne. cbn [negb].
    intros [= <-] _. cbn [snd MATCH_FIELDS In]. tauto.
  - set (x1 := _extract_match_context
                 (get_section (parse_body_sections (body task)) "context") q 50).
    set (x2 := _extract_match_context
                 (get_section (parse_body_sections (body task)) "plan") q 50).
    set (x3 := _extract_match_context
                 (get_section (parse_body_sections (body task)) "notes") q 50).
    destruct x1 as [c1|]; [destruct (c1 =? "") eqn:H1|];
      (destruct x2 as [c2|]; [destruct (c2 =? "") eqn:H2|]);
      (destruct x3 as [c3|]; [destruct (c3 =? "") eqn:H3|]);
      repeat (cbn [fst snd some_text negb]; rewrite ?H1, ?H2, ?H3);
      try (intros [= <-] _; cbn [snd MATCH_FIELDS In];
           split; [tauto | split; discriminate]).
    all: destruct (py_list (py_or (get (frontmatter task) "acceptance" VNone)
                                  (VList []))) as [acc|e]; cbn [bind];
      [|discriminate].
    all: destruct (first_criterion ql acc) as [[c|]|e]; cbn [bind];
      try discriminate.
    all: intros [= <-]; cbn [fst snd some_text negb]; rewrite ?H1, ?H2, ?H3;
      try discriminate; intros _; cbn [snd MATCH_FIELDS In];
      (split; [tauto | split; discriminate]).
Qed.

Lemma passes_filters_true (task : Task)
    (status_f priority_f owner_f label_f : option string) :
  passes_filters task status_f priority_f owner_f label_f = Ok true ->
  filtered task status_f priority_f owner_f label_f.
Proof.
  unfold passes_filters, filtered, meets, given, some_text, option_str_eqb.
  intros H. repeat split; intros x -> Hx; apply String.eqb_neq in Hx;
    revert H; rewrite ?Hx; cbn [negb andb].
  - destruct (x =? status task) eqn:E; [|discriminate].
    intros _. apply String.eqb_eq in E. now symmetry.
  - match goal with |- (if ?c then _ else _) = _ -> _ => destruct c end;
      [discriminate|].
    unfold value_is.
    destruct (get (frontmatter task) "priority" VNone) as [| | |s| |];
      try discriminate.
    destruct (s =? x) eqn:E; [|discriminate].
    intros _. apply String.eqb_eq in E. now subst.
  - do 2 (match goal with |- (if ?c then _ else _) = _ -> _ => destruct c end;
          [discriminate|]).
    destruct (owner task) as [o|]; [|discriminate].
    destruct (o =? x) eqn:E; [|discriminate].
    intros _. apply String.eqb_eq in E. now subst.
  - do 3 (match goal with |- (if ?c then _ else _) = _ -> _ => destruct c end;
          [discriminate|]).
    destruct (py_contains x _) as [[|]|e]; cbn [bind];
      [reflexivity | discriminate | discriminate].
Qed.

(** The loop of [search_tasks]: what it adds to the results it starts from. *)
Lemma search_loop_adds (items : list (string * Task)) (q ql : string)
    (fs fp fo fl : option string) (limit : Z) :
  forall acc results,
  search_loop items q ql fs fp fo fl limit acc = Ok results ->
  exists picked : list hit,
    results = (acc ++ map result_of picked)%list /\
    subsequence (map fst picked) items /\
    ((Z.of_nat (List.length acc) < limit)%Z ->
     (Z.of_nat (List.length results) <= limit)%Z) /\
    ((limit <= Z.of_nat (List.length acc))%Z ->
     (List.length results <= S (List.length acc))%nat) /\
    Forall (fun h : hit =>
              filtered (snd (fst h)) fs fp fo fl /\
              (ql = "" -> snd h = (None, None)) /\
              (ql <> "" ->
               find_match (snd (fst h)) q ql = Ok (snd h) /\
               some_text (fst (snd h)) = true)) picked.
Proof.
  induction items as [|[tid task] rest IH]; intros acc results;
    cbn [search_loop].
  - intros [= <-]. exists []. cbn [map]. rewrite app_nil_r.
    repeat split; [constructor | lia | lia | constructor].
  - destruct (passes_filters task fs fp fo fl) as [pass|e] eqn:Ep;
      cbn [bind]; [|discriminate].
    destruct pass; cbn [negb].
    2:{ intros H. destruct (IH _ _ H) as (picked & -> & Hs & Hb1 & Hb2 & Hf).
        exists picked. repeat split; try assumption. now apply sub_skip. }
    apply passes_filters_true in Ep.
    assert (Hstep : forall m,
      (ql = "" -> m = (None, None)) ->
      (ql <> "" -> find_match task q ql = Ok m /\ some_text (fst m) = true) ->
      (if (limit <=? Z.of_nat (List.length
                                 (acc ++ [make_result tid task (fst m) (snd m)])))%Z
       then Ok (acc ++ [make_result tid task (fst m) (snd m)])%list
       else search_loop rest q ql fs fp fo fl limit
                        (acc ++ [make_result tid task (fst m) (snd m)])%list)
      = Ok results ->
      exists picked : list hit,
        results = (acc ++ map result_of picked)%list /\
        subsequence (map fst picked) ((tid, task) :: rest) /\
        ((Z.of_nat (List.length acc) < limit)%Z ->
         (Z.of_nat (List.length results) <= limit)%Z) /\
        ((limit <= Z.of_nat (List.length acc))%Z ->
         (List.length results <= S (List.length acc))%nat) /\
        Forall (fun h : hit =>
                  filtered (snd (fst h)) fs fp fo fl /\
                  (ql = "" -> snd h = (None, None)) /\
                  (ql <> "" ->
                   find_match (snd (fst h)) q ql = Ok (snd h) /\
                   some_text (fst (snd h)) = true)) picked).
    { intros m Hm1 Hm2.
      destruct (limit <=? Z.of_nat (List.length
                  (acc ++ [make_result tid task (fst m) (snd m)])))%Z eqn:El.
      - intros [= <-]. exists [((tid, task), m)].
        apply Z.leb_le in El. rewrite length_app in *. cbn [List.length] in *.
        repeat split; try (cbn [map fst]; apply sub_keep, sub_nil); try lia.
        constructor; [|constructor]. cbn [fst snd]. auto.
      - intros H. apply Z.leb_gt in El.
        destruct (IH _ _ H) as (picked & -> & Hs & Hb1 & Hb2 & Hf).
        exists (((tid, task), m) :: picked).
        rewrite length_app in *. cbn [List.length] in *.
        repeat split.
        + rewrite <- app_assoc. reflexivity.
        + cbn [map fst]. now apply sub_keep.
        + intros _. rewrite length_app in Hb1. apply Hb1. exact El.
        + intros Hge. lia.
        + constructor; [|assumption]. cbn [fst snd]. auto. }
    destruct (ql =? "") eqn:Eq.
    + apply String.eqb_eq in Eq.
      apply (Hstep (None, None)); [reflexivity | intros Hne; contradiction].
    + apply String.eqb_neq in Eq.
      destruct (find_match task q ql) as [m|e] eqn:Em; cbn [bind];
        [|discriminate].
      destruct (some_text (fst m)) eqn:Es.
      * apply (Hstep m); [intros E; contradiction | auto].
      * intros H. destruct (IH _ _ H) as (picked & -> & Hs & Hb1 & Hb2 & Hf).
        exists picked. repeat split; try assumption. now apply sub_skip.
Qed.

Lemma subsequence_In {A : Type} (x : A) (l1 l2 : list A) :
  subsequence l1 l2 -> In x l1 -> In x l2.
Proof.
  induction 1 as [l|y l1 l2 _ IH|y l1 l2 _ IH]; cbn [In].
  - contradiction.
  - auto.
  - intros [->|H]; auto.
Qed.

(** What [search_tasks] returns.  The results are built from tasks that
    [discover_tasks] found, in the order of their ids and each at most once;
    every one of them has the status, priority, owner and label asked for.
    Without a query neither the match context nor the match field is set;
    with a query both are, the field is one of title, context, plan, notes
    and acceptance, and it is the title exactly when the title contains the
    query in any case.  There are at most [limit] results, but one result is
    returned even when [limit] is below one. *)
Theorem search_tasks_results (st : repo) (query : string)
    (fs fp fo fl : option string) (limit : Z) (results : list search_result) :
  search_tasks st query fs fp fo fl limit = Ok results ->
  exists (tasks : dict Task) (picked : list hit),
    discover_tasks st = Ok tasks /\
    results = map result_of picked /\
    subsequence (map fst picked) (sorted_items tasks) /\
    (Z.of_nat (List.length results) <= Z.max limit 1)%Z /\
    Forall (fun h : hit =>
              lookup (fst (fst h)) tasks = Some (snd (fst h)) /\
              filtered (snd (fst h)) fs fp fo fl /\
              (query = "" -> snd h = (None, None)) /\
              (query <> "" ->
               some_text (fst (snd h)) = true /\
               In (snd (snd h)) MATCH_FIELDS /\
               (snd (snd h) = Some "title" <->
                str_contains (lower query) (lower (title (snd (fst h))))
                = true))) picked.
Proof.
  unfold search_tasks.
  destruct (discover_tasks st) as [tasks|e] eqn:Ht; cbn [bind]; [|discriminate].
  intros H. apply search_loop_adds in H
    as (picked & -> & Hs & Hb1 & Hb2 & Hf).
  exists tasks, picked. cbn [app List.length] in *.
  repeat split; try assumption.
  - destruct (Z.lt_ge_cases 0 limit) as [Hl|Hl]; [specialize (Hb1 Hl)|
                                                   specialize (Hb2 Hl)]; lia.
  - apply Forall_forall. intros h Hin.
    rewrite Forall_forall in Hf. destruct (Hf h Hin) as (Hfil & Hq0 & Hq1).
    assert (Hql : (if query =? "" then "" else lower query) = "" <-> query = "").
    { destruct (query =? "") eqn:E.
      - apply String.eqb_eq in E. tauto.
      - apply String.eqb_neq in E. split; [|contradiction].
        intros El. now apply lower_nil in El. }
    split; [|split; [exact Hfil|split]].
    + apply sorted_items_lookup; [now apply discover_tasks_NoDup with st|].
      apply (subsequence_In _ _ _ Hs). rewrite <- surjective_pairing.
      now apply in_map.
    + intros E. apply Hq0, Hql, E.
    + intros Hne.
      assert (Hne' : (if query =? "" then "" else lower query) <> "")
        by (intros E; now apply Hql in E).
      destruct (Hq1 Hne') as [Hm Hsome].
      destruct (find_match_field _ _ _ _ Hne' Hm Hsome) as [Hin' Hiff].
      apply String.eqb_neq in Hne. rewrite Hne in Hiff. auto.
Qed.

Lemma search_tasks_results_witness :
  exists (tasks : dict Task) (picked : list hit),
    discover_tasks blocked_repo = Ok tasks /\
    [mkResult "T-1" "Example" "todo" VNone None (VList [])
              ".patchboard/tasks/T-1/task.md" (Some "Example") (Some "title");
     mkResult "T-2" "Example" "todo" VNone None (VList [])
              ".patchboard/tasks/T-2/task.md" (Some "Example") (Some "title")]
    = map result_of picked /\
    subsequence (map fst picked) (sorted_items tasks) /\
    (2 <= Z.max 20 1)%Z /\
    Forall (fun h : hit =>
              lookup (fst (fst h)) tasks = Some (snd (fst h)) /\
              filtered (snd (fst h)) (Some "todo") None None None /\
              ("exam" = "" -> snd h = (None, None)) /\
              ("exam" <> "" ->
               some_text (fst (snd h)) = true /\
               In (snd (snd h)) MATCH_FIELDS /\
               (snd (snd h) = Some "title" <->
                str_contains "exam" (lower (title (snd (fst h)))) = true)))
           picked.
Proof.
  apply (search_tasks_results blocked_repo "exam" (Some "todo") None None None
                              20).
  vm_compute. reflexivity.
Defined.

(** ** Sections of the body *)

Lemma strip_idempotent (s : string) : strip (strip s) = strip s.
Proof.
  destruct (strip_cases s) as [E|(c & r & E & Hc)].
  - rewrite E. reflexivity.
  - rewrite E. unfold strip at 1. cbn [lstrip]. rewrite Hc.
    rewrite <- E. unfold strip. apply rstrip_idempotent.
Qed.

Lemma split_lines_cons (s : string) :
  exists l ls, split_lines s = l :: ls.
Proof.
  induction s as [|c s (l & ls & IH)]; cbn [split_lines]; [now eauto|].
  destruct (Ascii.eqb c newline); [now eauto|]. rewrite IH. eauto.
Qed.

Lemma split_lines_app (a b : string) :
  split_lines (a ++ nl ++ b) = (split_lines a ++ split_lines b)%list.
Proof.
  induction a as [|c a IH].
  - reflexivity.
  - cbn [append split_lines]. rewrite IH.
    destruct (Ascii.eqb c newline); [reflexivity|].
    destruct (split_lines_cons a) as (l & ls & ->). reflexivity.
Qed.

Lemma join_split_lines (s : string) : join nl (split_lines s) = s.
Proof.
  induction s as [|c s IH]; [reflexivity|].
  cbn [split_lines]. destruct (Ascii.eqb c newline) eqn:Ec.
  - apply Ascii.eqb_eq in Ec. subst c.
    destruct (split_lines_cons s) as (l & ls & E). rewrite E in *.
    change (join nl ("" :: l :: ls)) with ("" ++ nl ++ join nl (l :: ls)).
    rewrite IH. reflexivity.
  - destruct (split_lines_cons s) as (l & ls & E). rewrite E in *.
    destruct ls as [|l' ls].
    + cbn [join] in *. now rewrite IH.
    + change (join nl (String c l :: l' :: ls))
        with (String c (l ++ nl ++ join nl (l' :: ls))).
      change (join nl (l :: l' :: ls)) with (l ++ nl ++ join nl (l' :: ls)) in IH.
      now rewrite IH.
Qed.

Lemma section_line_heading (s : section_state) (line : string) :
  section_line s line =
  match heading line with
  | Some name => mkSections (close_section s) (Some name) []
  | None =>
      if some_text (current_section s)
      then mkSections (sections s) (current_section s)
                      (current_content s ++ [line])%list
      else s
  end.
Proof.
  unfold section_line, heading. cbv zeta.
  destruct (startswith (strip (lower line)) "## context"); [reflexivity|].
  destruct (startswith (strip (lower line)) "## plan"); [reflexivity|].
  destruct (startswith (strip (lower line)) "## notes"); reflexivity.
Qed.

Lemma heading_name (line name : string) :
  heading line = Some name -> In name (keys no_sections) /\ name <> "".
Proof.
  unfold heading. cbv zeta.
  destruct (startswith (strip (lower line)) "## context");
    [intros [= <-]; cbn; split; [tauto | discriminate]|].
  destruct (startswith (strip (lower line)) "## plan");
    [intros [= <-]; cbn; split; [tauto | discriminate]|].
  destruct (startswith (strip (lower line)) "## notes");
    [intros [= <-]; cbn; split; [tauto | discriminate]|discriminate].
Qed.

(** Lines that are no headings are collected in the open section. *)
Lemma fold_section_lines (lines : list string) (d : dict string)
    (cur : option string) (content : list string) :
  (forall line, In line lines -> heading line = None) ->
  fold_left section_line lines (mkSections d cur content) =
  if some_text cur then mkSections d cur (content ++ lines)%list
  else mkSections d cur content.
Proof.
  revert content. induction lines as [|line lines IH]; intros content Hl.
  - cbn [fold_left]. rewrite app_nil_r. now destruct (some_text cur).
  - cbn [fold_left]. rewrite section_line_heading, (Hl line (or_introl eq_refl)).
    cbn [current_section sections current_content].
    destruct (some_text cur) eqn:Ec.
    + rewrite IH by (intros l Hin; apply Hl; now right).
      rewrite ?Ec, <- app_assoc. reflexivity.
    + rewrite IH by (intros l Hin; apply Hl; now right).
      now rewrite ?Ec.
Qed.

Lemma close_section_ok (s : section_state) :
  sections_ok (sections s) ->
  (forall cur, current_section s = Some cur -> cur <> "" ->
               In cur (keys no_sections)) ->
  sections_ok (close_section s).
Proof.
  intros [Hk Hv] Hcur. unfold close_section.
  destruct (current_section s) as [cur|]; [|now split].
  destruct (cur =? "") eqn:E; [now split|]. apply String.eqb_neq in E.
  specialize (Hcur cur eq_refl E). split.
  - rewrite keys_dict_set. unfold contains.
    destruct (lookup cur (sections s)) eqn:El; [assumption|].
    apply lookup_None_not_In in El. rewrite Hk in El. contradiction.
  - intros k v. rewrite lookup_dict_set.
    destruct (cur =? k); [intros [= <-]; apply strip_idempotent | apply Hv].
Qed.

Lemma fold_section_ok (lines : list string) (s : section_state) :
  sections_ok (sections s) ->
  (forall cur, current_section s = Some cur -> cur <> "" ->
               In cur (keys no_sections)) ->
  sections_ok (close_section (fold_left section_line lines s)).
Proof.
  revert s. induction lines as [|line lines IH]; intros s Hok Hcur.
  - now apply close_section_ok.
  - cbn [fold_left]. apply IH; rewrite section_line_heading.
    + destruct (heading line) as [name|]; cbn [sections].
      * now apply close_section_ok.
      * now destruct (some_text (current_section s)).
    + destruct (heading line) as [name|] eqn:Eh; cbn [current_section].
      * intros cur [= <-] _. now apply heading_name in Eh.
      * now destruct (some_text (current_section s)).
Qed.

(** The shape of what [parse_body_sections] returns: the keys are context,
    plan and notes, in this order, whatever the body holds, and every text is
    stripped of the white space around it. *)
Theorem parse_body_sections_shape (body : string) :
  keys (parse_body_sections body) = ["context"; "plan"; "notes"] /\
  forall k, strip (get_section (parse_body_sections body) k)
            = get_section (parse_body_sections body) k.
Proof.
  assert (H : sections_ok (parse_body_sections body)).
  { unfold parse_body_sections. apply fold_section_ok; cbn [sections].
    - split; [reflexivity|]. intros k v. cbn [lookup].
      repeat match goal with
             | |- context [if ?c then _ else _] => destruct c
             end; try discriminate; intros [= <-]; reflexivity.
    - cbn [current_section]. discriminate. }
  destruct H as [Hk Hv]. split; [exact Hk|].
  intros k. unfold get_section.
  destruct (lookup k (parse_body_sections body)) as [v|] eqn:E;
    [now apply (Hv k) | reflexivity].
Qed.

(** How [parse_body_sections] reads a body whose last lines hold no heading.
    Without any heading line all three sections are empty: text before the
    first heading belongs to no section.  After a heading line the text is
    the section's content, stripped, and it replaces what an earlier section
    of the same name held; the other sections are those of the lines before
    the heading. *)
Theorem parse_body_sections_last (text : string)
    (Htext : forall line, In line (split_lines text) -> heading line = None) :
  parse_body_sections text = no_sections /\
  forall pre h name,
    heading h = Some name ->
    split_lines h = [h] ->
    parse_body_sections (pre ++ nl ++ h ++ nl ++ text)
    = dict_set name (strip text) (parse_body_sections pre).
Proof.
  split.
  - unfold parse_body_sections. fold no_sections.
    now rewrite fold_section_lines.
  - intros pre h name Hh Hone. unfold parse_body_sections. fold no_sections.
    rewrite !split_lines_app, !fold_left_app, Hone.
    cbn [fold_left]. rewrite section_line_heading, Hh.
    rewrite fold_section_lines by assumption.
    destruct (heading_name _ _ Hh) as [_ Hne].
    apply String.eqb_neq in Hne. cbn [some_text]. rewrite Hne. cbn [negb].
    unfold close_section at 1. cbn [current_section sections current_content].
    rewrite Hne. cbn [app]. now rewrite join_split_lines.
Qed.

Lemma parse_body_sections_last_witness :
  parse_body_sections ("intro" ++ nl ++ "text") = no_sections /\
  parse_body_sections (("## Context" ++ nl ++ "old" ++ nl ++ "## Plan" ++ nl
                        ++ "draft")
                       ++ nl ++ "## PLAN (final)" ++ nl
                       ++ ("intro" ++ nl ++ "text"))
  = dict_set "plan" (strip ("intro" ++ nl ++ "text"))
      (parse_body_sections ("## Context" ++ nl ++ "old" ++ nl ++ "## Plan" ++ nl
                            ++ "draft")).
Proof.
  assert (H : forall line, In line (split_lines ("intro" ++ nl ++ "text")) ->
                           heading line = None).
  { intros line [<-|[<-|[]]]; vm_compute; reflexivity. }
  destruct (parse_body_sections_last ("intro" ++ nl ++ "text") H) as [H1 H2].
  split; [exact H1|].
  apply (H2 _ "## PLAN (final)" "plan"); vm_compute; reflexivity.
Defined.

(** ** Unarchiving *)

Lemma has_entry_filter_others (f task_id : string) (a : list entry) :
  has_entry f (filter (fun e => negb (name e =? task_id)) a)
  = negb (f =? task_id) && has_entry f a.
Proof.
  induction a as [|e a IH]; cbn [filter has_entry];
    [now rewrite andb_false_r|].
  destruct (name e =? task_id) eqn:E; cbn [negb has_entry]; rewrite IH.
  - apply String.eqb_eq in E. rewrite E.
    destruct (f =? task_id) eqn:E'; cbn [negb andb]; [reflexivity|].
    rewrite String.eqb_sym, E'. reflexivity.
  - destruct (name e =? f) eqn:E'; cbn [orb]; [|reflexivity].
    apply String.eqb_eq in E'. subst f. rewrite E. reflexivity.
Qed.

Lemma has_entry_filter_named (f task_id : string) (a : list entry) :
  has_entry f (filter (fun e => name e =? task_id) a)
  = (f =? task_id) && has_entry f a.
Proof.
  induction a as [|e a IH]; cbn [filter has_entry];
    [now rewrite andb_false_r|].
  destruct (name e =? task_id) eqn:E; cbn [has_entry]; rewrite IH.
  - apply String.eqb_eq in E. rewrite E.
    destruct (f =? task_id) eqn:E'; cbn [andb].
    + apply String.eqb_eq in E'. subst f. now rewrite String.eqb_refl.
    + rewrite String.eqb_sym, E'. reflexivity.
  - destruct (name e =? f) eqn:E'; cbn [orb]; [|reflexivity].
    apply String.eqb_eq in E'. subst f. rewrite E. reflexivity.
Qed.

(** What [unarchive_task] does.  It succeeds only for an entry of the
    archive whose name is free in the tasks directory; the entry then leaves
    the archive for the tasks directory, every other entry of either
    directory stays where it is, and no lock file is touched.  When it fails
    with a message the repository is as it was, and the message tells why:
    the destination exists, the task is active, or it is nowhere.  It reads
    the active tasks only when the archive lacks the entry, so only then can
    a malformed task file make it raise. *)
Theorem unarchive_task_outcomes (st : repo) (task_id : string) :
  (forall st', unarchive_task st task_id = Unarchived st' ->
     archive_exists st task_id = true /\
     active_exists st task_id = false /\
     archive_exists st' task_id = false /\
     active_exists st' task_id = true /\
     (forall f, f <> task_id ->
                archive_exists st' f = archive_exists st f /\
                active_exists st' f = active_exists st f) /\
     lock_files st' = lock_files st) /\
  (forall m st', unarchive_task st task_id = Refused m st' ->
     st' = st /\
     (m = ActiveExists task_id /\
      archive_exists st task_id = true /\ active_exists st task_id = true \/
      archive_exists st task_id = false /\
      exists tasks, discover_tasks st = Ok tasks /\
        m = if contains task_id tasks then NotArchived task_id
            else ArchivedNotFound task_id)) /\
  (forall e st', unarchive_task st task_id = Escaped e st' ->
     st' = st /\ archive_exists st task_id = false /\
     discover_tasks st = Raise e).
Proof.
  unfold unarchive_task.
  destruct (archive_exists st task_id) eqn:Ea; cbn [negb].
  - destruct (active_exists st task_id) eqn:Ed.
    + split; [discriminate|]. split; [|discriminate].
      intros m st' [= <- <-]. split; [reflexivity|]. left. auto.
    + split; [|split; discriminate].
      intros st' [= <-]. unfold archive_exists, active_exists in *.
      unfold move_from_archive.
      cbn [archived_base tasks_base lock_files].
      destruct (archived_base st) as [arch|]; [|discriminate].
      split; [reflexivity|]. split; [reflexivity|].
      rewrite has_entry_filter_others, String.eqb_refl. cbn [negb andb].
      split; [reflexivity|].
      rewrite has_entry_app, has_entry_filter_named, String.eqb_refl, Ea.
      cbn [andb]. rewrite orb_true_r. cbn [orb].
      split; [reflexivity|]. split; [|reflexivity].
      intros f Hf. apply String.eqb_neq in Hf.
      rewrite has_entry_filter_others, has_entry_app, has_entry_filter_named, Hf.
      cbn [negb andb]. rewrite orb_false_r.
      split; reflexivity.
  - destruct (discover_tasks st) as [tasks|e].
    + split; [destruct (contains task_id tasks); discriminate|].
      split; [|destruct (contains task_id tasks); discriminate].
      intros m st' H. assert (Hst : st' = st /\
        m = if contains task_id tasks then NotArchived task_id
            else ArchivedNotFound task_id).
      { destruct (contains task_id tasks); injection H as <- <-; auto. }
      destruct Hst as [-> ->]. split; [reflexivity|]. right.
      split; [reflexivity|]. now exists tasks.
    + split; [discriminate|]. split; [discriminate|].
      intros e' st' [= <- <-]. auto.
Qed.

(** ** The order of a directory listing *)

Lemma compare_not_gt_trans (a b c : string) :
  String.compare a b <> Gt -> String.compare b c <> Gt ->
  String.compare a c <> Gt.
Proof.
  revert b c.
  induction a as [|x a IH]; intros [|y b] [|z c]; cbn [String.compare];
    try congruence.
  unfold Ascii.compare.
  destruct (N.compare_spec (N_of_ascii x) (N_of_ascii y)) as [Exy|Exy|Exy];
    destruct (N.compare_spec (N_of_ascii y) (N_of_ascii z)) as [Eyz|Eyz|Eyz];
    destruct (N.compare_spec (N_of_ascii x) (N_of_ascii z)) as [Exz|Exz|Exz];
    try congruence; try lia.
  apply IH.
Qed.

Lemma leb_trans (a b c : string) :
  String.leb a b = true -> String.leb b c = true -> String.leb a c = true.
Proof.
  unfold String.leb. intros H1 H2.
  pose proof (compare_not_gt_trans a b c) as H.
  destruct (String.compare a b), (String.compare b c), (String.compare a c);
    try reflexivity; try discriminate; exfalso; apply H; congruence.
Qed.

Section Sorting.
Context {A : Type} (key : A -> string).

(** Two elements with different keys can be inserted in either order. *)
Lemma insert_by_comm (x y : A) (l : list A) :
  key x <> key y ->
  insert_by key x (insert_by key y l) = insert_by key y (insert_by key x l).
Proof.
  intros Hne.
  assert (Hxy : String.leb (key x) (key y) = negb (String.leb (key y) (key x))).
  { destruct (String.leb (key x) (key y)) eqn:E1,
             (String.leb (key y) (key x)) eqn:E2; try reflexivity.
    - exfalso. apply Hne. now apply String.leb_antisym.
    - destruct (String.leb_total (key x) (key y)); congruence. }
  induction l as [|z l IH]; cbn [insert_by].
  - rewrite Hxy. now destruct (String.leb (key y) (key x)).
  - destruct (String.leb (key y) (key z)) eqn:Eyz,
             (String.leb (key x) (key z)) eqn:Exz; cbn [insert_by].
    + rewrite Hxy, Eyz, Exz. now destruct (String.leb (key y) (key x)).
    + rewrite Eyz, Exz.
      destruct (String.leb (key x) (key y)) eqn:E; [|reflexivity].
      rewrite (leb_trans _ _ _ E Eyz) in Exz. discriminate.
    + rewrite Eyz, Exz.
      destruct (String.leb (key y) (key x)) eqn:E; [|reflexivity].
      rewrite (leb_trans _ _ _ E Exz) in Eyz. discriminate.
    + rewrite Eyz, Exz. now rewrite IH.
Qed.

Lemma sort_by_snoc (e : A) (l : list A) :
  ~ In (key e) (map key l) ->
  sort_by key (l ++ [e]) = insert_by key e (sort_by key l).
Proof.
  induction l as [|x l IH]; intros Hn; [reflexivity|].
  cbn [app sort_by]. rewrite IH by (intros H; apply Hn; now right).
  apply insert_by_comm. intros E. apply Hn. left. now symmetry.
Qed.

Lemma sort_by_app_tail (l1 l l' : list A) :
  sort_by key l = sort_by key l' ->
  sort_by key (l1 ++ l) = sort_by key (l1 ++ l').
Proof.
  intros H. induction l1 as [|x l1 IH]; [exact H|].
  cbn [app sort_by]. now rewrite IH.
Qed.

(** Sorting does not see that an element with a key of its own was moved to
    the end of the list. *)
Lemma sort_by_move_last (e : A) (l1 l2 : list A) :
  ~ In (key e) (map key l2) ->
  sort_by key ((l1 ++ l2) ++ [e]) = sort_by key (l1 ++ e :: l2).
Proof.
  intros Hn. rewrite <- app_assoc. apply sort_by_app_tail.
  now rewrite sort_by_snoc.
Qed.
End Sorting.

Lemma filter_none {A : Type} (f : A -> bool) (l : list A) :
  (forall x, In x l -> f x = false) -> filter f l = [].
Proof.
  induction l as [|x l IH]; intros H; [reflexivity|].
  cbn [filter]. rewrite (H x (or_introl eq_refl)).
  apply IH. intros y Hy. apply H. now right.
Qed.

Lemma filter_all {A : Type} (f : A -> bool) (l : list A) :
  (forall x, In x l -> f x = true) -> filter f l = l.
Proof.
  induction l as [|x l IH]; intros H; [reflexivity|].
  cbn [filter]. rewrite (H x (or_introl eq_refl)).
  rewrite IH; [reflexivity|]. intros y Hy. apply H. now right.
Qed.

Lemma named_once (f : string) (e e' : entry) (base : list entry) :
  NoDup (map name base) -> In e base -> In e' base ->
  name e = f -> name e' = f -> e = e'.
Proof.
  intros Hnd. induction base as [|x base IH]; [contradiction|].
  cbn [map] in Hnd. inversion Hnd as [|? ? Hx Hnd']; subst.
  intros [->|H] [->|H'] Hn Hn'.
  - reflexivity.
  - exfalso. apply Hx. rewrite Hn, <- Hn'. now apply in_map.
  - exfalso. apply Hx. rewrite Hn', <- Hn. now apply in_map.
  - now apply IH.
Qed.

(** Sorting a listing with distinct names does not see that the entry named
    [f] was taken out and put back at the end. *)
Lemma sort_listing_put_back (f : string) (base : list entry) :
  NoDup (map name base) ->
  sort_by name (filter (fun e => negb (name e =? f)) base
                ++ filter (fun e => name e =? f) base)%list
  = sort_by name base.
Proof.
  intros Hnd. destruct (has_entry f base) eqn:Eh.
  - apply has_entry_In in Eh as (e & Hin & Hn).
    apply in_split in Hin as (l1 & l2 & ->).
    rewrite map_app in Hnd. cbn [map] in Hnd.
    pose proof (NoDup_remove_2 _ _ _ Hnd) as Hout.
    rewrite in_app_iff in Hout.
    assert (H1 : forall x, In x l1 -> (name x =? f) = false).
    { intros x Hx. apply String.eqb_neq. intros E. apply Hout. left.
      rewrite Hn, <- E. now apply in_map. }
    assert (H2 : forall x, In x l2 -> (name x =? f) = false).
    { intros x Hx. apply String.eqb_neq. intros E. apply Hout. right.
      rewrite Hn, <- E. now apply in_map. }
    rewrite !filter_app. cbn [filter]. rewrite <- Hn, String.eqb_refl.
    cbn [negb]. rewrite Hn.
    rewrite (filter_none _ l1 H1), (filter_none _ l2 H2).
    rewrite (filter_all _ l1), (filter_all _ l2);
      try (intros x Hx; rewrite ?(H1 x Hx), ?(H2 x Hx); reflexivity).
    cbn [app]. apply sort_by_move_last. tauto.
  - assert (H : forall x, In x base -> (name x =? f) = false).
    { intros x Hx. destruct (name x =? f) eqn:E; [|reflexivity].
      apply String.eqb_eq in E.
      assert (has_entry f base = true) by (apply has_entry_In; eauto).
      congruence. }
    rewrite (filter_none _ base H), (filter_all _ base), app_nil_r;
      [reflexivity|].
    intros x Hx. now rewrite (H x Hx).
Qed.

(** ** Archiving and unarchiving *)

Lemma scan_lookup (reserved : bool) (l : list entry) :
  forall acc tasks k t,
    for_each l (discover_entry reserved) acc = Ok tasks ->
    lookup k tasks = Some t ->
    lookup k acc = Some t \/
    exists e, In e l /\ yields reserved e k /\ read_from t e.
Proof.
  induction l as [|e l IH]; intros acc tasks k t; cbn [for_each].
  - intros [= <-]. tauto.
  - rewrite discover_entry_eligible. destruct (eligible reserved e) eqn:Ee.
    + destruct (task_md e) as [[[fm b]|err]|] eqn:Em; cbn [bind];
        [|discriminate|].
      * intros H Hl. destruct (IH _ _ k t H Hl) as [Ha|(e' & Hin & Hy & Hr)].
        -- rewrite lookup_dict_set in Ha.
           destruct (entry_id fm (name e) =? k) eqn:Ek; [|now left].
           apply String.eqb_eq in Ek. injection Ha as <-.
           right. exists e. split; [now left|]. split.
           ++ split; [assumption|]. now exists fm, b.
           ++ unfold eligible in Ee.
              apply andb_prop in Ee as [Ee _]. apply andb_prop in Ee as [Ed _].
              repeat split; assumption.
        -- right. exists e'. split; [now right | auto].
      * intros H Hl. destruct (IH _ _ k t H Hl) as [Ha|(e' & Hin & Hy & Hr)];
          [now left|].
        right. exists e'. split; [now right | auto].
    + cbn [bind]. intros H Hl.
      destruct (IH _ _ k t H Hl) as [Ha|(e' & Hin & Hy & Hr)]; [now left|].
      right. exists e'. split; [now right | auto].
Qed.

(** A discovered task was read from an eligible folder of the listing. *)
Lemma discovered_from_eligible (st : repo) (base : list entry)
    (tasks : dict Task) (k : string) (t : Task) :
  tasks_base st = Some base ->
  discover_tasks st = Ok tasks ->
  lookup k tasks = Some t ->
  exists e, In e base /\ yields true e k /\ read_from t e.
Proof.
  unfold discover_tasks. intros -> H Hl.
  destruct (scan_lookup true _ _ _ k t H Hl) as [Ha|(e & Hin & Hy & Hr)];
    [discriminate|].
  exists e. apply In_sort_by in Hin. auto.
Qed.

Lemma archive_task_Done_inv (cal : Calendar) (now : Z) (st st1 : repo)
    (task_id : string) (tasks : dict Task) (task : Task) :
  discover_tasks st = Ok tasks ->
  lookup task_id tasks = Some task ->
  archive_task now st task_id = Done st1 ->
  archive_exists (make_archive_dir st) task_id = false /\
  st1 = delete_lock (move_to_archive (make_archive_dir st) (path task) task_id)
                    task_id.
Proof.
  intros Hd Hl. unfold archive_task. rewrite Hd. cbn [try]. rewrite Hl.
  assert (Hmove :
    (if archive_exists (make_archive_dir st) task_id
     then Failed (DestinationExists task_id) (make_archive_dir st)
     else Done (delete_lock
                  (move_to_archive (make_archive_dir st) (path task) task_id)
                  task_id)) = Done st1 ->
    archive_exists (make_archive_dir st) task_id = false /\
    st1 = delete_lock (move_to_archive (make_archive_dir st) (path task) task_id)
                      task_id).
  { destruct (archive_exists (make_archive_dir st) task_id); [discriminate|].
    intros [= <-]. auto. }
  destruct (load_lock st task_id) as [l|]; [|exact Hmove].
  destruct (is_expired now l); cbn [negb]; [exact Hmove|].
  destruct (lease_expires_at l); cbn [try]; discriminate.
Qed.

Lemma archive_entry_named (f : string) (base : list entry) :
  archive_entry f f base = filter (fun e => name e =? f) base.
Proof.
  unfold archive_entry. induction base as [|e base IH]; [reflexivity|].
  cbn [filter]. destruct (name e =? f) eqn:E; [|exact IH].
  cbn [map]. rewrite IH. apply String.eqb_eq in E. rewrite <- E.
  now destruct e.
Qed.

Lemma filter_filter {A : Type} (f : A -> bool) (l : list A) :
  filter f (filter f l) = filter f l.
Proof.
  apply filter_all. intros x Hx. now apply filter_In in Hx.
Qed.

Lemma filter_filter_out {A : Type} (f : A -> bool) (l : list A) :
  filter (fun x => negb (f x)) (filter f l) = [].
Proof.
  apply filter_none. intros x Hx. apply filter_In in Hx as [_ Hx].
  now rewrite Hx.
Qed.

Lemma has_entry_false (f : string) (a : list entry) :
  has_entry f a = false ->
  filter (fun e => name e =? f) a = [] /\
  filter (fun e => negb (name e =? f)) a = a.
Proof.
  intros H.
  assert (Hn : forall x, In x a -> (name x =? f) = false).
  { intros x Hx. destruct (name x =? f) eqn:E; [|reflexivity].
    apply String.eqb_eq in E.
    assert (has_entry f a = true) by (apply has_entry_In; eauto).
    congruence. }
  split; [now apply filter_none|].
  apply filter_all. intros x Hx. now rewrite (Hn x Hx).
Qed.

(** Archiving a task and unarchiving it again.  When the folder of the task
    is named after its id, [unarchive_task] succeeds after [archive_task],
    and discovery then finds the active tasks and the archived tasks that it
    found before.  What is left of the two moves is that the lock of the
    task, which could only be an expired one, is deleted. *)
Theorem archive_unarchive_round_trip (cal : Calendar) (now : Z)
    (st st1 : repo) (task_id : string) (base : list entry)
    (tasks : dict Task) (task : Task) :
  tasks_base st = Some base ->
  NoDup (map name base) ->
  discover_tasks st = Ok tasks ->
  lookup task_id tasks = Some task ->
  path task = task_id ->
  archive_task now st task_id = Done st1 ->
  exists st2,
    unarchive_task st1 task_id = Unarchived st2 /\
    discover_tasks st2 = Ok tasks /\
    discover_archived_tasks st2 = discover_archived_tasks st /\
    lock_files st2 = dict_del task_id (lock_files st) /\
    board_file st2 = board_file st.
Proof.
  intros Hb Hnd Hd Hl Hp Ha.
  destruct (archive_task_Done_inv cal now st st1 task_id tasks task Hd Hl Ha)
    as [Hfree ->].
  destruct (discovered_from_eligible st base tasks task_id task Hb Hd Hl)
    as (e & Hin & [Hel _] & Hn & _).
  rewrite Hp in *.
  assert (Hhas : has_entry task_id base = true)
    by (apply has_entry_In; now exists e).
  assert (Hdot : (task_id =? ".archived") = false).
  { destruct (task_id =? ".archived") eqn:E; [|reflexivity].
    apply String.eqb_eq in E. unfold eligible in Hel.
    rewrite Hn, E in Hel. cbn in Hel. rewrite andb_false_r in Hel.
    discriminate. }
  set (arch := match archived_base st with Some a => a | None => [] end) in *.
  assert (Harch : has_entry task_id arch = false).
  { unfold archive_exists, make_archive_dir in Hfree.
    cbn [archived_base] in Hfree. exact Hfree. }
  destruct (has_entry_false task_id arch Harch) as [Hf1 Hf2].
  exists (move_from_archive
            (delete_lock
               (move_to_archive (make_archive_dir st) task_id task_id) task_id)
            task_id).
  split; [|split; [|split; [|split]]].
  - unfold unarchive_task, archive_exists, active_exists, delete_lock,
      move_to_archive, make_archive_dir.
    cbn [archived_base tasks_base]. rewrite Hb.
    fold arch. rewrite archive_entry_named.
    rewrite has_entry_app, has_entry_filter_named, String.eqb_refl, Hhas.
    rewrite orb_true_r. cbn [negb andb].
    rewrite has_entry_filter_others, String.eqb_refl, Hdot.
    cbn [negb andb orb]. reflexivity.
  - unfold discover_tasks, move_from_archive, delete_lock, move_to_archive,
      make_archive_dir.
    cbn [archived_base tasks_base]. rewrite ?Hb. fold arch.
    rewrite archive_entry_named, filter_app, Hf1, filter_filter.
    cbn [app]. rewrite sort_listing_put_back by assumption.
    unfold discover_tasks in Hd. now rewrite Hb in Hd.
  - unfold discover_archived_tasks, move_from_archive, delete_lock,
      move_to_archive, make_archive_dir.
    cbn [archived_base tasks_base]. rewrite ?Hb. fold arch.
    rewrite archive_entry_named, filter_app, Hf2, filter_filter_out,
      app_nil_r.
    subst arch. now destruct (archived_base st).
  - reflexivity.
  - reflexivity.
Qed.

Lemma archive_unarchive_round_trip_witness :
  exists st2,
    unarchive_task
      (delete_lock (move_to_archive (make_archive_dir blocked_repo) "T-2" "T-2")
                   "T-2") "T-2" = Unarchived st2 /\
    discover_tasks st2 = Ok blocked_tasks /\
    discover_archived_tasks st2 = discover_archived_tasks blocked_repo /\
    lock_files st2 = dict_del "T-2" (lock_files blocked_repo) /\
    board_file st2 = board_file blocked_repo.
Proof.
  apply (archive_unarchive_round_trip decimal_calendar 0 blocked_repo _ "T-2"
           [folder "T-1" (example_fm "T-1" "todo" [VStr "T-2"]);
            folder "T-2" (example_fm "T-2" "todo" []);
            folder "T-3" (example_fm "T-3" "ready" [VStr "T-1"])]
           blocked_tasks
           (mkTask "T-2" "T-2" (example_fm "T-2" "todo" [])
                   ("## Context" ++ nl))).
  - reflexivity.
  - repeat constructor; cbn; intuition discriminate.
  - vm_compute. reflexivity.
  - vm_compute. reflexivity.
  - reflexivity.
  - vm_compute. reflexivity.
Defined.

Lemma entry_id_idempotent (fm : dict value) (n : string) :
  entry_id fm (entry_id fm n) = entry_id fm n.
Proof.
  unfold entry_id, py_or.
  destruct (truthy (get fm "id" VNone)); [reflexivity|].
  cbn [py_str]. apply strip_idempotent.
Qed.

Lemma discover_tasks_listing (st : repo) :
  discover_tasks st =
  for_each (sort_by name (match tasks_base st with Some b => b | None => [] end))
           (discover_entry true) [].
Proof. unfold discover_tasks. now destruct (tasks_base st). Qed.

Lemma discover_archived_tasks_listing (st : repo) :
  discover_archived_tasks st =
  for_each (sort_by name
              (match archived_base st with Some a => a | None => [] end))
           (discover_entry false) [].
Proof. unfold discover_archived_tasks. now destruct (archived_base st). Qed.

Lemma listing_ok_iff (reserved : bool) (l : list entry) :
  (exists tasks, for_each (sort_by name l) (discover_entry reserved) []
                 = Ok tasks) <->
  (forall e, In e l -> eligible reserved e = true ->
             exists fm b, task_md e = Some (Ok (fm, b))).
Proof.
  rewrite scan_ok_iff. split; intros H e Hin; apply H;
    [now apply In_sort_by | now apply In_sort_by in Hin].
Qed.

Lemma listing_contains (reserved : bool) (l : list entry) (tasks : dict Task)
    (k : string) :
  for_each (sort_by name l) (discover_entry reserved) [] = Ok tasks ->
  (contains k tasks = true <-> exists e, In e l /\ yields reserved e k).
Proof.
  intros H. rewrite (scan_contains reserved _ [] tasks k H). split.
  - intros [Hc|(e & Hin & Hy)]; [discriminate|].
    exists e. apply In_sort_by in Hin. auto.
  - intros (e & Hin & Hy). right. exists e. split; [|assumption].
    now apply In_sort_by.
Qed.

(** Archiving keeps every reference resolvable.  After [archive_task] has
    moved a task whose id is a file name, discovery still succeeds on both
    directories; the task is
    among the archived ones under its id, also when its folder had another
    name; the other active tasks and all archived tasks are found as before;
    so an id that named an active or archived task still names one. *)
Theorem archive_keeps_references (cal : Calendar) (now : Z) (st st1 : repo)
    (task_id : string) (base : list entry) (tasks archived : dict Task) :
  tasks_base st = Some base ->
  NoDup (map name base) ->
  file_name task_id = true ->
  discover_tasks st = Ok tasks ->
  discover_archived_tasks st = Ok archived ->
  archive_task now st task_id = Done st1 ->
  exists tasks1 archived1,
    discover_tasks st1 = Ok tasks1 /\
    discover_archived_tasks st1 = Ok archived1 /\
    contains task_id archived1 = true /\
    (forall k, k <> task_id -> contains k tasks1 = contains k tasks) /\
    (forall k, contains k archived = true -> contains k archived1 = true) /\
    (forall v, resolves tasks archived v = true ->
               resolves tasks1 archived1 v = true).
Proof.
  intros Hb Hnd _ Hd Hda Ha.
  destruct (lookup task_id tasks) as [task|] eqn:Hl.
  2:{ unfold archive_task in Ha. rewrite Hd in Ha. cbn [try] in Ha.
      rewrite Hl in Ha. destruct (archive_exists st task_id); discriminate. }
  destruct (archive_task_Done_inv cal now st st1 task_id tasks task Hd Hl Ha)
    as [Hfree ->].
  destruct (discovered_from_eligible st base tasks task_id task Hb Hd Hl)
    as (e & Hin & Hy & Hn & Hdir & Hmd & _).
  set (arch := match archived_base st with Some a => a | None => [] end) in *.
  set (f := path task) in *.
  pose proof Hd as Hd0. pose proof Hda as Hda0.
  rewrite discover_tasks_listing, Hb in Hd0.
  rewrite discover_archived_tasks_listing in Hda0. fold arch in Hda0.
  assert (Hwf : forall e0, In e0 base -> eligible true e0 = true ->
                           exists fm b, task_md e0 = Some (Ok (fm, b)))
    by (apply listing_ok_iff; eauto).
  assert (Hwfa : forall e0, In e0 arch -> eligible false e0 = true ->
                            exists fm b, task_md e0 = Some (Ok (fm, b)))
    by (apply listing_ok_iff; eauto).
  assert (Hmoved : forall e', In e' (archive_entry f task_id base) <->
                              e' = mkEntry task_id (is_dir e) (task_md e)).
  { intros e'. unfold archive_entry. rewrite in_map_iff. split.
    - intros (e0 & <- & Hf). apply filter_In in Hf as [Hin0 Hf].
      apply String.eqb_eq in Hf.
      now rewrite (named_once f e0 e base Hnd Hin0 Hin Hf Hn).
    - intros ->. exists e. split; [reflexivity|]. apply filter_In.
      split; [assumption|]. now apply String.eqb_eq. }
  assert (Hye : yields false (mkEntry task_id (is_dir e) (task_md e)) task_id).
  { destruct Hy as (_ & fm & b & Hfm & Hid). split.
    - unfold eligible. cbn [is_dir task_md name]. rewrite Hdir, Hfm. reflexivity.
    - exists fm, b. cbn [task_md name]. split; [assumption|].
      rewrite <- Hid at 1. rewrite entry_id_idempotent. exact Hid. }
  assert (H1 : exists tasks1,
    for_each (sort_by name (filter (fun e0 => negb (name e0 =? f)) base))
             (discover_entry true) [] = Ok tasks1).
  { apply listing_ok_iff. intros e0 Hin0. apply filter_In in Hin0 as [Hin0 _].
    now apply Hwf. }
  assert (H2 : exists archived1,
    for_each (sort_by name (arch ++ archive_entry f task_id base))
             (discover_entry false) [] = Ok archived1).
  { apply listing_ok_iff. intros e0 Hin0 He0.
    apply in_app_iff in Hin0 as [Hin0|Hin0]; [now apply Hwfa|].
    apply Hmoved in Hin0. subst e0. cbn [task_md].
    rewrite Hmd. eauto. }
  destruct H1 as [tasks1 H1]. destruct H2 as [archived1 H2].
  assert (Hst1 : discover_tasks
                   (delete_lock (move_to_archive (make_archive_dir st) f task_id)
                                task_id) = Ok tasks1).
  { rewrite discover_tasks_listing. unfold delete_lock, move_to_archive,
      make_archive_dir. cbn [tasks_base archived_base]. now rewrite Hb. }
  assert (Hsa1 : discover_archived_tasks
                   (delete_lock (move_to_archive (make_archive_dir st) f task_id)
                                task_id) = Ok archived1).
  { rewrite discover_archived_tasks_listing. unfold delete_lock,
      move_to_archive, make_archive_dir. cbn [tasks_base archived_base].
    rewrite Hb. exact H2. }
  assert (Hin_arch : contains task_id archived1 = true).
  { apply (listing_contains false _ archived1 task_id H2).
    exists (mkEntry task_id (is_dir e) (task_md e)). split; [|exact Hye].
    apply in_app_iff. right. now apply Hmoved. }
  assert (Hothers : forall k, k <> task_id ->
                              contains k tasks1 = contains k tasks).
  { intros k Hk. apply eq_true_iff_eq.
    rewrite (listing_contains true _ tasks1 k H1),
      (listing_contains true _ tasks k Hd0).
    split; intros (e0 & Hin0 & Hy0).
    - apply filter_In in Hin0 as [Hin0 _]. eauto.
    - exists e0. split; [|assumption]. apply filter_In.
      split; [assumption|]. destruct (name e0 =? f) eqn:E; [|reflexivity].
      apply String.eqb_eq in E.
      rewrite (named_once f e0 e base Hnd Hin0 Hin E Hn) in Hy0.
      destruct Hy as (_ & fm & b & Hfm & Hid).
      destruct Hy0 as (_ & fm0 & b0 & Hfm0 & Hid0).
      rewrite Hfm in Hfm0. injection Hfm0 as <- <-. congruence. }
  assert (Harchived : forall k, contains k archived = true ->
                                contains k archived1 = true).
  { intros k. rewrite (listing_contains false _ archived k Hda0),
      (listing_contains false _ archived1 k H2).
    intros (e0 & Hin0 & Hy0). exists e0. split; [|assumption].
    apply in_app_iff. now left. }
  exists tasks1, archived1.
  split; [exact Hst1|]. split; [exact Hsa1|]. split; [exact Hin_arch|].
  split; [exact Hothers|]. split; [exact Harchived|].
  intros [| | |k| |]; cbn [resolves]; try discriminate.
  intros H. apply orb_true_iff in H. apply orb_true_iff.
  destruct (String.eqb_spec k task_id) as [->|Hk]; [now right|].
  destruct H as [H|H]; [left; now rewrite Hothers | right; now apply Harchived].
Qed.

Lemma archive_keeps_references_witness :
  exists tasks1 archived1,
    discover_tasks
      (delete_lock (move_to_archive (make_archive_dir blocked_repo) "T-2" "T-2")
                   "T-2") = Ok tasks1 /\
    discover_archived_tasks
      (delete_lock (move_to_archive (make_archive_dir blocked_repo) "T-2" "T-2")
                   "T-2") = Ok archived1 /\
    contains "T-2" archived1 = true /\
    (forall k, k <> "T-2" -> contains k tasks1 = contains k blocked_tasks) /\
    (forall k, contains k (@nil (string * Task)) = true ->
               contains k archived1 = true) /\
    (forall v, resolves blocked_tasks [] v = true ->
               resolves tasks1 archived1 v = true).
Proof.
  apply (archive_keeps_references decimal_calendar 0 blocked_repo _ "T-2"
           [folder "T-1" (example_fm "T-1" "todo" [VStr "T-2"]);
            folder "T-2" (example_fm "T-2" "todo" []);
            folder "T-3" (example_fm "T-3" "ready" [VStr "T-1"])]
           blocked_tasks []).
  - reflexivity.
  - repeat constructor; cbn; intuition discriminate.
  - vm_compute. reflexivity.
  - vm_compute. reflexivity.
  - vm_compute. reflexivity.
  - vm_compute. reflexivity.
Defined.

(** ** Index *)

Lemma index_entry_id (cal : Calendar) (now : Z) (st : repo) (tid : string)
    (task : Task) (t : index_task) :
  index_entry now st tid task = Ok t ->
  i_id t = tid /\ i_status t = status task /\
  depends_on task = Ok (i_depends_on t) /\
  i_lock t = index_lock now st tid.
Proof.
  unfold index_entry. destruct (depends_on task) as [deps|e]; cbn [bind];
    [|discriminate].
  intros [= <-]. cbn. auto.
Qed.

Lemma index_loop (cal : Calendar) (now : Z) (st : repo)
    (items : list (string * Task)) :
  forall acc,
  (forall out, for_each items
       (fun kv out_tasks =>
          entry <- index_entry now st (fst kv) (snd kv);;
          Ok (out_tasks ++ [entry])%list) acc = Ok out ->
     exists added,
       out = (acc ++ added)%list /\
       Forall2 (fun kv t => index_entry now st (fst kv) (snd kv) = Ok t)
               items added) /\
  ((exists out, for_each items
       (fun kv out_tasks =>
          entry <- index_entry now st (fst kv) (snd kv);;
          Ok (out_tasks ++ [entry])%list) acc = Ok out) <->
   (forall kv, In kv items -> exists deps, depends_on (snd kv) = Ok deps)).
Proof.
  induction items as [|[tid task] items IH]; intros acc; cbn [for_each].
  - split.
    + intros out [= <-]. exists []. rewrite app_nil_r. split; constructor.
    + split; [intros _ kv [] | intros _; now eexists].
  - cbn [fst snd].
    destruct (index_entry now st tid task) as [t|e] eqn:Et; cbn [bind].
    + destruct (IH (acc ++ [t])%list) as [IH1 IH2]. split.
      * intros out H. destruct (IH1 out H) as (added & -> & Hall).
        exists (t :: added). rewrite <- app_assoc. split; [reflexivity|].
        constructor; assumption.
      * rewrite IH2. split.
        -- intros H kv [<-|Hin]; [|now apply H]. cbn [snd].
           exists (i_depends_on t).
           now apply (index_entry_id cal now st tid task t Et).
        -- intros H kv Hin. apply H. now right.
    + split; [discriminate|]. split; [intros [out H]; discriminate|].
      intros H. destruct (H (tid, task) (or_introl eq_refl)) as [deps Hd].
      cbn [snd] in Hd. unfold index_entry in Et. rewrite Hd in Et.
      discriminate.
Qed.

(** What [generate_index] writes when it returns.  The discovery of the
    active tasks has then succeeded and the [depends_on] of every active task
    could be listed.  The index holds one entry for every active task, in the
    order of the ids, and none for an archived task; an entry shows the
    status and the dependencies of its task, and a lock exactly when the
    task has a lock file, with the holder and whether the lease is expired
    at the time of writing. *)
Theorem generate_index_entries (cal : Calendar) (now : Z) (st : repo)
    (stamp : string) (out : list index_task) :
  generate_index now st = Ok (stamp, out) ->
  stamp = human_dt (Aware now) /\
  exists tasks,
    discover_tasks st = Ok tasks /\
    (forall tid task, lookup tid tasks = Some task ->
                      exists deps, depends_on task = Ok deps) /\
    map i_id out = map fst (sorted_items tasks) /\
    Forall (fun t =>
              exists task,
                lookup (i_id t) tasks = Some task /\
                i_status t = status task /\
                depends_on task = Ok (i_depends_on t) /\
                (i_lock t = None <-> load_lock st (i_id t) = None) /\
                (forall l, load_lock st (i_id t) = Some l ->
                   i_lock t = Some (mkLockInfo
                                      (claimed_by l)
                                      (get (data l) "lease_expires_at" VNone)
                                      (is_expired now l)))) out.
Proof.
  unfold generate_index.
  destruct (discover_tasks st) as [tasks|e] eqn:Hd; cbn [bind]; [|discriminate].
  pose proof (discover_tasks_NoDup st tasks Hd) as Hnd.
  destruct (index_loop cal now st (sorted_items tasks) []) as [H1 H2].
  intros H.
  destruct (for_each (sorted_items tasks) _ []) as [o|] eqn:Ho;
    cbn [bind] in H; [|discriminate].
  injection H as <- <-. split; [reflexivity|].
  exists tasks. split; [reflexivity|]. split.
  { intros tid task Hl.
    apply (proj1 H2 (ex_intro _ o eq_refl) (tid, task)).
    now apply In_sorted_items. }
  destruct (H1 o eq_refl) as (added & -> & Hall). cbn [app].
  clear H1 H2 Ho.
  assert (Hin : forall kv, In kv (sorted_items tasks) ->
                           lookup (fst kv) tasks = Some (snd kv)).
  { intros [k v] Hkv. now apply sorted_items_lookup. }
  revert Hin. induction Hall as [|[tid task] t items added Ht Hall IH];
    intros Hin; [split; constructor|].
  destruct IH as [IHm IHf]; [intros kv Hkv; apply Hin; now right|].
  cbn [fst snd] in Ht.
  destruct (index_entry_id cal now st tid task t Ht) as (Hid & Hs & Hdp & Hlk).
  split.
  - cbn [map fst]. now rewrite Hid, IHm.
  - constructor; [|assumption].
    exists task. rewrite Hid. split; [apply (Hin (tid, task)); now left|].
    split; [assumption|]. split; [assumption|].
    rewrite Hlk. unfold index_lock.
    destruct (load_lock st tid) as [l|].
    + split; [split; discriminate|]. now intros l' [= <-].
    + split; [tauto | discriminate].
Qed.

Lemma generate_index_entries_witness :
  "100" = human_dt (Calendar := decimal_calendar) (Aware 100) /\
  exists tasks,
    discover_tasks locked_repo = Ok tasks /\
    (forall tid task, lookup tid tasks = Some task ->
                      exists deps, depends_on task = Ok deps) /\
    map i_id
        [mkIndexTask "T-1" "Example" VNone "in_progress" VNone None (VList [])
                     [] (VList []) ".patchboard/tasks/T-1/task.md"
                     (Some (mkLockInfo "bob" (VStr "3600") false))]
    = map fst (sorted_items tasks) /\
    Forall (fun t =>
              exists task,
                lookup (i_id t) tasks = Some task /\
                i_status t = status task /\
                depends_on task = Ok (i_depends_on t) /\
                (i_lock t = None <-> load_lock locked_repo (i_id t) = None) /\
                (forall l, load_lock locked_repo (i_id t) = Some l ->
                   i_lock t = Some (mkLockInfo
                                      (claimed_by l)
                                      (get (data l) "lease_expires_at" VNone)
                                      (is_expired (cal := decimal_calendar)
                                                  100 l))))
           [mkIndexTask "T-1" "Example" VNone "in_progress" VNone None (VList [])
                        [] (VList []) ".patchboard/tasks/T-1/task.md"
                        (Some (mkLockInfo "bob" (VStr "3600") false))].
Proof.
  apply (generate_index_entries decimal_calendar 100 locked_repo).
  vm_compute. reflexivity.
Defined.
